(** * minisam-react: the async operation queue, the mask utilities and the
    mask colour

    A shallow embedding of these parts of the library:

    - [src/utils/async-queue.ts]: [createAsyncOperationQueue], the queue that
      keeps calls into the ONNX session from overlapping.  The closure state
      ([queue], [isProcessing]), the promises handed out by [enqueue] and the
      suspended activations of [processQueue] are an explicit state; calls
      by clients, the settling of a thunk's promise and the job that resumes
      [processQueue] after its [await] are the events of a transition
      system.

    - the mask utilities ([maskToCanvas], [applyMaskToImage],
      [trimCanvasToContent], [getMaskBounds]): pixel loops over
      [Uint8ClampedArray] data, embedded as folds over the index ranges of
      the source loops.  A canvas is known by what [getImageData] reads
      from it; it keeps colours premultiplied by alpha, so image data put
      on it reads back changed where it is not opaque.

    - from the segmenter component, [hexToRgb] and the loop that paints the
      mask as a coloured overlay; from the hook [useMiniSam],
      [extractMaskAsCanvas].

    Numbers.  Array indices and pixel coordinates are integers far below
    2^53, where JavaScript's double arithmetic on [+], [-], [*], [%] is
    exact; they are embedded in [Z].  Divisions that leave the integers
    ([mask.width / image.width], [i / 4 / canvas.width]) and the roundings
    applied to them ([Math.floor], [~~]) are embedded with the IEEE 754
    binary64 operations of the Standard Library's [SpecFloat]. *)

From Stdlib Require Import ZArith Lia Bool SpecFloat Zpower Strings.Byte String.
From stdpp Require Import base list list_numbers gmap strings.

Local Open Scope Z_scope.

(** ** JavaScript numbers: binary64 *)
Module Float64.

(** A JavaScript number holding the integer [n]. *)
Definition of_int (n : Z) : spec_float := binary_normalize 53 1024 n 0 false.

(** The operators [/] and [*] on numbers. *)
Definition fdiv : spec_float -> spec_float -> spec_float := SFdiv 53 1024.
Definition fmul : spec_float -> spec_float -> spec_float := SFmul 53 1024.

(** [Math.floor].  The result is [None] when it is not a finite number
    (NaN, Infinity, -Infinity); [-0] is read as [0]. *)
Definition Math_floor (f : spec_float) : option Z :=
  match f with
  | S754_zero _ => Some 0
  | S754_finite s m e =>
      if 0 <=? e then Some ((if s then -1 else 1) * (Z.pos m * 2 ^ e))
      else Some ((if s then Z.neg m else Z.pos m) / 2 ^ (- e))
  | _ => None
  end.

(** The integer part of a finite number (rounding towards zero). *)
Definition truncate (f : spec_float) : option Z :=
  match f with
  | S754_zero _ => Some 0
  | S754_finite s m e =>
      let a := if 0 <=? e then Z.pos m * 2 ^ e else Z.pos m / 2 ^ (- e) in
      Some (if s then - a else a)
  | _ => None
  end.

(** [ToInt32] of ECMAScript, which is what [~~v] computes: NaN and the
    infinities give 0, other numbers are truncated and wrapped into the
    signed 32-bit range. *)
Definition ToInt32 (f : spec_float) : Z :=
  match truncate f with
  | None => 0
  | Some z => let r := z mod 2 ^ 32 in if r <? 2 ^ 31 then r else r - 2 ^ 32
  end.

(** *** Specification predicates used in the analysis of rounding *)

(** [loc_ok mrs N D]: the shift record [mrs] holds the integer part of the
    fraction [N / D], its round bit tells whether the remainder reaches one
    half, and its sticky bit whether the remainder is neither zero nor
    exactly one half. *)
Definition loc_ok (mrs : shr_record) (N D : Z) : Prop :=
  shr_m mrs = N / D /\
  (shr_r mrs = true <-> D <= 2 * (N mod D)) /\
  (shr_s mrs = true <-> N mod D <> 0 /\ 2 * (N mod D) <> D).

(** A positive double with a full 53-bit significand. *)
Definition normal53 (m : positive) : Prop := 2 ^ 52 <= Z.pos m < 2 ^ 53.

End Float64.

(** ** The mask utilities *)
Module MaskUtils.
Import Float64.

(** *** Typed arrays *)

(** [a[i]] on a [Uint8ClampedArray]: [None] is [undefined], the value of
    an index outside the array. *)
Definition array_get (a : list byte) (i : Z) : option byte :=
  if i <? 0 then None else a !! Z.to_nat i.

(** [a[i] = b]: a write outside the array is ignored. *)
Definition array_set (a : list byte) (i : Z) (b : byte) : list byte :=
  if i <? 0 then a else <[Z.to_nat i := b]> a.

(** [v === 0], [v !== 0] and [v > 0] for [v] read from a typed array;
    [undefined === 0] and [undefined > 0] are false. *)
Definition strict_eq_zero (v : option byte) : bool :=
  match v with Some b => Byte.eqb b x00 | None => false end.
Definition strict_ne_zero (v : option byte) : bool := negb (strict_eq_zero v).
Definition gt_zero (v : option byte) : bool :=
  match v with Some b => (0 <? Z.of_N (Byte.to_N b)) | None => false end.

(** *** Rasters *)

(** [ImageData]: [data] holds [width * height] pixels in row-major order,
    four bytes (R, G, B, A) per pixel. *)
Record ImageData := mkImageData { width : Z; height : Z; data : list byte }.

(** A canvas or image element, as far as these functions use one: its
    size, its bitmap as [getImageData] reads it (laid out like
    [ImageData.data]) and whether [getContext("2d")] returns a context. *)
Module Canvas.
Record t := mk { width : Z; height : Z; bitmap : list byte; context2d : bool }.
End Canvas.

(** Byte [c] (0 to 3) of the pixel at column [x], row [y]; positions
    outside the bitmap are transparent black. *)
Definition pixel_byte (src : Canvas.t) (x y c : Z) : byte :=
  if (0 <=? x) && (x <? Canvas.width src) && (0 <=? y) && (y <? Canvas.height src)
  then default x00 (array_get (Canvas.bitmap src) ((y * Canvas.width src + x) * 4 + c))
  else x00.

(** The bitmap of the [sw] by [sh] rectangle of [src] whose top-left corner
    is at ([sx], [sy]). *)
Definition crop (src : Canvas.t) (sx sy sw sh : Z) : list byte :=
  (fun k => pixel_byte src (sx + (k / 4) mod sw) (sy + (k / 4) / sw) (k mod 4))
    <$> seqZ 0 (4 * sw * sh).

(** [document.createElement("canvas")] followed by the assignments to
    [width] and [height]: a transparent canvas, whose 2D context exists. *)
Definition createCanvas (w h : Z) : Canvas.t :=
  Canvas.mk w h (replicate (Z.to_nat (4 * w * h)) x00) true.

(** [ctx.drawImage(image, 0, 0)] on a canvas that is still transparent. *)
Definition drawImage (image canvas : Canvas.t) : Canvas.t :=
  Canvas.mk (Canvas.width canvas) (Canvas.height canvas)
    (crop image 0 0 (Canvas.width canvas) (Canvas.height canvas))
    (Canvas.context2d canvas).

(** [ctx.drawImage(source, sx, sy, sw, sh, 0, 0, sw, sh)] on a transparent
    canvas of size [sw] by [sh]. *)
Definition drawImageRegion (source : Canvas.t) (sx sy sw sh : Z) (canvas : Canvas.t)
  : Canvas.t :=
  Canvas.mk (Canvas.width canvas) (Canvas.height canvas)
    (crop source sx sy sw sh) (Canvas.context2d canvas).

(** [ctx.getImageData(0, 0, canvas.width, canvas.height)]. *)
Definition getImageData (canvas : Canvas.t) : ImageData :=
  mkImageData (Canvas.width canvas) (Canvas.height canvas) (Canvas.bitmap canvas).

(** The number a byte holds, and the byte holding a number from 0 to
    255. *)
Definition number (v : byte) : Z := Z.of_N (Byte.to_N v).
Definition byte_of_number (n : Z) : byte := default x00 (Byte.of_N (Z.to_N n)).

(** A canvas keeps its colours multiplied by alpha, in bytes: a colour [c]
    written with alpha [a] is stored as [c * a / 255], rounded, and read as
    the stored byte times [255 / a], rounded.  With alpha 255 the colour is
    read as written; with alpha 0 nothing of it is kept. *)
Definition premultiply (c a : Z) : Z := (c * a + 127) / 255.
Definition unpremultiply (p a : Z) : Z :=
  if a =? 0 then 0 else Z.min 255 ((p * 255 + a / 2) / a).
Definition read_back (c a : byte) : byte :=
  byte_of_number (unpremultiply (premultiply (number c) (number a)) (number a)).

(** Byte [k] of what a canvas reads after image data [d] was put on it:
    an alpha byte as it was written, a colour byte through [read_back] with
    the alpha of its pixel. *)
Definition stored_byte (d : list byte) (k : Z) : byte :=
  let v := default x00 (array_get d k) in
  if k mod 4 =? 3 then v
  else read_back v (default x00 (array_get d (k / 4 * 4 + 3))).

(** [ctx.putImageData(imageData, 0, 0)] with [imageData] of the canvas's
    size. *)
Definition putImageData (imageData : ImageData) (canvas : Canvas.t) : Canvas.t :=
  Canvas.mk (Canvas.width canvas) (Canvas.height canvas)
    (stored_byte (data imageData) <$> seqZ 0 (Z.of_nat (length (data imageData))))
    (Canvas.context2d canvas).

(** *** [trimCanvasToContent] *)

Record bound_t := mkBound
  { top : option Z; left : option Z; right : option Z; bottom : option Z }.

(** The body of the loop [for (let i = 0; i < l; i += 4)].  [i] is a
    multiple of 4, so [i / 4] is the pixel's number, an integer; the
    division by [canvas.width] is a division of doubles, cut by [~~]. *)
Definition scan_pixel (canvas_width : Z) (pixels : list byte) (bound : bound_t) (i : Z)
  : bound_t :=
  if strict_ne_zero (array_get pixels (i + 3)) then
    let x := Z.rem (i / 4) canvas_width in
    let y := ToInt32 (fdiv (of_int (i / 4)) (of_int canvas_width)) in
    {| top := match top bound with None => Some y | Some t => Some t end;
       left := match left bound with
               | None => Some x
               | Some l => if x <? l then Some x else Some l
               end;
       right := match right bound with
                | None => Some x
                | Some r => if r <? x then Some x else Some r
                end;
       bottom := match bottom bound with
                 | None => Some y
                 | Some b => if b <? y then Some y else Some b
                 end |}
  else bound.

(** The values [i] takes: 0, 4, 8, ... below [l]. *)
Definition scan_indices (l : Z) : list Z := (fun k => 4 * k) <$> seqZ 0 ((l + 3) / 4).

Definition find_bounds (canvas_width : Z) (pixels : list byte) : bound_t :=
  foldl (scan_pixel canvas_width pixels) (mkBound None None None None)
    (scan_indices (Z.of_nat (length pixels))).

(** What [trimCanvasToContent] returns: its argument, or a canvas it
    created. *)
Inductive trim_result :=
  | SameCanvas
  | NewCanvas (trimmedCanvas : Canvas.t).

Definition trimCanvasToContent (canvas : Canvas.t) (padding : Z) : trim_result :=
  if negb (Canvas.context2d canvas) then SameCanvas else
  let pixels := getImageData canvas in
  let bound := find_bounds (Canvas.width canvas) (data pixels) in
  match top bound, left bound, right bound, bottom bound with
  | Some t, Some l, Some r, Some b =>
      let t := Z.max 0 (t - padding) in
      let l := Z.max 0 (l - padding) in
      let r := Z.min (Canvas.width canvas - 1) (r + padding) in
      let b := Z.min (Canvas.height canvas - 1) (b + padding) in
      let trimWidth := r - l + 1 in
      let trimHeight := b - t + 1 in
      let trimmedCanvas := createCanvas trimWidth trimHeight in
      NewCanvas
        (if Canvas.context2d trimmedCanvas
         then drawImageRegion canvas l t trimWidth trimHeight trimmedCanvas
         else trimmedCanvas)
  | _, _, _, _ => SameCanvas
  end.

(** *** [applyMaskToImage] *)

Record Options := mkOptions { trimToContent : bool; padding : Z }.


Definition scaleX (mask : ImageData) (image : Canvas.t) : spec_float :=
  fdiv (of_int (width mask)) (of_int (Canvas.width image)).
Definition scaleY (mask : ImageData) (image : Canvas.t) : spec_float :=
  fdiv (of_int (height mask)) (of_int (Canvas.height image)).

(** [Math.floor(x * scaleX)] and [Math.floor(y * scaleY)]. *)
Definition maskX (mask : ImageData) (image : Canvas.t) (x : Z) : option Z :=
  Math_floor (fmul (of_int x) (scaleX mask image)).
Definition maskY (mask : ImageData) (image : Canvas.t) (y : Z) : option Z :=
  Math_floor (fmul (of_int y) (scaleY mask image)).

(** [(maskY * mask.width + maskX) * 4]; not a finite number when one of the
    coordinates is not. *)
Definition maskIdx (mask : ImageData) (image : Canvas.t) (x y : Z) : option Z :=
  my ← maskY mask image y; mx ← maskX mask image x; Some ((my * width mask + mx) * 4).

(** [mask.data[maskIdx + 3]]. *)
Definition mask_alpha (mask : ImageData) (image : Canvas.t) (x y : Z) : option byte :=
  maskIdx mask image x y ≫= fun i => array_get (data mask) (i + 3).

(** The body of the inner loop. *)
Definition apply_pixel (mask : ImageData) (image : Canvas.t) (y x : Z) (d : list byte)
  : list byte :=
  let imageIdx := (y * Canvas.width image + x) * 4 in
  if strict_eq_zero (mask_alpha mask image x y) then array_set d (imageIdx + 3) x00 else d.

(** The two nested loops over [y] and [x]. *)
Definition apply_mask (mask : ImageData) (image : Canvas.t) (d : list byte) : list byte :=
  foldl (fun d y => foldl (fun d x => apply_pixel mask image y x d) d
                      (seqZ 0 (Canvas.width image)))
    d (seqZ 0 (Canvas.height image)).

(** [imageData] when the two loops have run, before it is put back on the
    canvas: the data read from the canvas on which the image was drawn,
    with the alpha bytes the loops have written. *)
Definition maskedImageData (image : Canvas.t) (mask : ImageData) : ImageData :=
  let canvas := createCanvas (Canvas.width image) (Canvas.height image) in
  let canvas := drawImage image canvas in
  let imageData := getImageData canvas in
  mkImageData (width imageData) (height imageData)
    (apply_mask mask image (data imageData)).

Definition applyMaskToImage (image : Canvas.t) (mask : ImageData) (options : Options)
  : Canvas.t :=
  let canvas := createCanvas (Canvas.width image) (Canvas.height image) in
  if negb (Canvas.context2d canvas) then canvas else
  let canvas := drawImage image canvas in
  let imageData := getImageData canvas in
  let imageData :=
    mkImageData (width imageData) (height imageData)
      (apply_mask mask image (data imageData)) in
  let canvas := putImageData imageData canvas in
  if trimToContent options then
    match trimCanvasToContent canvas (padding options) with
    | SameCanvas => canvas
    | NewCanvas trimmed => trimmed
    end
  else canvas.

(** *** [getMaskBounds] *)

(** The object [getMaskBounds] returns. *)
Module Bounds.
Record t := mk
  { left : Z; top : Z; right : Z; bottom : Z; width : Z; height : Z }.
End Bounds.

(** The body of the inner loop, on [(minX, minY, maxX, maxY)]. *)
Definition bounds_pixel (mask : ImageData) (y : Z) (acc : Z * Z * Z * Z) (x : Z)
  : Z * Z * Z * Z :=
  let '(minX, minY, maxX, maxY) := acc in
  let idx := (y * width mask + x) * 4 in
  if gt_zero (array_get (data mask) (idx + 3))
  then (Z.min minX x, Z.min minY y, Z.max maxX x, Z.max maxY y)
  else acc.

Definition getMaskBounds (mask : ImageData) : option Bounds.t :=
  let '(minX, minY, maxX, maxY) :=
    foldl (fun acc y => foldl (bounds_pixel mask y) acc (seqZ 0 (width mask)))
      (width mask, height mask, -1, -1) (seqZ 0 (height mask)) in
  if maxX =? -1 then None
  else Some (Bounds.mk minX minY maxX maxY (maxX - minX + 1) (maxY - minY + 1)).

(** *** Specification predicates *)

(** The pixel at ([x], [y]) of a [w] by [h] raster lies inside it and its
    alpha byte is not zero. *)
Definition content (w h : Z) (d : list byte) (x y : Z) : Prop :=
  0 <= x < w /\ 0 <= y < h /\
  exists b, array_get d ((y * w + x) * 4 + 3) = Some b /\ b <> x00.

(** [l, t, r, b] is the tight bounding box of the pixels satisfying [P]:
    it contains them all and each of its sides touches one. *)
Definition tight_box (P : Z -> Z -> Prop) (l t r b : Z) : Prop :=
  (forall x y, P x y -> l <= x <= r /\ t <= y <= b) /\
  (exists y, P l y) /\ (exists x, P x t) /\ (exists y, P r y) /\ (exists x, P x b).

(** The invariant of rasters the browser hands out: at least one pixel,
    [data.length = 4 * width * height], and fewer than 2^31 pixels. *)
Definition raster_ok (w h : Z) (d : list byte) : Prop :=
  0 < w /\ 0 < h /\ Z.of_nat (length d) = 4 * w * h /\ w * h < 2 ^ 31.

(** *** Loop invariants *)

(** [getMaskBounds]: the test of the inner loop succeeds at ([x], [y]). *)
Definition bounds_hot (mask : ImageData) (x y : Z) : Prop :=
  gt_zero (array_get (data mask) ((y * width mask + x) * 4 + 3)) = true.

(** [getMaskBounds]: the pixels ([x'], [y']) visited when the outer loop is
    in row [y] and the inner loop is about to visit column [x]. *)
Definition bounds_seen (mask : ImageData) (y x x' y' : Z) : Prop :=
  0 <= x' < width mask /\ 0 <= y' /\ (y' < y \/ (y' = y /\ x' < x)).

(** [getMaskBounds]: the box contains every visited pixel that passed the
    test, and each of its sides still has its initial value or passes
    through such a pixel. *)
Definition bounds_invariant (mask : ImageData) (y x : Z) (acc : Z * Z * Z * Z) : Prop :=
  let '(minX, minY, maxX, maxY) := acc in
  (forall x' y', bounds_seen mask y x x' y' -> bounds_hot mask x' y' ->
     minX <= x' <= maxX /\ minY <= y' <= maxY) /\
  (minX = width mask \/ exists y', bounds_seen mask y x minX y' /\ bounds_hot mask minX y') /\
  (minY = height mask \/ exists x', bounds_seen mask y x x' minY /\ bounds_hot mask x' minY) /\
  (maxX = -1 \/ exists y', bounds_seen mask y x maxX y' /\ bounds_hot mask maxX y') /\
  (maxY = -1 \/ exists x', bounds_seen mask y x x' maxY /\ bounds_hot mask x' maxY).

(** [trimCanvasToContent]: the test of the loop succeeds at pixel number
    [k], that is at [i = 4 * k]. *)
Definition scan_hot (pixels : list byte) (k : Z) : Prop :=
  strict_ne_zero (array_get pixels (4 * k + 3)) = true.

(** [trimCanvasToContent]: when the pixels below number [k] have been
    visited, either none passed the test and [bound] is still empty, or the
    four bounds are set, enclose the pixels that passed and are each
    attained by one of them.  Pixel [K] lies in column [K mod w] of row
    [K / w]. *)
Definition scan_invariant (w : Z) (pixels : list byte) (k : Z) (bound : bound_t) : Prop :=
  (bound = mkBound None None None None /\
   forall K, 0 <= K < k -> ~ scan_hot pixels K) \/
  (exists t l r b,
     bound = mkBound (Some t) (Some l) (Some r) (Some b) /\
     (forall K, 0 <= K < k -> scan_hot pixels K ->
        l <= K mod w <= r /\ t <= K / w <= b) /\
     (exists K, 0 <= K < k /\ scan_hot pixels K /\ K / w = t) /\
     (exists K, 0 <= K < k /\ scan_hot pixels K /\ K mod w = l) /\
     (exists K, 0 <= K < k /\ scan_hot pixels K /\ K mod w = r) /\
     (exists K, 0 <= K < k /\ scan_hot pixels K /\ K / w = b)).

(** The box [trimCanvasToContent] cuts out for content bounds
    [l, t, r, b]: left, top, width, height. *)
Definition padded_box (w h l t r b padding : Z) : Z * Z * Z * Z :=
  let t' := Z.max 0 (t - padding) in
  let l' := Z.max 0 (l - padding) in
  let r' := Z.min (w - 1) (r + padding) in
  let b' := Z.min (h - 1) (b + padding) in
  (l', t', r' - l' + 1, b' - t' + 1).

(** [applyMaskToImage]: byte [J] of the image data has been written when
    the outer loop is in row [y] and the inner loop is about to visit column
    [x], that is, [J] is the alpha byte of a pixel already visited whose mask
    pixel has alpha 0. *)
Definition apply_written (mask : ImageData) (image : Canvas.t) (J y x : Z) : Prop :=
  exists x0 y0,
    0 <= x0 < Canvas.width image /\ 0 <= y0 /\ (y0 < y \/ (y0 = y /\ x0 < x)) /\
    mask_alpha mask image x0 y0 = Some x00 /\
    J = (y0 * Canvas.width image + x0) * 4 + 3.

(** [applyMaskToImage]: the data [d'] reached from [d] has the length of
    [d], holds 0 at [J] if [J] was written and the byte of [d] if not. *)
Definition apply_invariant (mask : ImageData) (image : Canvas.t) (d : list byte)
  (J y x : Z) (d' : list byte) : Prop :=
  length d' = length d /\
  (apply_written mask image J y x -> array_get d' J = Some x00) /\
  (~ apply_written mask image J y x -> array_get d' J = array_get d J).

(** Follows the words of the specification, for comparison with
    [mask_alpha]: the alpha byte of the mask pixel at
    [floor(x * mask.width / image.width)],
    [floor(y * mask.height / image.height)], the floors taken of the exact
    quotients. *)
Definition claimed_alpha (mask : ImageData) (image : Canvas.t) (x y : Z) : option byte :=
  let mx := (x * width mask) / Canvas.width image in
  let my := (y * height mask) / Canvas.height image in
  array_get (data mask) ((my * width mask + mx) * 4 + 3).

(** *** Rasters used as concrete instances *)

(** A 10 by 10 mask that is transparent everywhere, and one whose only
    visible pixel is at (5, 5). *)
Definition transparent_mask : ImageData := mkImageData 10 10 (replicate 400 x00).
Definition single_pixel_mask : ImageData :=
  mkImageData 10 10 (array_set (replicate 400 x00) ((5 * 10 + 5) * 4 + 3) xff).

(** A transparent 10 by 10 canvas. *)
Definition blank_canvas : Canvas.t := Canvas.mk 10 10 (replicate 400 x00) true.

(** A 100 by 100 canvas whose only visible pixels are at (10, 10) and at
    (20, 20): its content bounds are left 10, top 10, right 20, bottom 20. *)
Definition two_dot_canvas : Canvas.t :=
  Canvas.mk 100 100
    (array_set (array_set (replicate (Z.to_nat 40000) x00)
                  ((10 * 100 + 10) * 4 + 3) xff)
       ((20 * 100 + 20) * 4 + 3) xff)
    true.

(** An opaque white image 98 pixels wide and 1 high, and a mask of 2 by 1
    pixels of which the left one is transparent and the right one opaque. *)
Definition wide_image : Canvas.t := Canvas.mk 98 1 (replicate 392 xff) true.
Definition two_pixel_mask : ImageData :=
  mkImageData 2 1 [x00; x00; x00; x00; x00; x00; x00; xff].

(** *** [maskToCanvas] *)

Definition maskToCanvas (mask : ImageData) : Canvas.t :=
  let canvas := createCanvas (width mask) (height mask) in
  if Canvas.context2d canvas then putImageData mask canvas else canvas.

(** [inner] shows the [Canvas.width inner] by [Canvas.height inner] window
    of [outer] whose top-left corner is at ([l], [t]), and the window lies
    inside [outer]. *)
Definition window_of (outer inner : Canvas.t) (l t : Z) : Prop :=
  0 <= l /\ 0 <= t /\ 0 < Canvas.width inner /\ 0 < Canvas.height inner /\
  l + Canvas.width inner <= Canvas.width outer /\
  t + Canvas.height inner <= Canvas.height outer /\
  forall i j c, 0 <= i < Canvas.width inner -> 0 <= j < Canvas.height inner -> 0 <= c < 4 ->
    pixel_byte inner i j c = pixel_byte outer (l + i) (t + j) c.

(** The pixel at ([x], [y]) of a canvas is visible: it lies inside the
    canvas and its alpha byte is not zero. *)
Definition visible (canvas : Canvas.t) (x y : Z) : Prop :=
  content (Canvas.width canvas) (Canvas.height canvas) (Canvas.bitmap canvas) x y.

(** A canvas as the browser keeps it: a bitmap of the canvas's size. *)
Definition canvas_ok (canvas : Canvas.t) : Prop :=
  raster_ok (Canvas.width canvas) (Canvas.height canvas) (Canvas.bitmap canvas).

(** A 3 by 2 mask whose visible pixels are at (1, 0) and (2, 1), and a
    3 by 2 opaque image. *)
Definition small_mask : ImageData :=
  mkImageData 3 2
    [x00; x00; x00; x00;  x10; x20; x30; x80;  x00; x00; x00; x00;
     x00; x00; x00; x00;  x00; x00; x00; x00;  x01; x02; x03; xff].
Definition small_image : Canvas.t :=
  Canvas.mk 3 2
    [x0a; x0b; x0c; xff;  x1a; x1b; x1c; xff;  x2a; x2b; x2c; xff;
     x3a; x3b; x3c; xff;  x4a; x4b; x4c; xff;  x5a; x5b; x5c; xff] true.

(** A 1 by 1 mask whose pixel is opaque. *)
Definition opaque_pixel_mask : ImageData := mkImageData 1 1 [x01; x02; x03; xff].

End MaskUtils.
(** ** The async operation queue *)
Module AsyncQueue.

Section Queue.

(** JavaScript values (results of operations and rejection reasons), and
    [new Error(message)]. *)
Context {value : Type}.
Variable Error : string -> value.

(** How a promise has settled. *)
Inductive settlement :=
  | Fulfilled (v : value)
  | Rejected (e : value).

(** An operation [() => Promise<T>] as the queue meets it: called, it
    either throws at once or returns a promise, which the environment
    settles later.  [name] tells operations apart. *)
Record thunk := mkThunk { name : nat; throws : option value }.

(** [QueueItem]: the operation, and the [resolve] and [reject] functions of
    the promise [enqueue] returned for it, given by that promise's number. *)
Record QueueItem := mkItem { operation : thunk; promise : nat }.

(** The promise of a started operation, awaited by [processQueue]. *)
Inductive awaited :=
  | Pending
  | Settled (s : settlement).

(** The closure state of [createAsyncOperationQueue] ([queue],
    [isProcessing]) together with the part of the run-time state it
    interacts with: [suspended] lists the activations of [processQueue]
    that stand at [await item.operation()], each with its [item];
    [promises] maps the promises returned by [enqueue] that have settled to
    their outcome; [allocated] counts the promises created so far.
    [overlapped] is instrumentation: it is raised when an operation is
    called while the promise of an earlier one is still pending. *)
Record state := mkState {
  queue : list QueueItem;
  isProcessing : bool;
  suspended : list (QueueItem * awaited);
  promises : gmap nat settlement;
  allocated : nat;
  overlapped : bool }.

(** [createAsyncOperationQueue()]: an empty queue, not processing. *)
Definition createAsyncOperationQueue : state := mkState [] false [] ∅ 0 false.

(** The getter [queueLength]. *)
Definition queueLength (st : state) : Z := Z.of_nat (length (queue st)).

Definition set_queue (q : list QueueItem) (st : state) : state :=
  mkState q (isProcessing st) (suspended st) (promises st) (allocated st) (overlapped st).
Definition set_isProcessing (b : bool) (st : state) : state :=
  mkState (queue st) b (suspended st) (promises st) (allocated st) (overlapped st).
Definition set_suspended (fs : list (QueueItem * awaited)) (st : state) : state :=
  mkState (queue st) (isProcessing st) fs (promises st) (allocated st) (overlapped st).
Definition set_promises (ps : gmap nat settlement) (st : state) : state :=
  mkState (queue st) (isProcessing st) (suspended st) ps (allocated st) (overlapped st).
Definition set_allocated (n : nat) (st : state) : state :=
  mkState (queue st) (isProcessing st) (suspended st) (promises st) n (overlapped st).
Definition set_overlapped (b : bool) (st : state) : state :=
  mkState (queue st) (isProcessing st) (suspended st) (promises st) (allocated st) b.

(** Settling a promise: only the first settlement counts. *)
Definition settle (p : nat) (s : settlement) (st : state) : state :=
  match promises st !! p with
  | Some _ => st
  | None => set_promises (<[p := s]> (promises st)) st
  end.

(** The instrumented counter: operations that were started and whose
    promise has not settled. *)
Definition is_pending (f : QueueItem * awaited) : bool :=
  match snd f with Pending => true | Settled _ => false end.
Definition active (st : state) : nat :=
  length (List.filter is_pending (suspended st)).

(** Instrumentation of the call [item.operation()]. *)
Definition note_call (st : state) : state :=
  if existsb is_pending (suspended st) then set_overlapped true st else st.

(** [item.resolve(v)] and [item.reject(e)]. *)
Definition resolve (item : QueueItem) (v : value) : state -> state :=
  settle (promise item) (Fulfilled v).
Definition reject (item : QueueItem) (e : value) : state -> state :=
  settle (promise item) (Rejected e).

(** [while (queue.length > 0) queue.shift()!.reject(new Error(message))]:
    the loop of [enqueue] and of [clear]. *)
Definition reject_pending (message : string) (st : state) : state :=
  set_queue [] (foldl (fun st item => reject item (Error message) st) st (queue st)).

(** The [while] loop of [processQueue], from its test up to the next
    [await] or to the end of the function.  [q] is the queue.  An operation
    that throws is caught by the [catch] and the loop goes on; one that
    returns a promise suspends the activation. *)
Fixpoint process_loop (q : list QueueItem) (st : state) : state :=
  match q with
  | [] => set_isProcessing false (set_queue [] st)
  | item :: q' =>
      let st := note_call st in
      match throws (operation item) with
      | Some error => process_loop q' (reject item error st)
      | None => set_suspended (suspended st ++ [(item, Pending)]) (set_queue q' st)
      end
  end.

(** [processQueue()], up to its first [await] or its end. *)
Definition processQueue (st : state) : state :=
  if isProcessing st || bool_decide (queue st = [])
  then st
  else process_loop (queue st) (set_isProcessing true st).

(** [enqueue(operation)]: the state after the call and the promise it
    returns. *)
Definition enqueue (op : thunk) (st : state) : state * nat :=
  let p := allocated st in
  let st := set_allocated (S p) st in
  let st := reject_pending "Operation cancelled by newer request" st in
  let st := set_queue (queue st ++ [mkItem op p]) st in
  (processQueue st, p).

(** [clear()]. *)
Definition clear (st : state) : state := reject_pending "Queue cleared" st.

(** The state of the activation that awaits the operation of promise [p]. *)
Fixpoint find_suspended (p : nat) (fs : list (QueueItem * awaited))
  : option (QueueItem * awaited) :=
  match fs with
  | [] => None
  | f :: fs' => if bool_decide (promise (fst f) = p) then Some f else find_suspended p fs'
  end.

Fixpoint remove_suspended (p : nat) (fs : list (QueueItem * awaited))
  : list (QueueItem * awaited) :=
  match fs with
  | [] => []
  | f :: fs' =>
      if bool_decide (promise (fst f) = p) then fs' else f :: remove_suspended p fs'
  end.

Fixpoint mark_settled (p : nat) (s : settlement) (fs : list (QueueItem * awaited))
  : list (QueueItem * awaited) :=
  match fs with
  | [] => []
  | f :: fs' =>
      if bool_decide (promise (fst f) = p) then (fst f, Settled s) :: fs'
      else f :: mark_settled p s fs'
  end.

(** The activation of [processQueue] goes on after its [await]: the [try]
    ends with [item.resolve(result)], or the [catch] runs
    [item.reject(error)], and the loop continues. *)
Definition resume (item : QueueItem) (s : settlement) (st : state) : state :=
  let st := set_suspended (remove_suspended (promise item) (suspended st)) st in
  let st := match s with
            | Fulfilled result => resolve item result st
            | Rejected error => reject item error st
            end in
  process_loop (queue st) st.

(** What can happen to a queue, one run-to-completion step at a time:
    a client calls [enqueue] or [clear]; the promise returned by the running
    operation of promise [p] settles; the job that resumes [processQueue]
    after that settlement runs. *)
Inductive event :=
  | Enqueue (op : thunk)
  | Clear
  | ThunkSettles (p : nat) (s : settlement)
  | Resume (p : nat).

Definition step (st : state) (ev : event) : option state :=
  match ev with
  | Enqueue op => Some (fst (enqueue op st))
  | Clear => Some (clear st)
  | ThunkSettles p s =>
      match find_suspended p (suspended st) with
      | Some (_, Pending) => Some (set_suspended (mark_settled p s (suspended st)) st)
      | _ => None
      end
  | Resume p =>
      match find_suspended p (suspended st) with
      | Some (item, Settled s) => Some (resume item s st)
      | _ => None
      end
  end.

Fixpoint run (st : state) (evs : list event) : option state :=
  match evs with
  | [] => Some st
  | ev :: evs' =>
      match step st ev with
      | Some st' => run st' evs'
      | None => None
      end
  end.

Definition reachable (st : state) : Prop :=
  exists evs, run createAsyncOperationQueue evs = Some st.

(** The promises held by queued items and by suspended activations. *)
Definition held (st : state) : list nat :=
  (promise <$> queue st) ++ ((fun f => promise (fst f)) <$> suspended st).

(** The invariant of reachable states. *)
Definition invariant (st : state) : Prop :=
  (length (queue st) <= 1)%nat /\
  (isProcessing st = false -> suspended st = [] /\ queue st = []) /\
  (isProcessing st = true -> length (suspended st) = 1%nat) /\
  NoDup (held st) /\
  (forall p, p ∈ held st -> (p < allocated st)%nat /\ promises st !! p = None) /\
  (forall p s, promises st !! p = Some s -> (p < allocated st)%nat) /\
  overlapped st = false.

(** Every promise [enqueue] has returned and that has not settled is held
    by an item. *)
Definition owned (st : state) : Prop :=
  forall p, (p < allocated st)%nat -> promises st !! p = None -> p ∈ held st.

End Queue.

Arguments settlement : clear implicits.
Arguments thunk : clear implicits.
Arguments QueueItem : clear implicits.
Arguments awaited : clear implicits.
Arguments state : clear implicits.
Arguments event : clear implicits.

(** A concrete type of values for running the queue: strings, and error
    objects identified by their message. *)
Inductive js_value :=
  | JsString (s : string)
  | JsError (message : string).

(** The calls of [test-async-queue.js]: four operations enqueued one after
    the other without awaiting; operation [i] resolves later with
    ["Result i"]. *)
Definition test_operation (i : nat) : thunk js_value := mkThunk i None.
Definition test_calls : list (event js_value) :=
  [Enqueue (test_operation 1); Enqueue (test_operation 2);
   Enqueue (test_operation 3); Enqueue (test_operation 4)].
Definition test_settlements : list (event js_value) :=
  [ThunkSettles 0 (Fulfilled (JsString "Result 1")); Resume 0;
   ThunkSettles 3 (Fulfilled (JsString "Result 4")); Resume 3].

(** States used as concrete instances: operation 1 running with operation 2
    queued behind it, and the same once operation 1 has failed and
    [processQueue] has not resumed yet. *)
Definition busy_state : state js_value :=
  mkState [mkItem (test_operation 2) 1] true
    [(mkItem (test_operation 1) 0, Pending)] ∅ 2 false.
Definition failed_state : state js_value :=
  mkState [mkItem (test_operation 2) 1] true
    [(mkItem (test_operation 1) 0, Settled (Rejected (JsString "session lost")))] ∅ 2 false.

End AsyncQueue.


(** ** The segmenter component: mask colour and overlay *)
Module Segmenter.
Import Stdlib.Strings.Ascii MaskUtils.

(** Strings are sequences of code units; the ones that matter to
    [hexToRgb] (["#"], digits, letters) are below 128, and every other code
    unit is treated like any character that is not a hexadecimal digit. *)

Definition code (c : ascii) : Z := Z.of_N (N_of_ascii c).

(** The character class [[a-f\d]] under the flag [i]. *)
Definition is_hex_digit (c : ascii) : bool :=
  ((48 <=? code c) && (code c <=? 57)) ||
  ((97 <=? code c) && (code c <=? 102)) ||
  ((65 <=? code c) && (code c <=? 70)).

(** The value of a digit in radix 16. *)
Definition digit_value (c : ascii) : Z :=
  if (48 <=? code c) && (code c <=? 57) then code c - 48
  else if (97 <=? code c) && (code c <=? 102) then code c - 87
  else code c - 55.

(** [/^#?([a-f\d]{2})([a-f\d]{2})([a-f\d]{2})$/i.exec(hex)]: the three
    groups captured, or [None] for [null].  The optional ["#"] is taken
    when it is there, as no group can start with it. *)
Definition hex_pattern_exec (hex : string) : option (string * string * string) :=
  let body := match hex with String "#" rest => rest | _ => hex end in
  match body with
  | String c1 (String c2 (String c3 (String c4 (String c5 (String c6 EmptyString))))) =>
      if forallb is_hex_digit [c1; c2; c3; c4; c5; c6]
      then Some (String c1 (String c2 EmptyString),
                 String c3 (String c4 EmptyString),
                 String c5 (String c6 EmptyString))
      else None
  | _ => None
  end.

(** White space as [parseInt] skips it, among the code units below 256. *)
Definition is_white_space (c : ascii) : bool :=
  ((9 <=? code c) && (code c <=? 13)) || (code c =? 32) || (code c =? 160).

Fixpoint skip_white_space (s : string) : string :=
  match s with
  | String c rest => if is_white_space c then skip_white_space rest else s
  | EmptyString => s
  end.

(** The digits at the front of [s], read in radix 16 from the value [acc]
    on; the second component tells whether there was a digit. *)
Fixpoint read_digits (s : string) (acc : Z) (any : bool) : Z * bool :=
  match s with
  | String c rest =>
      if is_hex_digit c then read_digits rest (16 * acc + digit_value c) true
      else (acc, any)
  | EmptyString => (acc, any)
  end.

(** [parseInt(s, 16)]: white space is skipped, then a sign and a prefix
    [0x] or [0X] are read, then the longest run of digits; [None] is [NaN].
    The result is the integer read, which is the number returned as long
    as it is below 2^53. *)
Definition parseInt16 (s : string) : option Z :=
  let s := skip_white_space s in
  let '(sign, s) :=
    match s with
    | String "-" rest => (-1, rest)
    | String "+" rest => (1, rest)
    | _ => (1, s)
    end in
  let s :=
    match s with
    | String "0" (String "x" rest) => rest
    | String "0" (String "X" rest) => rest
    | _ => s
    end in
  let '(n, any) := read_digits s 0 false in
  if any then Some (sign * n) else None.

(** The object [{ r, g, b }]; a component is [None] when it is [NaN]. *)
Record Rgb := mkRgb { r : option Z; g : option Z; b : option Z }.

Definition hexToRgb (hex : string) : Rgb :=
  match hex_pattern_exec hex with
  | Some (g1, g2, g3) => mkRgb (parseInt16 g1) (parseInt16 g2) (parseInt16 g3)
  | None => mkRgb (Some 99) (Some 102) (Some 241)
  end.

(** Storing a number in a [Uint8ClampedArray]: [NaN] becomes 0 and an
    integer is clamped to 0..255. *)
Definition to_uint8_clamp (v : option Z) : byte :=
  match v with
  | Some n => default x00 (Byte.of_N (Z.to_N (Z.min 255 (Z.max 0 n))))
  | None => x00
  end.

(** [ctx.createImageData(w, h)] for positive [w] and [h]: transparent
    black. *)
Definition createImageData (w h : Z) : ImageData :=
  mkImageData w h (replicate (Z.to_nat (4 * w * h)) x00).

(** The body of the loop that converts the mask to a coloured overlay:
    [alpha = maskData.data[i + 3]], and where [alpha > 0] the pixel gets the
    colour and the mask's alpha. *)
Definition overlay_pixel (maskData : ImageData) (color : Rgb) (d : list byte) (i : Z)
  : list byte :=
  let alpha := array_get (data maskData) (i + 3) in
  if gt_zero alpha then
    let d := array_set d i (to_uint8_clamp (r color)) in
    let d := array_set d (i + 1) (to_uint8_clamp (g color)) in
    let d := array_set d (i + 2) (to_uint8_clamp (b color)) in
    match alpha with Some a => array_set d (i + 3) a | None => d end
  else d.

(** The overlay drawn on the mask canvas after a segmentation: the image
    data created for it, once the loop
    [for (let i = 0; i < maskData.data.length; i += 4)] has run. *)
Definition colored_overlay (maskData : ImageData) (maskColor : string) : ImageData :=
  let imageData := createImageData (width maskData) (height maskData) in
  let color := hexToRgb maskColor in
  mkImageData (width imageData) (height imageData)
    (foldl (overlay_pixel maskData color) (data imageData)
       (scan_indices (Z.of_nat (length (data maskData))))).

(** *** Specification side: writing a colour in hexadecimal *)

(** The digit of [n] (0 to 15), in lower or in upper case. *)
Definition hex_digit (upper : bool) (n : Z) : ascii :=
  ascii_of_N (Z.to_N (if n <? 10 then 48 + n else if upper then 55 + n else 87 + n)).

(** The two digits of a byte, and the six of a colour. *)
Definition hex_byte (upper : bool) (n : Z) : string :=
  String (hex_digit upper (n / 16)) (String (hex_digit upper (n mod 16)) EmptyString).
Definition hex_colour (upper : bool) (r g b : Z) : string :=
  (hex_byte upper r ++ hex_byte upper g ++ hex_byte upper b)%string.

(** Six characters, as a string. *)
Definition six (c1 c2 c3 c4 c5 c6 : ascii) : string :=
  String c1 (String c2 (String c3 (String c4 (String c5 (String c6 EmptyString))))).

(** All 256 characters, for properties checked character by character. *)
Definition all_ascii : list ascii := (fun n => ascii_of_nat n) <$> seq 0 256.

Definition option_Z_eqb (a b : option Z) : bool :=
  match a, b with
  | Some x, Some y => x =? y
  | None, None => true
  | _, _ => false
  end.

End Segmenter.

(** ** The hook [useMiniSam]: extracting the masked image *)
Module UseMiniSam.
Import Float64 MaskUtils.



End UseMiniSam.
(** ** Facts about binary64 arithmetic

    The Standard Library specifies the operations but proves nothing about
    their rounding.  What the pixel loops need is derived here from the
    definitions: how [shr] keeps track of the discarded bits, what
    [binary_round_aux] returns on a significand of at least 53 bits, and
    from there the two facts used below, [floor_fdiv_int] and
    [floor_scale_lt]. *)
Module Float64Facts.
Import Float64.

Lemma div_mod_double N D :
  0 <= N -> 0 < D ->
  N / (2 * D) = (N / D) / 2 /\
  N mod (2 * D) = ((N / D) mod 2) * D + N mod D.
Proof.
  intros HN HD.
  pose proof (Z.div_mod N D ltac:(lia)) as E1.
  pose proof (Z.mod_pos_bound N D HD) as B1.
  pose proof (Z.div_mod (N / D) 2 ltac:(lia)) as E2.
  pose proof (Z.mod_pos_bound (N / D) 2 ltac:(lia)) as B2.
  assert (E : N = (2 * D) * (N / D / 2) + ((N / D) mod 2 * D + N mod D)) by nia.
  assert (B : 0 <= (N / D) mod 2 * D + N mod D < 2 * D) by nia.
  split.
  - symmetry. eapply Z.div_unique_pos; eauto.
  - symmetry. eapply Z.mod_unique_pos; eauto.
Qed.

Lemma shr_1_ok mrs N D :
  0 <= N -> 0 < D -> loc_ok mrs N D -> loc_ok (shr_1 mrs) N (2 * D).
Proof.
  intros HN HD (Hm & Hr & Hs).
  destruct (div_mod_double N D HN HD) as [Eq Er].
  pose proof (Z.mod_pos_bound N D HD) as B1.
  pose proof (Z.div_pos N D HN HD) as Q0.
  unfold loc_ok. rewrite Eq, Er, <- Hm.
  destruct mrs as [m r s]; cbn [shr_m shr_r shr_s] in *.
  assert (Hrs : r || s = true <-> N mod D <> 0).
  { destruct (Z_le_gt_dec D (2 * (N mod D))), (Z.eq_dec (N mod D) 0),
      (Z.eq_dec (2 * (N mod D)) D); destruct r, s; simpl;
      intuition (try discriminate; try lia). }
  clear Hr Hs.
  assert (Hb : m = 2 * (m / 2) + m mod 2 /\ 0 <= m mod 2 < 2).
  { split; [apply Z.div_mod; lia | apply Z.mod_pos_bound; lia]. }
  destruct m as [|[p|p|]|p]; cbn [shr_1 shr_m shr_r shr_s orb]; try lia.
  - change (0 / 2) with 0. change (0 mod 2) with 0.
    intuition (try discriminate; try lia).
  - assert (Z.pos p~1 / 2 = Z.pos p /\ Z.pos p~1 mod 2 = 1) as [-> ->].
    { rewrite Pos2Z.inj_xI in *. lia. }
    intuition (try discriminate; try lia).
  - assert (Z.pos p~0 / 2 = Z.pos p /\ Z.pos p~0 mod 2 = 0) as [-> ->].
    { rewrite Pos2Z.inj_xO in *. lia. }
    intuition (try discriminate; try lia).
  - change (1 / 2) with 0. change (1 mod 2) with 1.
    intuition (try discriminate; try lia).
Qed.

Lemma iter_pos_shr_1_ok p : forall mrs N D,
  0 <= N -> 0 < D -> loc_ok mrs N D ->
  loc_ok (SpecFloat.iter_pos shr_1 p mrs) N (2 ^ Z.pos p * D).
Proof.
  induction p as [p IH|p IH|]; intros mrs N D HN HD H; cbn [SpecFloat.iter_pos].
  - replace (2 ^ Z.pos p~1 * D) with (2 ^ Z.pos p * (2 ^ Z.pos p * (2 * D))).
    2:{ replace (Z.pos p~1) with (Z.pos p + Z.pos p + 1) by lia.
        rewrite !Z.pow_add_r by lia. change (2 ^ 1) with 2. ring. }
    assert (0 < 2 ^ Z.pos p) by (apply Z.pow_pos_nonneg; lia).
    apply IH; try lia. apply IH; try lia. apply shr_1_ok; auto.
  - replace (2 ^ Z.pos p~0 * D) with (2 ^ Z.pos p * (2 ^ Z.pos p * D)).
    2:{ replace (Z.pos p~0) with (Z.pos p + Z.pos p) by lia.
        rewrite Z.pow_add_r by lia. ring. }
    assert (0 < 2 ^ Z.pos p) by (apply Z.pow_pos_nonneg; lia).
    apply IH; try lia. apply IH; try lia. auto.
  - change (2 ^ 1) with 2. apply shr_1_ok; auto.
Qed.

Lemma digits2_pos_bounds p :
  2 ^ (Z.pos (digits2_pos p) - 1) <= Z.pos p < 2 ^ Z.pos (digits2_pos p).
Proof.
  induction p as [p IH|p IH|]; cbn [digits2_pos].
  - rewrite Pos2Z.inj_succ. replace (Z.succ (Z.pos (digits2_pos p)) - 1) with (Z.succ (Z.pos (digits2_pos p) - 1)) by lia.
    rewrite !Z.pow_succ_r by lia. lia.
  - rewrite Pos2Z.inj_succ. replace (Z.succ (Z.pos (digits2_pos p)) - 1) with (Z.succ (Z.pos (digits2_pos p) - 1)) by lia.
    rewrite !Z.pow_succ_r by lia. lia.
  - cbn. lia.
Qed.

Lemma Zdigits2_unique m d :
  0 < d -> 2 ^ (d - 1) <= m < 2 ^ d -> Zdigits2 m = d.
Proof.
  intros Hd [Hlo Hhi].
  assert (0 < m) by (pose proof (Z.pow_pos_nonneg 2 (d - 1)); lia).
  destruct m as [|p|p]; try lia. cbn [Zdigits2].
  pose proof (digits2_pos_bounds p) as [Blo Bhi].
  set (d' := Z.pos (digits2_pos p)) in *.
  destruct (Z.lt_trichotomy d' d) as [L|[E|G]]; auto; exfalso.
  - assert (2 ^ d' <= 2 ^ (d - 1)) by (apply Z.pow_le_mono_r; lia). lia.
  - assert (2 ^ d <= 2 ^ (d' - 1)) by (apply Z.pow_le_mono_r; lia). lia.
Qed.

Lemma Zdigits2_bounds m :
  0 < m -> 2 ^ (Zdigits2 m - 1) <= m < 2 ^ Zdigits2 m /\ 0 < Zdigits2 m.
Proof.
  destruct m as [|p|p]; try lia. intros _. cbn [Zdigits2].
  split; [apply digits2_pos_bounds | lia].
Qed.

Lemma shr_ok mrs e n N D :
  0 <= N -> 0 < D -> 0 <= n -> loc_ok mrs N D ->
  exists mrs', shr mrs e n = (mrs', e + n) /\ loc_ok mrs' N (2 ^ n * D).
Proof.
  intros HN HD Hn H. destruct n as [|p|p]; try lia.
  - exists mrs. cbn [shr]. rewrite Z.add_0_r. split; auto.
    change (2 ^ 0) with 1. now rewrite Z.mul_1_l.
  - exists (SpecFloat.iter_pos shr_1 p mrs). split; auto.
    now apply iter_pos_shr_1_ok.
Qed.

Lemma shr_fexp_normal m e l n :
  Zdigits2 m = n + 53 -> -1074 <= n + e ->
  shr_fexp 53 1024 m e l = shr (shr_record_of_loc m l) e n.
Proof.
  intros Hd He. unfold shr_fexp. f_equal.
  rewrite Hd. unfold fexp, emin. lia.
Qed.

Lemma round_nearest_even_cases mrs N T :
  0 < T -> loc_ok mrs N T ->
  let m2 := round_nearest_even (shr_m mrs) (loc_of_shr_record mrs) in
  (m2 = N / T /\ 2 * (N mod T) <= T) \/ (m2 = N / T + 1 /\ T <= 2 * (N mod T)).
Proof.
  intros HT (Hm & Hr & Hs). destruct mrs as [m r s]. cbn [shr_m shr_r shr_s] in *.
  pose proof (Z.mod_pos_bound N T HT).
  destruct (Z_le_gt_dec T (2 * (N mod T))), (Z.eq_dec (N mod T) 0),
    (Z.eq_dec (2 * (N mod T)) T); destruct r, s;
    cbn [round_nearest_even loc_of_shr_record];
    try destruct (Z.even m); intuition (try discriminate; try lia).
Qed.

Lemma binary_round_aux_spec m e l N D :
  0 < D -> 0 <= N ->
  loc_ok (shr_record_of_loc m l) N D ->
  2 ^ 52 <= m ->
  -1074 <= Zdigits2 m + e - 53 -> Zdigits2 m + e - 53 + 1 <= 971 ->
  let n := Zdigits2 m - 53 in
  let T := 2 ^ n * D in
  exists mr k,
    binary_round_aux 53 1024 false m e l = S754_finite false mr (e + k) /\
    n <= k <= n + 1 /\ 2 ^ 52 <= Z.pos mr < 2 ^ 53 /\
    0 <= n /\ 2 ^ 52 <= N / T < 2 ^ 53 /\
    let R := Z.pos mr * 2 ^ (k - n) in
    (R = N / T /\ 2 * (N mod T) <= T) \/ (R = N / T + 1 /\ T <= 2 * (N mod T)).
Proof.
  intros HD HN Hloc Hm Hlo Hhi n T.
  assert (0 < m) by lia.
  destruct (Zdigits2_bounds m H) as [[Dlo Dhi] Dpos].
  assert (Hn : 0 <= n).
  { subst n. destruct (Z_lt_le_dec (Zdigits2 m) 53); try lia.
    assert (2 ^ Zdigits2 m <= 2 ^ 52) by (apply Z.pow_le_mono_r; lia). lia. }
  assert (HT : 0 < T) by (subst T; pose proof (Z.pow_pos_nonneg 2 n); nia).
  unfold binary_round_aux.
  rewrite (shr_fexp_normal m e l n) by (subst n; lia).
  destruct (shr_ok _ e n N D HN HD Hn Hloc) as (mrs' & -> & Hloc').
  fold T in Hloc'.
  pose proof (round_nearest_even_cases mrs' N T HT Hloc') as Hround.
  cbv zeta in Hround.
  set (m2 := round_nearest_even (shr_m mrs') (loc_of_shr_record mrs')) in *.
  assert (Hm1 : 2 ^ 52 <= N / T < 2 ^ 53).
  { destruct Hloc as (Hm0 & _). destruct l as [|[]]; cbn [shr_record_of_loc shr_m] in Hm0;
      subst T; rewrite Z.mul_comm, <- Z.div_div by (try lia; apply Z.pow_pos_nonneg; lia);
      rewrite <- Hm0;
      (split; [apply Z.div_le_lower_bound; [apply Z.pow_pos_nonneg; lia|];
               rewrite <- Z.pow_add_r by lia; replace (n + 52) with (Zdigits2 m - 1) by (subst n; lia); lia
              | apply Z.div_lt_upper_bound; [apply Z.pow_pos_nonneg; lia|];
               rewrite <- Z.pow_add_r by lia; replace (n + 53) with (Zdigits2 m) by (subst n; lia); lia]). }
  destruct (Z.eq_dec m2 (2 ^ 53)) as [Eov|Nov].
  - (* the rounded mantissa needs one more digit *)
    rewrite (shr_fexp_normal m2 (e + n) loc_Exact 1).
    2:{ apply Zdigits2_unique; [lia|]. rewrite Eov. split; [reflexivity | ]. reflexivity. }
    2:{ subst n. lia. }
    rewrite Eov. cbn [shr_record_of_loc shr SpecFloat.iter_pos shr_1 shr_m].
    change (2 ^ 53) with 9007199254740992 in *. cbn [shr_1 shr_m].
    replace (e + n + 1 <=? 1024 - 53) with true by (symmetry; apply Z.leb_le; subst n; lia).
    eexists _, (n + 1). split; [rewrite Z.add_assoc; reflexivity|].
    split; [lia|]. split; [cbn; lia|]. split; [lia|]. split; [lia|].
    replace (n + 1 - n) with 1 by lia. change (2 ^ 1) with 2.
    cbv zeta. change (4503599627370496 * 2) with 9007199254740992.
    rewrite <- Eov. exact Hround.
  - rewrite (shr_fexp_normal m2 (e + n) loc_Exact 0).
    2:{ apply Zdigits2_unique; [lia|]. change (0 + 53 - 1) with 52. change (0 + 53) with 53. lia. }
    2:{ subst n. lia. }
    cbn [shr_record_of_loc shr shr_m].
    destruct m2 as [|p2|p2]; try lia.
    replace (e + n <=? 1024 - 53) with true by (symmetry; apply Z.leb_le; subst n; lia).
    exists p2, n. split; [reflexivity|]. split; [lia|]. split; [lia|].
    split; [lia|]. split; [lia|].
    cbv zeta. replace (n - n) with 0 by lia. change (2 ^ 0) with 1. rewrite Z.mul_1_r. exact Hround.
Qed.

Lemma of_int_pos n :
  0 < n < 2 ^ 53 ->
  exists m e, of_int n = S754_finite false m e /\ normal53 m /\
              -52 <= e <= 0 /\ Z.pos m = n * 2 ^ (- e) /\ n < 2 ^ (e + 53).
Proof.
  intros [Hlo Hhi]. destruct n as [|p|p]; try lia.
  destruct (Zdigits2_bounds (Z.pos p) Hlo) as [[Dlo Dhi] Dpos].
  cbn [Zdigits2] in *. set (d := Z.pos (digits2_pos p)) in *.
  assert (Hd : d <= 53).
  { destruct (Z_le_gt_dec d 53); auto.
    assert (2 ^ 53 <= 2 ^ (d - 1)) by (apply Z.pow_le_mono_r; lia). lia. }
  unfold of_int, binary_normalize, binary_round.
  replace (fexp 53 1024 (Z.pos (digits2_pos p) + 0)) with (d - 53)
    by (unfold fexp, emin; fold d; lia).
  assert (Hal : exists mz, shl_align p 0 (d - 53) = (mz, d - 53) /\
                           Z.pos mz = Z.pos p * 2 ^ (53 - d)).
  { unfold shl_align. rewrite Z.sub_0_r.
    destruct (d - 53) as [|q|q] eqn:E; try lia.
    - exists p. replace (53 - d) with 0 by lia. split; [reflexivity | lia].
    - exists (Pos.iter xO p q). split; [reflexivity|].
      change (Pos.iter xO p q) with (shift_pos q p). rewrite shift_pos_correct.
      replace (53 - d) with (Z.pos q) by lia. change (Z.pow_pos 2 q) with (2 ^ Z.pos q). ring. }
  destruct Hal as (mz & -> & Hmz).
  assert (Hn53 : 2 ^ 52 <= Z.pos mz < 2 ^ 53).
  { rewrite Hmz. split.
    - replace 52 with ((d - 1) + (53 - d)) by lia. rewrite Z.pow_add_r by lia.
      apply Z.mul_le_mono_nonneg_r; [apply Z.pow_nonneg; lia | lia].
    - replace 53 with (d + (53 - d)) at 2 by lia. rewrite Z.pow_add_r by lia.
      apply Z.mul_lt_mono_pos_r; [apply Z.pow_pos_nonneg; lia | lia]. }
  assert (Hdig : Zdigits2 (Z.pos mz) = 53) by (apply Zdigits2_unique; [lia | exact Hn53]).
  destruct (binary_round_aux_spec (Z.pos mz) (d - 53) loc_Exact (Z.pos mz) 1)
    as (mr & k & Heq & Hk & Hmr & _ & _ & HR); try lia.
  { unfold loc_ok. cbn [shr_record_of_loc shr_m shr_r shr_s].
    rewrite Z.div_1_r, Z.mod_1_r. intuition (try discriminate; try lia). }
  rewrite Hdig in *. replace (53 - 53) with 0 in * by lia.
  cbv zeta in HR. change (2 ^ 0 * 1) with 1 in HR. rewrite Z.div_1_r, Z.mod_1_r in HR.
  assert (k = 0).
  { destruct (Z.eq_dec k 0); auto. replace k with 1 in * by lia.
    change (2 ^ (1 - 0)) with 2 in HR. lia. }
  subst k. change (2 ^ (0 - 0)) with 1 in HR. rewrite Z.add_0_r in Heq.
  exists mr, (d - 53). split; [exact Heq|]. unfold normal53.
  replace (- (d - 53)) with (53 - d) by lia.
  replace (d - 53 + 53) with d by lia. repeat split; try lia.
Qed.

Lemma of_int_0 : of_int 0 = S754_zero false.
Proof. reflexivity. Qed.

Lemma new_location_ok N D :
  0 <= N -> 0 < D ->
  loc_ok (shr_record_of_loc (N / D) (new_location D (N mod D))) N D.
Proof.
  intros HN HD. pose proof (Z.mod_pos_bound N D HD) as B.
  unfold loc_ok, new_location, new_location_even, new_location_odd.
  destruct (Z.even D) eqn:Ev.
  - destruct (Z.eqb_spec (N mod D) 0) as [E|E].
    + cbn [shr_record_of_loc shr_m shr_r shr_s]. intuition (try discriminate; try lia).
    + destruct (Z.compare_spec (2 * (N mod D)) D);
        cbn [shr_record_of_loc shr_m shr_r shr_s]; intuition (try discriminate; try lia).
  - assert (Hodd : forall k, D <> 2 * k).
    { intros k ->. rewrite Z.even_mul in Ev. discriminate. }
    pose proof (Hodd (N mod D)).
    destruct (Z.eqb_spec (N mod D) 0) as [E|E].
    + cbn [shr_record_of_loc shr_m shr_r shr_s]. intuition (try discriminate; try lia).
    + destruct (Z.compare_spec (2 * (N mod D) + 1) D);
        cbn [shr_record_of_loc shr_m shr_r shr_s]; intuition (try discriminate; try lia).
Qed.

Lemma div_eucl_eq a b : Z.div_eucl a b = (a / b, a mod b).
Proof. unfold Z.div, Z.modulo. now destruct (Z.div_eucl a b). Qed.

Lemma normal53_digits m : normal53 m -> Zdigits2 (Z.pos m) = 53.
Proof. intros H. apply Zdigits2_unique; [lia | exact H]. Qed.

Lemma SFdiv_core_normal mx ex my ey :
  normal53 mx -> normal53 my -> -1074 <= ex - ey - 53 ->
  SFdiv_core_binary 53 1024 (Z.pos mx) ex (Z.pos my) ey =
    (Z.pos mx * 2 ^ 53 / Z.pos my, ex - ey - 53,
     new_location (Z.pos my) ((Z.pos mx * 2 ^ 53) mod Z.pos my)).
Proof.
  intros Hx Hy He. unfold SFdiv_core_binary.
  rewrite (normal53_digits mx Hx), (normal53_digits my Hy).
  replace (Z.min (fexp 53 1024 (53 + ex - (53 + ey))) (ex - ey)) with (ex - ey - 53)
    by (unfold fexp, emin; lia).
  replace (ex - ey - (ex - ey - 53)) with 53 by lia.
  rewrite Z.shiftl_mul_pow2 by lia.
  now rewrite div_eucl_eq.
Qed.

(** Raw description of a quotient of two normal doubles: the significand of
    the result is the integer quotient, shifted to 53 bits and rounded to
    nearest. *)
Lemma fdiv_spec mx ex my ey :
  normal53 mx -> normal53 my ->
  -1074 <= ex - ey - 53 -> ex - ey - 53 + 2 <= 971 ->
  let N := Z.pos mx * 2 ^ 53 in
  let D := Z.pos my in
  exists mr k n,
    fdiv (S754_finite false mx ex) (S754_finite false my ey)
      = S754_finite false mr (ex - ey - 53 + k) /\
    0 <= n <= 1 /\ n <= k <= n + 1 /\ normal53 mr /\
    2 ^ 52 <= N / (2 ^ n * D) < 2 ^ 53 /\
    let T := 2 ^ n * D in
    let R := Z.pos mr * 2 ^ (k - n) in
    (R = N / T /\ 2 * (N mod T) <= T) \/ (R = N / T + 1 /\ T <= 2 * (N mod T)).
Proof.
  intros Hx Hy Hlo Hhi N D.
  unfold fdiv, SFdiv. rewrite SFdiv_core_normal by assumption. fold N D.
  cbn [xorb].
  assert (HD : 0 < D) by (subst D; lia).
  assert (HN : 0 <= N) by (subst N; lia).
  assert (Hq : 2 ^ 52 <= N / D < 2 ^ 54).
  { unfold normal53 in *. split.
    - apply Z.div_le_lower_bound; [lia|]. subst N D.
      change (2 ^ 53) with (2 * 2 ^ 52) in *. nia.
    - apply Z.div_lt_upper_bound; [lia|]. subst N D.
      change (2 ^ 54) with (2 * 2 ^ 53). nia. }
  assert (Hdq : 53 <= Zdigits2 (N / D) <= 54).
  { destruct (Z_lt_le_dec (N / D) (2 ^ 53)).
    - rewrite (Zdigits2_unique (N / D) 53); lia.
    - rewrite (Zdigits2_unique (N / D) 54); lia. }
  destruct (binary_round_aux_spec (N / D) (ex - ey - 53) (new_location D (N mod D)) N D)
    as (mr & k & Heq & Hk & Hmr & Hn & HNT & HR); try lia.
  { now apply new_location_ok. }
  exists mr, k, (Zdigits2 (N / D) - 53).
  split; [exact Heq|]. split; [lia|]. split; [lia|]. split; [exact Hmr|].
  split; [exact HNT|]. exact HR.
Qed.

Lemma fmul_spec mx ex my ey :
  normal53 mx -> normal53 my ->
  -1074 <= ex + ey + 52 -> ex + ey + 54 <= 971 ->
  let M := Z.pos mx * Z.pos my in
  exists mr k n,
    fmul (S754_finite false mx ex) (S754_finite false my ey)
      = S754_finite false mr (ex + ey + k) /\
    52 <= n <= 53 /\ n <= k <= n + 1 /\ normal53 mr /\
    2 ^ 52 <= M / 2 ^ n < 2 ^ 53 /\
    let T := 2 ^ n in
    let R := Z.pos mr * 2 ^ (k - n) in
    (R = M / T /\ 2 * (M mod T) <= T) \/ (R = M / T + 1 /\ T <= 2 * (M mod T)).
Proof.
  intros Hx Hy Hlo Hhi M.
  unfold fmul, SFmul. cbn [xorb]. rewrite Pos2Z.inj_mul. fold M.
  assert (HM : 2 ^ 104 <= M < 2 ^ 106).
  { unfold normal53 in *. subst M.
    change (2 ^ 104) with (2 ^ 52 * 2 ^ 52). change (2 ^ 106) with (2 ^ 53 * 2 ^ 53).
    split; [apply Z.mul_le_mono_nonneg; lia | apply Z.mul_lt_mono_nonneg; lia]. }
  assert (Hdq : 105 <= Zdigits2 M <= 106).
  { destruct (Z_lt_le_dec M (2 ^ 105)).
    - rewrite (Zdigits2_unique M 105); lia.
    - rewrite (Zdigits2_unique M 106); lia. }
  assert (H52 : 2 ^ 52 <= M) by (assert (2 ^ 52 <= 2 ^ 104) by (apply Z.pow_le_mono_r; lia); lia).
  destruct (binary_round_aux_spec M (ex + ey) loc_Exact M 1)
    as (mr & k & Heq & Hk & Hmr & Hn & HNT & HR); try lia.
  { unfold loc_ok. cbn [shr_record_of_loc shr_m shr_r shr_s].
    rewrite Z.div_1_r, Z.mod_1_r. intuition (try discriminate; try lia). }
  rewrite Z.mul_1_r in *.
  exists mr, k, (Zdigits2 M - 53).
  split; [exact Heq|]. split; [lia|]. split; [lia|]. split; [exact Hmr|].
  split; [exact HNT|]. exact HR.
Qed.

Lemma Math_floor_split m e u v :
  0 <= u -> 0 <= v -> e = u - v ->
  Math_floor (S754_finite false m e) = Some (Z.pos m * 2 ^ u / 2 ^ v).
Proof.
  intros Hu Hv ->. unfold Math_floor.
  assert (Pu : 0 < 2 ^ u) by (apply Z.pow_pos_nonneg; lia).
  assert (Pv : 0 < 2 ^ v) by (apply Z.pow_pos_nonneg; lia).
  destruct (Z.leb_spec 0 (u - v)) as [L|L]; f_equal.
  - rewrite Z.mul_1_l. replace u with ((u - v) + v) at 2 by lia.
    rewrite Z.pow_add_r, Z.mul_assoc, Z.div_mul by lia. reflexivity.
  - replace (- (u - v)) with (v - u) by lia.
    replace v with ((v - u) + u) at 2 by lia.
    rewrite Z.pow_add_r by lia.
    rewrite Z.div_mul_cancel_r by lia. reflexivity.
Qed.

(** Rounding to nearest never overshoots by more than one part in 2^53. *)
Lemma round_upper R N T :
  0 < T -> 0 <= N -> 2 ^ 52 <= N / T ->
  (R = N / T /\ 2 * (N mod T) <= T) \/ (R = N / T + 1 /\ T <= 2 * (N mod T)) ->
  R * T * 2 ^ 53 <= N * (2 ^ 53 + 1).
Proof.
  intros HT HN H52 HR.
  pose proof (Z.div_mod N T ltac:(lia)) as E.
  pose proof (Z.mod_pos_bound N T HT) as B.
  change (2 ^ 53) with 9007199254740992. change (2 ^ 52) with 4503599627370496 in H52.
  destruct HR as [[-> H]|[-> H]]; nia.
Qed.

Lemma div_round_floor a b c R :
  0 <= a -> 0 < b -> 0 < c -> b < 2 * c ->
  (R = (a * c) / b /\ 2 * ((a * c) mod b) <= b) \/
  (R = (a * c) / b + 1 /\ b <= 2 * ((a * c) mod b)) ->
  (a / b) * c <= R < (a / b + 1) * c.
Proof.
  intros Ha Hb Hc Hbc HR.
  pose proof (Z.div_mod a b ltac:(lia)) as E1.
  pose proof (Z.mod_pos_bound a b Hb) as B1.
  pose proof (Z.div_mod (a * c) b ltac:(lia)) as E2.
  pose proof (Z.mod_pos_bound (a * c) b Hb) as B2.
  set (Q := a / b) in *. set (r := a mod b) in *.
  set (m := (a * c) / b) in *. set (p := (a * c) mod b) in *.
  assert (E3 : b * (Q * c) + r * c = b * m + p) by nia.
  assert (L1 : Q * c <= m) by nia.
  assert (L2 : r * c <= (b - 1) * c) by nia.
  destruct HR as [[-> H]|[-> H]].
  - split; [exact L1|]. nia.
  - split; [lia|]. 
    assert (b * (m + 1) < b * ((Q + 1) * c)) by nia.
    nia.
Qed.

Theorem floor_fdiv_int a b :
  0 <= a < 2 ^ 53 -> 0 < b < 2 ^ 53 ->
  Math_floor (fdiv (of_int a) (of_int b)) = Some (a / b).
Proof.
  intros Ha Hb.
  destruct (of_int_pos b Hb) as (mb & eb & -> & Nb & Heb & Emb & Ub).
  destruct (Z.eq_dec a 0) as [->|Hne].
  { rewrite of_int_0. rewrite Z.div_0_l by lia. reflexivity. }
  destruct (of_int_pos a ltac:(lia)) as (ma & ea & -> & Na & Hea & Ema & Ua).
  destruct (fdiv_spec ma ea mb eb Na Nb ltac:(lia) ltac:(lia))
    as (mr & k & n & -> & Hn & Hk & Nr & HNT & HR).
  cbv zeta in HR.
  rewrite (Math_floor_split mr _ (- eb + k) (- ea + 53)) by lia.
  f_equal.
  set (W := 2 ^ n * 2 ^ (- eb)).
  set (c := 2 ^ (53 - ea - n + eb)).
  assert (PW : 0 < W) by (subst W; apply Z.mul_pos_pos; apply Z.pow_pos_nonneg; lia).
  assert (Pc : 0 < c) by (subst c; apply Z.pow_pos_nonneg; lia).
  assert (EN : Z.pos ma * 2 ^ 53 = W * (a * c)).
  { assert (EWc : W * c = 2 ^ (- ea) * 2 ^ 53).
    { subst W c. rewrite <- !Z.pow_add_r by lia. f_equal. lia. }
    rewrite Ema. rewrite <- Z.mul_assoc, <- EWc. ring. }
  assert (ET : 2 ^ n * Z.pos mb = W * b) by (rewrite Emb; subst W; ring).
  rewrite EN, ET in HR.
  rewrite Z.div_mul_cancel_l, Z.mul_mod_distr_l in HR by lia.
  assert (Ebc : b < 2 * c).
  { subst c. replace (2 * 2 ^ (53 - ea - n + eb)) with (2 ^ (53 - ea - n + eb + 1))
      by (rewrite Z.pow_add_r by lia; ring).
    assert (2 ^ (eb + 53) <= 2 ^ (53 - ea - n + eb + 1)) by (apply Z.pow_le_mono_r; lia). lia. }
  assert (HR' : (Z.pos mr * 2 ^ (k - n) = a * c / b /\ 2 * ((a * c) mod b) <= b) \/
                (Z.pos mr * 2 ^ (k - n) = a * c / b + 1 /\ b <= 2 * ((a * c) mod b))).
  { destruct HR as [[E H]|[E H]]; [left|right]; split; auto; nia. }
  pose proof (div_round_floor a b c _ ltac:(lia) ltac:(lia) Pc Ebc HR') as [Lo Hi].
  assert (Eu : Z.pos mr * 2 ^ (- eb + k) = (Z.pos mr * 2 ^ (k - n)) * W).
  { subst W. replace (- eb + k) with ((k - n) + n + (- eb)) by lia.
    rewrite !Z.pow_add_r by lia. ring. }
  assert (Ev : 2 ^ (- ea + 53) = c * W).
  { subst W c. rewrite <- !Z.pow_add_r by lia. f_equal. lia. }
  rewrite Eu, Ev, Z.div_mul_cancel_r by lia.
  symmetry. apply Z.div_unique with (Z.pos mr * 2 ^ (k - n) - c * (a / b)); nia.
Qed.

(** Rounding to nearest never undershoots by more than one part in 2^53. *)
Lemma round_lower R N T :
  0 < T -> 0 <= N -> 2 ^ 52 <= N / T ->
  (R = N / T /\ 2 * (N mod T) <= T) \/ (R = N / T + 1 /\ T <= 2 * (N mod T)) ->
  N * (2 ^ 53 - 1) <= R * T * 2 ^ 53.
Proof.
  intros HT HN H52 HR.
  pose proof (Z.div_mod N T ltac:(lia)) as E.
  pose proof (Z.mod_pos_bound N T HT) as B.
  change (2 ^ 53) with 9007199254740992. change (2 ^ 52) with 4503599627370496 in H52.
  destruct HR as [[-> H]|[-> H]]; nia.
Qed.

(** The integer arithmetic behind [floor_scale_near]: [G / W] is the
    computed value and [x * a / b] the exact one. *)
Lemma scaled_near G W x a b :
  0 < W -> 0 <= x -> 0 < a -> 0 < b -> x * a + b <= 2 ^ 51 ->
  x * a * W * ((2 ^ 53 - 1) * (2 ^ 53 - 1)) <= G * b * 2 ^ 106 ->
  G * b * 2 ^ 106 <= x * a * W * ((2 ^ 53 + 1) * (2 ^ 53 + 1)) ->
  (x * a / b - 1) * W <= G < (x * a / b + 1) * W /\
  ((x * a) mod b <> 0 -> (x * a / b) * W <= G).
Proof.
  intros HW Hx Ha Hb Hsmall Hlo Hhi.
  pose proof (Z.div_mod (x * a) b ltac:(lia)) as E.
  pose proof (Z.mod_pos_bound (x * a) b Hb) as B.
  set (V := x * a) in *. set (Q := V / b) in *. set (r := V mod b) in *.
  assert (HQ : 0 <= Q) by (apply Z.div_pos; subst V; nia).
  change (2 ^ 106) with (2 ^ 53 * 2 ^ 53) in *.
  change (2 ^ 53) with 9007199254740992 in *. change (2 ^ 51) with 2251799813685248 in *.
  set (c := 9007199254740992) in *.
  assert (Hc : c = 9007199254740992) by reflexivity.
  (* upper *)
  assert (Hup : G < (Q + 1) * W).
  { destruct (Z_lt_le_dec G ((Q + 1) * W)) as [|Hge]; [assumption|exfalso].
    assert (H1 : (Q + 1) * W * b * (c * c) <= G * b * (c * c)) by nia.
    assert (H2 : (Q + 1) * b * (c * c) * W <= V * ((c + 1) * (c + 1)) * W) by nia.
    assert (H3 : (Q + 1) * b * (c * c) <= V * ((c + 1) * (c + 1))).
    { apply Z.mul_le_mono_pos_r with W; assumption. }
    assert (H4 : V <= (Q + 1) * b - 1) by lia.
    nia. }
  assert (Hlow : forall d, d = 0 \/ d = 1 -> (d = 0 -> 1 <= r) -> (Q - d) * W <= G).
  { intros d Hd01 Hr.
    destruct (Z_le_gt_dec ((Q - d) * W) G) as [|Hlt]; [assumption|exfalso].
    assert (H1 : G * b * (c * c) <= ((Q - d) * W - 1) * b * (c * c)) by nia.
    assert (H2 : V * W * ((c - 1) * (c - 1)) <= ((Q - d) * W - 1) * b * (c * c)) by lia.
    assert (H3 : V * W * ((c - 1) * (c - 1)) < (Q - d) * b * (c * c) * W) by nia.
    assert (H4 : V * ((c - 1) * (c - 1)) < (Q - d) * b * (c * c)).
    { apply Z.mul_lt_mono_pos_r with W; [assumption|]. lia. }
    destruct Hd01 as [->| ->].
    - specialize (Hr eq_refl). nia.
    - nia. }
  split; [split|].
  - apply (Hlow 1); lia.
  - exact Hup.
  - intros Hr. replace Q with (Q - 0) by lia. apply (Hlow 0); lia.
Qed.

Lemma scaled_lt G W x a b :
  0 < W -> 0 <= x < b -> 0 < a -> b <= 2 ^ 52 ->
  G * b * 2 ^ 106 <= x * a * W * ((2 ^ 53 + 1) * (2 ^ 53 + 1)) ->
  G < a * W.
Proof.
  intros HW Hx Ha Hb Hle.
  change (2 ^ 106) with (9007199254740992 * 9007199254740992) in *.
  change (2 ^ 53) with 9007199254740992 in *. change (2 ^ 52) with 4503599627370496 in *.
  destruct (Z_lt_le_dec G (a * W)) as [L|L]; auto. exfalso.
  set (c := 9007199254740992) in *.
  assert (Hc : c = 9007199254740992) by reflexivity.
  assert (H1 : a * W * b * (c * c) <= G * b * (c * c)) by nia.
  assert (H2 : x * (a * W) <= (b - 1) * (a * W)) by nia.
  assert (H3 : 0 < a * W) by nia.
  set (Y := a * W) in *.
  assert (H4 : Y * b * (c * c) <= (b - 1) * Y * ((c + 1) * (c + 1))) by nia.
  assert (H5 : b * (c * c) <= (b - 1) * ((c + 1) * (c + 1))).
  { apply Z.mul_le_mono_pos_l with Y; [assumption|]. nia. }
  nia.
Qed.

(** The computed [x * (a / b)] as a dyadic fraction [G / W], with its
    two roundings: each is off by at most one part in 2^53. *)
Lemma scale_error x a b :
  0 < x -> x < 2 ^ 53 -> 0 < b < 2 ^ 53 -> 0 < a < 2 ^ 53 ->
  exists G W, 0 < W /\ 0 <= G /\
    Math_floor (fmul (of_int x) (fdiv (of_int a) (of_int b))) = Some (G / W) /\
    x * a * W * ((2 ^ 53 - 1) * (2 ^ 53 - 1)) <= G * b * 2 ^ 106 /\
    G * b * 2 ^ 106 <= x * a * W * ((2 ^ 53 + 1) * (2 ^ 53 + 1)).
Proof.
  intros Hx0 Hx Hb53 Ha.
  destruct (of_int_pos b Hb53) as (mb & eb & -> & Nb & Heb & Emb & Ub).
  destruct (of_int_pos a Ha) as (ma & ea & -> & Na & Hea & Ema & Ua).
  destruct (fdiv_spec ma ea mb eb Na Nb ltac:(lia) ltac:(lia))
    as (ms & k & n & -> & Hn & Hk & Ns & HNT & HR).
  cbv zeta in HR.
  destruct (of_int_pos x ltac:(lia)) as (mx & ex & -> & Nx & Hex & Emx & Ux).
  destruct (fmul_spec mx ex ms (ea - eb - 53 + k) Nx Ns ltac:(lia) ltac:(lia))
    as (mp & kp & n' & -> & Hn' & Hkp & Np & HMT & HRp).
  cbv zeta in HRp.
  rewrite (Math_floor_split mp _ (- eb + k + kp) (- ex - ea + 53)) by lia.
  assert (P2 : forall t, 0 <= t -> 0 < 2 ^ t) by (intros; apply Z.pow_pos_nonneg; lia).
  pose proof (P2 n ltac:(lia)) as Pn. pose proof (P2 n' ltac:(lia)) as Pn'.
  pose proof (P2 (k - n) ltac:(lia)) as Pkn. pose proof (P2 (kp - n') ltac:(lia)) as Pkn'.
  pose proof (P2 (- eb) ltac:(lia)) as PB. pose proof (P2 (- ex) ltac:(lia)) as PX.
  pose proof (P2 (- ea) ltac:(lia)) as PA. pose proof (P2 k ltac:(lia)) as Pk.
  pose proof (P2 kp ltac:(lia)) as Pkp.
  exists (Z.pos mp * 2 ^ (- eb + k + kp)), (2 ^ (- ex - ea + 53)).
  split; [apply P2; lia|]. split; [pose proof (P2 (- eb + k + kp) ltac:(lia)); lia|].
  split; [reflexivity|].
  assert (PT : 0 < 2 ^ n * Z.pos mb) by (apply Z.mul_pos_pos; lia).
  (* the error of the quotient *)
  pose proof (round_upper (Z.pos ms * 2 ^ (k - n)) (Z.pos ma * 2 ^ 53) (2 ^ n * Z.pos mb)
                PT ltac:(lia) (proj1 HNT) HR) as U1.
  pose proof (round_lower (Z.pos ms * 2 ^ (k - n)) (Z.pos ma * 2 ^ 53) (2 ^ n * Z.pos mb)
                PT ltac:(lia) (proj1 HNT) HR) as L1.
  (* the error of the product *)
  pose proof (round_upper (Z.pos mp * 2 ^ (kp - n')) (Z.pos mx * Z.pos ms) (2 ^ n')
                Pn' ltac:(lia) (proj1 HMT) HRp) as U2.
  pose proof (round_lower (Z.pos mp * 2 ^ (kp - n')) (Z.pos mx * Z.pos ms) (2 ^ n')
                Pn' ltac:(lia) (proj1 HMT) HRp) as L2.
  assert (EK : 2 ^ k = 2 ^ (k - n) * 2 ^ n)
    by (rewrite <- Z.pow_add_r by lia; f_equal; lia).
  assert (EKP : 2 ^ kp = 2 ^ (kp - n') * 2 ^ n')
    by (rewrite <- Z.pow_add_r by lia; f_equal; lia).
  set (S := Z.pos ms * 2 ^ k * Z.pos mb).
  set (P := Z.pos mp * 2 ^ kp * 2 ^ 53).
  assert (U1' : S <= Z.pos ma * (2 ^ 53 + 1)).
  { subst S. rewrite EK. clear - U1 L1 Pn Pkn.
    change (2 ^ 53) with 9007199254740992 in *. nia. }
  assert (L1' : Z.pos ma * (2 ^ 53 - 1) <= S).
  { subst S. rewrite EK. clear - U1 L1 Pn Pkn.
    change (2 ^ 53) with 9007199254740992 in *. nia. }
  assert (U2' : P <= Z.pos mx * Z.pos ms * (2 ^ 53 + 1)).
  { subst P. rewrite EKP. clear - U2 L2 Pn' Pkn'.
    change (2 ^ 53) with 9007199254740992 in *. nia. }
  assert (L2' : Z.pos mx * Z.pos ms * (2 ^ 53 - 1) <= P).
  { subst P. rewrite EKP. clear - U2 L2 Pn' Pkn'.
    change (2 ^ 53) with 9007199254740992 in *. nia. }
  assert (EG : Z.pos mp * 2 ^ (- eb + k + kp) * b * 2 ^ 106
               = P * (2 ^ k * Z.pos mb) * 2 ^ 53).
  { subst P. rewrite Emb. rewrite !Z.pow_add_r by lia.
    change (2 ^ 106) with (2 ^ 53 * 2 ^ 53). ring. }
  assert (EV : forall t, x * a * 2 ^ (- ex - ea + 53) * (t * t)
                         = (Z.pos mx * t) * (Z.pos ma * t) * 2 ^ 53).
  { intros t. rewrite Emx, Ema. replace (- ex - ea + 53) with (- ex + - ea + 53) by lia.
    rewrite !Z.pow_add_r by lia. ring. }
  rewrite EG, !EV.
  assert (P53 : 0 < 2 ^ 53) by (apply P2; lia).
  assert (C1 : 0 <= 2 ^ 53 - 1) by (change (2 ^ 53) with 9007199254740992; lia).
  split; apply Z.mul_le_mono_nonneg_r; try lia.
  - (* lower *)
    transitivity (Z.pos mx * (2 ^ 53 - 1) * S).
    + apply Z.mul_le_mono_nonneg_l; [|exact L1']. apply Z.mul_nonneg_nonneg; lia.
    + replace (Z.pos mx * (2 ^ 53 - 1) * S)
        with (Z.pos mx * Z.pos ms * (2 ^ 53 - 1) * (2 ^ k * Z.pos mb)) by (subst S; ring).
      apply Z.mul_le_mono_nonneg_r; [|exact L2']. apply Z.mul_nonneg_nonneg; lia.
  - (* upper *)
    transitivity (Z.pos mx * (2 ^ 53 + 1) * S).
    + replace (Z.pos mx * (2 ^ 53 + 1) * S)
        with (Z.pos mx * Z.pos ms * (2 ^ 53 + 1) * (2 ^ k * Z.pos mb)) by (subst S; ring).
      apply Z.mul_le_mono_nonneg_r; [|exact U2']. apply Z.mul_nonneg_nonneg; lia.
    + apply Z.mul_le_mono_nonneg_l; [|exact U1']. apply Z.mul_nonneg_nonneg; lia.
Qed.

(** At [x = 0] the product is an exact zero. *)
Lemma floor_scale_zero a b :
  0 < a < 2 ^ 53 -> 0 < b < 2 ^ 53 ->
  Math_floor (fmul (of_int 0) (fdiv (of_int a) (of_int b))) = Some 0.
Proof.
  intros Ha Hb.
  destruct (of_int_pos b Hb) as (mb & eb & -> & Nb & Heb & Emb & Ub).
  destruct (of_int_pos a Ha) as (ma & ea & -> & Na & Hea & Ema & Ua).
  destruct (fdiv_spec ma ea mb eb Na Nb ltac:(lia) ltac:(lia))
    as (ms & k & n & -> & _).
  rewrite of_int_0. reflexivity.
Qed.

(** The scaled coordinate stays inside the mask: for [0 <= x < b] the
    computed [Math.floor(x * (a / b))] lies in [0, a). *)
Theorem floor_scale_lt x a b :
  0 <= x < b -> b <= 2 ^ 52 -> 0 < a < 2 ^ 53 ->
  exists z, Math_floor (fmul (of_int x) (fdiv (of_int a) (of_int b))) = Some z /\
            0 <= z < a.
Proof.
  intros Hx Hb Ha.
  assert (H5253 : 2 ^ 52 < 2 ^ 53) by (apply Z.pow_lt_mono_r; lia).
  destruct (Z.eq_dec x 0) as [->|Hx0].
  { exists 0. split; [apply floor_scale_zero; lia | lia]. }
  destruct (scale_error x a b ltac:(lia) ltac:(lia) ltac:(lia) Ha)
    as (G & W & HW & HG & -> & _ & Hup).
  eexists. split; [reflexivity|]. split.
  - apply Z.div_pos; lia.
  - apply Z.div_lt_upper_bound; [assumption|]. rewrite Z.mul_comm.
    apply (scaled_lt G W x a b); auto; lia.
Qed.

(** The computed coordinate against the exact one: it is [floor(x*a/b)]
    unless [b] divides [x * a], where it can also be one less. *)
Theorem floor_scale_near x a b :
  0 <= x < b -> 0 < a -> a * b <= 2 ^ 50 ->
  exists z, Math_floor (fmul (of_int x) (fdiv (of_int a) (of_int b))) = Some z /\
            x * a / b - 1 <= z <= x * a / b /\
            ((x * a) mod b <> 0 -> z = x * a / b).
Proof.
  intros Hx Ha Hab.
  assert (H5053 : 2 ^ 50 < 2 ^ 53) by (apply Z.pow_lt_mono_r; lia).
  assert (Ha50 : a <= 2 ^ 50) by nia.
  assert (Hb50 : b <= 2 ^ 50) by nia.
  assert (Hsmall : x * a + b <= 2 ^ 51).
  { change (2 ^ 51) with (2 ^ 50 + 2 ^ 50). nia. }
  destruct (Z.eq_dec x 0) as [->|Hx0].
  { exists 0. split; [apply floor_scale_zero; lia|].
    rewrite Z.mul_0_l, Z.div_0_l, Z.mod_0_l by lia. lia. }
  destruct (scale_error x a b ltac:(lia) ltac:(lia) ltac:(lia) ltac:(lia))
    as (G & W & HW & HG & -> & Hlo & Hup).
  destruct (scaled_near G W x a b HW ltac:(lia) Ha ltac:(lia) Hsmall Hlo Hup)
    as [[B1 B2] B3].
  eexists. split; [reflexivity|]. split; [split|].
  - apply Z.div_le_lower_bound; lia.
  - assert (G / W < x * a / b + 1); [|lia].
    apply Z.div_lt_upper_bound; lia.
  - intros Hr. specialize (B3 Hr).
    assert (x * a / b <= G / W) by (apply Z.div_le_lower_bound; lia).
    assert (G / W < x * a / b + 1) by (apply Z.div_lt_upper_bound; lia).
    lia.
Qed.


(** Rounding a fraction that is an integer changes nothing. *)
Lemma round_exact R N T Q :
  0 < T -> N = T * Q ->
  (R = N / T /\ 2 * (N mod T) <= T) \/ (R = N / T + 1 /\ T <= 2 * (N mod T)) ->
  R = Q.
Proof.
  intros HT -> HR.
  rewrite Z.mul_comm, Z.div_mul, Z.mod_mul in HR by lia.
  destruct HR as [[-> _] | [_ H]]; lia.
Qed.

(** A scale factor that is an integer is computed exactly, and so is the
    coordinate: for [0 <= x < b] and a mask [q] times as wide as the image,
    [Math.floor(x * (q * b / b))] is [x * q]. *)
Theorem floor_scale_exact x q b :
  0 <= x < b -> 0 < q -> q * b < 2 ^ 53 ->
  Math_floor (fmul (of_int x) (fdiv (of_int (q * b)) (of_int b))) = Some (x * q).
Proof.
  intros Hx Hq Hqb.
  assert (Hb53 : 0 < b < 2 ^ 53) by (clear - Hx Hq Hqb; nia).
  assert (Ha : 0 < q * b < 2 ^ 53) by (clear - Hx Hq Hqb; nia).
  destruct (Z.eq_dec x 0) as [->|Hx0].
  { rewrite floor_scale_zero by assumption. reflexivity. }
  destruct (of_int_pos b Hb53) as (mb & eb & -> & Nb & Heb & Emb & Ub).
  destruct (of_int_pos (q * b) Ha) as (ma & ea & -> & Na & Hea & Ema & Ua).
  destruct (fdiv_spec ma ea mb eb Na Nb ltac:(lia) ltac:(lia))
    as (ms & k & n & -> & Hn & Hk & Ns & HNT & HR).
  cbv zeta in HR.
  destruct (of_int_pos x ltac:(lia)) as (mx & ex & -> & Nx & Hex & Emx & Ux).
  destruct (fmul_spec mx ex ms (ea - eb - 53 + k) Nx Ns ltac:(lia) ltac:(lia))
    as (mp & kp & n' & -> & Hn' & Hkp & Np & HMT & HRp).
  cbv zeta in HRp.
  assert (P2 : forall t, 0 <= t -> 0 < 2 ^ t) by (intros; apply Z.pow_pos_nonneg; lia).
  pose proof (P2 n ltac:(lia)) as Pn. pose proof (P2 n' ltac:(lia)) as Pn'.
  pose proof (P2 (k - n) ltac:(lia)) as Pkn. pose proof (P2 (kp - n') ltac:(lia)) as Pkn'.
  (* the quotient is exact *)
  set (c := 53 - ea - n + eb).
  assert (Hc : 0 <= c) by (subst c; lia).
  pose proof (P2 c Hc) as Pc.
  assert (EN : Z.pos ma * 2 ^ 53 = (2 ^ n * Z.pos mb) * (q * 2 ^ c)).
  { rewrite Ema, Emb. subst c.
    replace 53 with ((53 - ea - n + eb) + n + (- eb) - (- ea)) at 1 by lia.
    assert (E : 2 ^ (- ea) * 2 ^ (53 - ea - n + eb + n + - eb - - ea)
                = 2 ^ (53 - ea - n + eb) * 2 ^ n * 2 ^ (- eb)).
    { rewrite <- !Z.pow_add_r by lia. f_equal. lia. }
    rewrite <- Z.mul_assoc, E. ring. }
  assert (PT : 0 < 2 ^ n * Z.pos mb) by (apply Z.mul_pos_pos; lia).
  pose proof (round_exact _ _ _ _ PT EN HR) as Es.
  (* the product is exact *)
  set (d := 53 - ex - ea + eb - k).
  assert (EM : Z.pos mx * Z.pos ms * 2 ^ (k - n) = x * q * 2 ^ (- ex) * 2 ^ c).
  { rewrite <- Z.mul_assoc, Es, Emx. ring. }
  assert (Hq53 : q < 2 ^ 53) by (clear - Hx Hq Hqb; nia).
  assert (Hxq : 0 < x * q < 2 ^ 53) by (clear - Hx Hx0 Hq Hqb; nia).
  assert (Hck : k - n <= c).
  { destruct (Z_le_gt_dec (k - n) c) as [|Hgt]; [assumption|exfalso].
    assert (c = 0) by lia. assert (k - n = 1) by lia.
    replace c with 0 in Es by lia. replace (k - n) with 1 in Es by lia.
    destruct Ns as [Ns _]. change (2 ^ 52) with 4503599627370496 in Ns.
    change (2 ^ 53) with 9007199254740992 in Hq53. cbn in Es. lia. }
  assert (Hd : 0 <= d) by (subst d c; lia).
  assert (EM' : Z.pos mx * Z.pos ms = x * q * 2 ^ d).
  { apply (Z.mul_reg_r _ _ (2 ^ (k - n))); [lia|].
    rewrite EM. rewrite <- !Z.mul_assoc. f_equal. f_equal.
    rewrite <- !Z.pow_add_r by lia. f_equal. subst d c. lia. }
  assert (Hdn : n' <= d).
  { destruct (Z_le_gt_dec n' d) as [|Hgt]; [assumption|exfalso].
    destruct HMT as [HMT _].
    assert (HM : 2 ^ 52 * 2 ^ n' <= Z.pos mx * Z.pos ms).
    { pose proof (Z.mul_div_le (Z.pos mx * Z.pos ms) (2 ^ n') Pn') as Hmd.
      clear - HMT Hmd Pn'. nia. }
    assert (Hpow : 2 ^ d * 2 <= 2 ^ n').
    { replace n' with (d + (n' - d)) at 1 by lia. rewrite Z.pow_add_r by lia.
      assert (2 ^ 1 <= 2 ^ (n' - d)) by (apply Z.pow_le_mono_r; lia).
      pose proof (P2 d Hd) as Pd. change (2 ^ 1) with 2 in H.
      clear - H Pd. nia. }
    rewrite EM' in HM. pose proof (P2 d Hd) as Pd.
    assert (Hlt : x * q * 2 ^ d < 2 ^ 53 * 2 ^ d).
    { apply Z.mul_lt_mono_pos_r; [exact Pd | apply Hxq]. }
    change (2 ^ 53) with (2 ^ 52 * 2) in Hlt.
    assert (Hle : 2 ^ 52 * (2 ^ d * 2) <= 2 ^ 52 * 2 ^ n').
    { apply Z.mul_le_mono_nonneg_l; [|exact Hpow]. apply Z.pow_nonneg. lia. }
    lia. }
  assert (EMT : Z.pos mx * Z.pos ms = 2 ^ n' * (x * q * 2 ^ (d - n'))).
  { rewrite EM'. replace d with (n' + (d - n')) at 1 by lia.
    rewrite Z.pow_add_r by lia. ring. }
  pose proof (round_exact _ _ _ _ Pn' EMT HRp) as Ep.
  rewrite (Math_floor_split mp _ kp d) by (subst d; lia).
  f_equal.
  assert (Epk : Z.pos mp * 2 ^ kp = x * q * 2 ^ d).
  { replace kp with ((kp - n') + n') at 1 by lia.
    rewrite Z.pow_add_r, Z.mul_assoc, Ep by lia.
    rewrite <- !Z.mul_assoc, <- Z.pow_add_r by lia. f_equal. f_equal. f_equal. lia. }
  rewrite Epk. apply Z.div_mul. pose proof (P2 d Hd). lia.
Qed.

(** [~~] and [Math.floor] agree on a quotient of non-negative integers. *)
Lemma truncate_fdiv_int a b :
  0 <= a < 2 ^ 53 -> 0 < b < 2 ^ 53 ->
  truncate (fdiv (of_int a) (of_int b)) = Some (a / b).
Proof.
  intros Ha Hb. rewrite <- (floor_fdiv_int a b Ha Hb).
  destruct (of_int_pos b Hb) as (mb & eb & -> & Nb & Heb & Emb & Ub).
  destruct (Z.eq_dec a 0) as [->|Hne]; [reflexivity|].
  destruct (of_int_pos a ltac:(lia)) as (ma & ea & -> & Na & Hea & Ema & Ua).
  destruct (fdiv_spec ma ea mb eb Na Nb ltac:(lia) ltac:(lia))
    as (mr & k & n & -> & _).
  unfold truncate, Math_floor. destruct (0 <=? ea - eb - 53 + k); f_equal; lia.
Qed.

Theorem ToInt32_fdiv_int a b :
  0 <= a < 2 ^ 53 -> 0 < b < 2 ^ 53 -> a / b < 2 ^ 31 ->
  ToInt32 (fdiv (of_int a) (of_int b)) = a / b.
Proof.
  intros Ha Hb Hq. unfold ToInt32. rewrite truncate_fdiv_int by assumption.
  assert (0 <= a / b) by (apply Z.div_pos; lia).
  assert (2 ^ 31 < 2 ^ 32) by (apply Z.pow_lt_mono_r; lia).
  rewrite Z.mod_small by lia.
  destruct (Z.ltb_spec (a / b) (2 ^ 31)); lia.
Qed.

End Float64Facts.

(** ** Facts about the mask utilities *)
Module MaskUtilsFacts.
Import Float64 Float64Facts MaskUtils.

(** *** Loops and typed arrays *)

(** The rule for a counting loop [for (let i = 0; i < n; i++)]: a property
    that holds before the loop and is kept by the body holds after it. *)
Lemma loop_invariant {A} (f : A -> Z -> A) (I : Z -> A -> Prop) (n : Z) (a : A) :
  I 0 a ->
  (forall i acc, 0 <= i < n -> I i acc -> I (i + 1) (f acc i)) ->
  I (Z.max 0 n) (foldl f a (seqZ 0 n)).
Proof.
  intros H0 Hstep.
  destruct (Z_lt_le_dec n 0) as [Hn|Hn].
  { rewrite seqZ_nil by lia. cbn. now replace (Z.max 0 n) with 0 by lia. }
  replace (Z.max 0 n) with n by lia.
  rewrite <- (Z2Nat.id n Hn) in Hstep |- *.
  induction (Z.to_nat n) as [|k IH].
  - exact H0.
  - rewrite seqZ_S, foldl_app. cbn [foldl]. rewrite Z.add_0_l.
    replace (Z.of_nat (S k)) with (Z.of_nat k + 1) by lia.
    apply Hstep; [lia|]. apply IH. intros i acc Hi. apply Hstep. lia.
Qed.

Lemma byte_to_N_zero b : Byte.to_N b = 0%N <-> b = x00.
Proof.
  split; [|intros ->; reflexivity].
  intros H. apply (f_equal Byte.of_N) in H. rewrite Byte.of_to_N in H.
  cbn in H. congruence.
Qed.

Lemma strict_eq_zero_spec v : strict_eq_zero v = true <-> v = Some x00.
Proof.
  unfold strict_eq_zero. destruct v as [b|]; [|split; discriminate].
  destruct (Byte.eqb b x00) eqn:E.
  - apply Byte.byte_dec_bl in E. subst. tauto.
  - split; [discriminate|]. intros [= ->]. discriminate.
Qed.

Lemma gt_zero_spec v : gt_zero v = true <-> exists b, v = Some b /\ b <> x00.
Proof.
  unfold gt_zero. destruct v as [b|].
  - rewrite Z.ltb_lt. split.
    + intros H. exists b. split; [reflexivity|]. intros ->. cbn in H. lia.
    + intros (b' & [= <-] & Hne). destruct (N.eq_dec (Byte.to_N b) 0%N) as [E|E].
      * apply byte_to_N_zero in E. contradiction.
      * lia.
  - split; [discriminate | intros (b & [=] & _)].
Qed.

Lemma array_get_Some a i :
  0 <= i < Z.of_nat (length a) -> exists b, array_get a i = Some b.
Proof.
  intros Hi. unfold array_get. destruct (Z.ltb_spec i 0); [lia|].
  apply lookup_lt_is_Some_2. lia.
Qed.

Lemma array_get_set_eq a i b :
  0 <= i < Z.of_nat (length a) -> array_get (array_set a i b) i = Some b.
Proof.
  intros Hi. unfold array_get, array_set. destruct (Z.ltb_spec i 0); [lia|].
  apply list_lookup_insert_eq. lia.
Qed.

Lemma array_get_set_ne a i j b :
  0 <= i -> i <> j -> array_get (array_set a i b) j = array_get a j.
Proof.
  intros Hi Hne. unfold array_get, array_set.
  destruct (Z.ltb_spec i 0); [lia|]. destruct (Z.ltb_spec j 0); [reflexivity|].
  apply list_lookup_insert_ne. lia.
Qed.

Lemma array_set_length a i b : length (array_set a i b) = length a.
Proof. unfold array_set. destruct (i <? 0); [reflexivity | apply length_insert]. Qed.

(** *** [getMaskBounds] *)

Section GetMaskBounds.
Variable mask : ImageData.

Local Abbreviation hot := (bounds_hot mask).
Local Abbreviation seen := (bounds_seen mask).
Local Abbreviation box_inv := (bounds_invariant mask).

Lemma box_inv_step y x acc :
  0 <= y -> 0 <= x < width mask ->
  box_inv y x acc -> box_inv y (x + 1) (bounds_pixel mask y acc x).
Proof.
  intros Hy Hx. destruct acc as [[[minX minY] maxX] maxY].
  unfold bounds_invariant, bounds_pixel.
  intros (Hall & HminX & HminY & HmaxX & HmaxY).
  assert (Hmono : forall x' y', seen y x x' y' -> seen y (x + 1) x' y').
  { unfold bounds_seen. intros; lia. }
  assert (Hnew : forall x' y', seen y (x + 1) x' y' -> seen y x x' y' \/ (x' = x /\ y' = y)).
  { unfold bounds_seen. intros; lia. }
  assert (Hself : seen y (x + 1) x y) by (unfold bounds_seen; lia).
  destruct (gt_zero _) eqn:Ehot.
  - split_and!.
    + intros x' y' Hs Hh. destruct (Hnew x' y' Hs) as [Hold|[-> ->]]; [|lia].
      specialize (Hall x' y' Hold Hh). lia.
    + destruct (Z.min_spec minX x) as [[? ->]|[? ->]]; [|right; exists y; auto].
      destruct HminX as [?|(y' & ? & ?)]; [lia|]. right. exists y'. auto.
    + destruct (Z.min_spec minY y) as [[? ->]|[? ->]]; [|right; exists x; auto].
      destruct HminY as [?|(x' & ? & ?)]; [auto|]. right. exists x'. auto.
    + destruct (Z.max_spec maxX x) as [[? ->]|[? ->]]; [right; exists y; auto|].
      destruct HmaxX as [?|(y' & ? & ?)]; [lia|]. right. exists y'. auto.
    + destruct (Z.max_spec maxY y) as [[? ->]|[? ->]]; [right; exists x; auto|].
      destruct HmaxY as [?|(x' & ? & ?)]; [lia|]. right. exists x'. auto.
  - split_and!.
    + intros x' y' Hs Hh. destruct (Hnew x' y' Hs) as [Hold|[-> ->]]; [auto|].
      unfold bounds_hot in Hh. congruence.
    + destruct HminX as [?|(y' & ? & ?)]; [auto|]. right. exists y'. auto.
    + destruct HminY as [?|(x' & ? & ?)]; [auto|]. right. exists x'. auto.
    + destruct HmaxX as [?|(y' & ? & ?)]; [auto|]. right. exists y'. auto.
    + destruct HmaxY as [?|(x' & ? & ?)]; [auto|]. right. exists x'. auto.
Qed.

Lemma box_inv_ext y1 x1 y2 x2 acc :
  (forall x' y', seen y1 x1 x' y' <-> seen y2 x2 x' y') ->
  box_inv y1 x1 acc -> box_inv y2 x2 acc.
Proof.
  intros Hext. destruct acc as [[[minX minY] maxX] maxY]. unfold bounds_invariant.
  intros (Hall & HminX & HminY & HmaxX & HmaxY). split_and!.
  - intros x' y' Hs. apply Hall. now apply Hext.
  - destruct HminX as [?|(y' & ? & ?)]; [auto|]. right. exists y'. split; [now apply Hext | auto].
  - destruct HminY as [?|(x' & ? & ?)]; [auto|]. right. exists x'. split; [now apply Hext | auto].
  - destruct HmaxX as [?|(y' & ? & ?)]; [auto|]. right. exists y'. split; [now apply Hext | auto].
  - destruct HmaxY as [?|(x' & ? & ?)]; [auto|]. right. exists x'. split; [now apply Hext | auto].
Qed.

(** The invariant holds when both loops have finished. *)
Lemma bounds_loops_invariant :
  box_inv (Z.max 0 (height mask)) 0
    (foldl (fun acc y => foldl (bounds_pixel mask y) acc (seqZ 0 (width mask)))
       (width mask, height mask, -1, -1) (seqZ 0 (height mask))).
Proof.
  apply (loop_invariant _ (fun y acc => box_inv y 0 acc)).
  - unfold bounds_invariant, bounds_seen. split_and!; auto. intros; lia.
  - intros y acc Hy Hacc.
    apply (box_inv_ext y (Z.max 0 (width mask))).
    { unfold bounds_seen. intros; lia. }
    apply (loop_invariant _ (fun x acc => box_inv y x acc)); [exact Hacc|].
    intros x acc' Hx. apply box_inv_step; lia.
Qed.

Lemma seen_hot_content x y :
  seen (Z.max 0 (height mask)) 0 x y /\ hot x y <->
  content (width mask) (height mask) (data mask) x y.
Proof.
  unfold bounds_seen, bounds_hot, content. rewrite gt_zero_spec.
  split; intros H; split_and!; try tauto; lia.
Qed.

Lemma getMaskBounds_spec :
  (getMaskBounds mask = None <->
   forall x y, ~ content (width mask) (height mask) (data mask) x y) /\
  (forall B, getMaskBounds mask = Some B ->
     tight_box (content (width mask) (height mask) (data mask))
       (Bounds.left B) (Bounds.top B) (Bounds.right B) (Bounds.bottom B) /\
     Bounds.width B = Bounds.right B - Bounds.left B + 1 /\
     Bounds.height B = Bounds.bottom B - Bounds.top B + 1).
Proof.
  pose proof bounds_loops_invariant as Hinv. unfold getMaskBounds.
  destruct (foldl _ _ _) as [[[minX minY] maxX] maxY].
  destruct Hinv as (Hall & HminX & HminY & HmaxX & HmaxY).
  assert (Hin : forall x y, content (width mask) (height mask) (data mask) x y ->
                            minX <= x <= maxX /\ minY <= y <= maxY).
  { intros x y Hc. apply seen_hot_content in Hc as [Hs Hh]. now apply Hall. }
  destruct (Z.eqb_spec maxX (-1)) as [->|Hne].
  - split; [|intros B [=]]. split; [|reflexivity].
    intros _ x y Hc. pose proof (Hin x y Hc). destruct Hc. lia.
  - destruct HmaxX as [?|(yr & Hsr & Hhr)]; [contradiction|].
    assert (Hcr : content (width mask) (height mask) (data mask) maxX yr)
      by (apply seen_hot_content; auto).
    pose proof (Hin _ _ Hcr) as Hbox. pose proof Hcr as (Hxr & Hyr & _).
    split.
    + split; [discriminate|]. intros Hnone. exfalso. exact (Hnone _ _ Hcr).
    + intros B [= <-]. cbn. split; [|split; reflexivity].
      unfold tight_box. split_and!.
      * exact Hin.
      * destruct HminX as [?|(y' & ? & ?)]; [lia|]. exists y'. now apply seen_hot_content.
      * destruct HminY as [?|(x' & ? & ?)]; [lia|]. exists x'. now apply seen_hot_content.
      * now exists yr.
      * destruct HmaxY as [?|(x' & ? & ?)]; [lia|]. exists x'. now apply seen_hot_content.
Qed.

End GetMaskBounds.
(** *** [trimCanvasToContent] *)

(** Column and row of pixel number [k], as the loop body computes them. *)
Lemma scan_coords w h k :
  0 < w -> 0 < h -> w * h < 2 ^ 31 -> 0 <= k < w * h ->
  Z.rem (4 * k / 4) w = k mod w /\
  ToInt32 (fdiv (of_int (4 * k / 4)) (of_int w)) = k / w.
Proof.
  intros Hw Hh Hwh Hk.
  replace (4 * k / 4) with k by (rewrite Z.mul_comm, Z.div_mul; lia).
  assert (H31 : 2 ^ 31 < 2 ^ 53) by (apply Z.pow_lt_mono_r; lia).
  assert (Hw31 : w < 2 ^ 31) by nia.
  split.
  - apply Z.rem_mod_nonneg; lia.
  - apply ToInt32_fdiv_int; try lia.
    assert (k / w <= k) by (apply Z.div_le_upper_bound; nia). lia.
Qed.

Lemma scan_pixel_cold w pixels bound k :
  ~ scan_hot pixels k -> scan_pixel w pixels bound (4 * k) = bound.
Proof.
  unfold scan_hot, scan_pixel. intros H.
  destruct (strict_ne_zero _); [contradiction | reflexivity].
Qed.

Lemma scan_invariant_step w h pixels k bound :
  0 < w -> 0 < h -> w * h < 2 ^ 31 -> 0 <= k < w * h ->
  scan_invariant w pixels k bound ->
  scan_invariant w pixels (k + 1) (scan_pixel w pixels bound (4 * k)).
Proof.
  intros Hw Hh Hwh Hk Hinv.
  destruct (scan_coords w h k Hw Hh Hwh Hk) as [Ex Ey].
  destruct (strict_ne_zero (array_get pixels (4 * k + 3))) eqn:Ehot.
  - (* the pixel passes the test *)
    assert (Hk_hot : scan_hot pixels k) by exact Ehot.
    unfold scan_pixel. rewrite Ehot, Ex, Ey.
    destruct Hinv as [[-> Hnone] | (t & l & r & b & -> & Hall & Ht & Hl & Hr & Hb)];
      cbn [top left right bottom]; right.
    + exists (k / w), (k mod w), (k mod w), (k / w). split; [reflexivity|].
      split_and!; try (exists k; split_and!; auto; lia).
      intros K HK HhotK. destruct (Z.eq_dec K k) as [->|]; [lia|].
      exfalso. apply (Hnone K); [lia | exact HhotK].
    + assert (Htk : t <= k / w).
      { destruct Ht as (K & HK & _ & <-). apply Z.div_le_mono; lia. }
      exists t, (Z.min l (k mod w)), (Z.max r (k mod w)), (Z.max b (k / w)).
      split.
      { f_equal.
        - destruct (Z.ltb_spec (k mod w) l); f_equal; lia.
        - destruct (Z.ltb_spec r (k mod w)); f_equal; lia.
        - destruct (Z.ltb_spec b (k / w)); f_equal; lia. }
      split_and!.
      * intros K HK HhotK. destruct (Z.eq_dec K k) as [->|]; [lia|].
        specialize (Hall K ltac:(lia) HhotK). lia.
      * destruct Ht as (K & ? & ? & ?). exists K. split_and!; auto; lia.
      * destruct (Z.min_spec l (k mod w)) as [[? ->]|[? ->]].
        -- destruct Hl as (K & ? & ? & ?). exists K. split_and!; auto; lia.
        -- exists k. split_and!; auto; lia.
      * destruct (Z.max_spec r (k mod w)) as [[? ->]|[? ->]].
        -- exists k. split_and!; auto; lia.
        -- destruct Hr as (K & ? & ? & ?). exists K. split_and!; auto; lia.
      * destruct (Z.max_spec b (k / w)) as [[? ->]|[? ->]].
        -- exists k. split_and!; auto; lia.
        -- destruct Hb as (K & ? & ? & ?). exists K. split_and!; auto; lia.
  - (* the pixel is transparent *)
    assert (Hk_cold : ~ scan_hot pixels k) by (unfold scan_hot; congruence).
    rewrite scan_pixel_cold by assumption.
    destruct Hinv as [[-> Hnone] | (t & l & r & b & -> & Hall & Ht & Hl & Hr & Hb)].
    + left. split; [reflexivity|]. intros K HK.
      destruct (Z.eq_dec K k) as [->|]; [assumption | apply Hnone; lia].
    + right. exists t, l, r, b. split; [reflexivity|]. split_and!.
      * intros K HK HhotK. destruct (Z.eq_dec K k) as [->|]; [contradiction|].
        apply Hall; [lia | assumption].
      * destruct Ht as (K & ? & ? & ?). exists K. split_and!; auto; lia.
      * destruct Hl as (K & ? & ? & ?). exists K. split_and!; auto; lia.
      * destruct Hr as (K & ? & ? & ?). exists K. split_and!; auto; lia.
      * destruct Hb as (K & ? & ? & ?). exists K. split_and!; auto; lia.
Qed.

Lemma scan_indices_pixels w h :
  0 <= w * h -> scan_indices (4 * w * h) = (fun k => 4 * k) <$> seqZ 0 (w * h).
Proof.
  intros H. unfold scan_indices. do 2 f_equal.
  symmetry. apply (Z.div_unique _ 4 _ 3); lia.
Qed.

Lemma find_bounds_invariant w h pixels :
  raster_ok w h pixels -> scan_invariant w pixels (w * h) (find_bounds w pixels).
Proof.
  intros (Hw & Hh & Hlen & Hwh). unfold find_bounds.
  rewrite Hlen, scan_indices_pixels, foldl_fmap by nia.
  replace (w * h) with (Z.max 0 (w * h)) at 1 by nia.
  apply (loop_invariant _ (scan_invariant w pixels)).
  - left. split; [reflexivity|]. intros; lia.
  - intros k bound Hk. now apply (scan_invariant_step w h).
Qed.

(** Pixel number and coordinates determine each other. *)
Lemma pixel_number w h x y :
  0 <= x < w -> 0 <= y < h ->
  0 <= y * w + x < w * h /\ (y * w + x) mod w = x /\ (y * w + x) / w = y.
Proof.
  intros Hx Hy. split; [nia|]. split.
  - rewrite Z.add_comm, Z.mod_add by lia. apply Z.mod_small. lia.
  - rewrite Z.add_comm, Z.div_add by lia. rewrite Z.div_small by lia. lia.
Qed.

Lemma number_pixel w h K :
  0 < w -> 0 <= K < w * h ->
  0 <= K mod w < w /\ 0 <= K / w < h /\ (K / w) * w + K mod w = K.
Proof.
  intros Hw HK. pose proof (Z.mod_pos_bound K w Hw). pose proof (Z.div_mod K w ltac:(lia)).
  split; [lia|]. split; [|lia]. split; [apply Z.div_pos; lia|].
  apply Z.div_lt_upper_bound; lia.
Qed.

Lemma scan_hot_content w h pixels x y :
  0 <= w -> 0 <= h -> Z.of_nat (length pixels) = 4 * w * h ->
  0 <= x < w -> 0 <= y < h ->
  scan_hot pixels (y * w + x) <-> content w h pixels x y.
Proof.
  intros Hw Hh Hlen Hx Hy. unfold scan_hot, content.
  replace (4 * (y * w + x) + 3) with ((y * w + x) * 4 + 3) by ring.
  destruct (pixel_number w h x y Hx Hy) as (HK & _).
  destruct (array_get_Some pixels ((y * w + x) * 4 + 3)) as [b Hb]; [nia|].
  rewrite Hb. unfold strict_ne_zero. rewrite negb_true_iff.
  split.
  - intros Hz. split; [lia|]. split; [lia|]. exists b. split; [reflexivity|].
    intros ->. cbn in Hz. discriminate.
  - intros (_ & _ & b' & [= <-] & Hne).
    destruct (strict_eq_zero (Some b)) eqn:E; [|reflexivity].
    apply strict_eq_zero_spec in E. congruence.
Qed.

(** What the loop of [trimCanvasToContent] finds on a well-formed raster:
    nothing when there is no content, and otherwise the tight box of the
    content. *)
Lemma find_bounds_spec w h pixels :
  raster_ok w h pixels ->
  (find_bounds w pixels = mkBound None None None None /\
   forall x y, ~ content w h pixels x y) \/
  (exists t l r b,
     find_bounds w pixels = mkBound (Some t) (Some l) (Some r) (Some b) /\
     tight_box (content w h pixels) l t r b).
Proof.
  intros Hok. pose proof (find_bounds_invariant w h pixels Hok) as Hinv.
  destruct Hok as (Hw & Hh & Hlen & Hwh).
  assert (Hof : forall K, 0 <= K < w * h -> scan_hot pixels K ->
                          content w h pixels (K mod w) (K / w)).
  { intros K HK Hhot. destruct (number_pixel w h K Hw HK) as (Hx & Hy & HKeq).
    apply scan_hot_content; try lia. now rewrite HKeq. }
  assert (Hto : forall x y, content w h pixels x y ->
                  0 <= y * w + x < w * h /\ scan_hot pixels (y * w + x) /\
                  (y * w + x) mod w = x /\ (y * w + x) / w = y).
  { intros x y Hc. pose proof Hc as (Hx & Hy & _).
    destruct (pixel_number w h x y Hx Hy) as (HK & Hm & Hd).
    split; [exact HK|]. split; [|now split].
    exact (proj2 (scan_hot_content w h pixels x y ltac:(lia) ltac:(lia) Hlen Hx Hy) Hc). }
  destruct Hinv as [[-> Hnone] | (t & l & r & b & -> & Hall & Ht & Hl & Hr & Hb)].
  - left. split; [reflexivity|]. intros x y Hc.
    destruct (Hto x y Hc) as (HK & Hhot & _). exact (Hnone _ HK Hhot).
  - right. exists t, l, r, b. split; [reflexivity|]. unfold tight_box. split_and!.
    + intros x y Hc. destruct (Hto x y Hc) as (HK & Hhot & Hm & Hd).
      specialize (Hall _ HK Hhot). lia.
    + destruct Hl as (K & HK & Hhot & <-). exists (K / w). now apply Hof.
    + destruct Ht as (K & HK & Hhot & <-). exists (K mod w). now apply Hof.
    + destruct Hr as (K & HK & Hhot & <-). exists (K / w). now apply Hof.
    + destruct Hb as (K & HK & Hhot & <-). exists (K mod w). now apply Hof.
Qed.

Lemma tight_box_unique (P : Z -> Z -> Prop) l t r b l' t' r' b' :
  tight_box P l t r b -> tight_box P l' t' r' b' ->
  l = l' /\ t = t' /\ r = r' /\ b = b'.
Proof.
  intros (Hall & [yl Hl] & [xt Ht] & [yr Hr] & [xb Hb])
         (Hall' & [yl' Hl'] & [xt' Ht'] & [yr' Hr'] & [xb' Hb']).
  pose proof (Hall _ _ Hl'). pose proof (Hall _ _ Ht').
  pose proof (Hall _ _ Hr'). pose proof (Hall _ _ Hb').
  pose proof (Hall' _ _ Hl). pose proof (Hall' _ _ Ht).
  pose proof (Hall' _ _ Hr). pose proof (Hall' _ _ Hb). lia.
Qed.

Lemma find_bounds_tight w h pixels l t r b :
  raster_ok w h pixels -> tight_box (content w h pixels) l t r b ->
  find_bounds w pixels = mkBound (Some t) (Some l) (Some r) (Some b).
Proof.
  intros Hok Htight.
  destruct (find_bounds_spec w h pixels Hok)
    as [[_ Hnone] | (t' & l' & r' & b' & -> & Htight')].
  - destruct Htight as (_ & [y Hc] & _). destruct (Hnone _ _ Hc).
  - destruct (tight_box_unique _ _ _ _ _ _ _ _ _ Htight Htight') as (-> & -> & -> & ->).
    reflexivity.
Qed.

(** The canvas [trimCanvasToContent] returns once the loop has found
    bounds. *)
Lemma trim_found canvas padding l t r b :
  Canvas.context2d canvas = true ->
  find_bounds (Canvas.width canvas) (Canvas.bitmap canvas)
    = mkBound (Some t) (Some l) (Some r) (Some b) ->
  trimCanvasToContent canvas padding =
    let '(l', t', trimWidth, trimHeight) :=
      padded_box (Canvas.width canvas) (Canvas.height canvas) l t r b padding in
    NewCanvas (drawImageRegion canvas l' t' trimWidth trimHeight
                 (createCanvas trimWidth trimHeight)).
Proof.
  intros Hctx Hfound. unfold trimCanvasToContent. rewrite Hctx. cbn [negb data getImageData].
  rewrite Hfound. reflexivity.
Qed.

(** The bytes of a cropped bitmap. *)
Lemma crop_pixel src sx sy sw sh i j c :
  0 <= i < sw -> 0 <= j < sh -> 0 <= c < 4 ->
  array_get (crop src sx sy sw sh) ((j * sw + i) * 4 + c)
    = Some (pixel_byte src (sx + i) (sy + j) c).
Proof.
  intros Hi Hj Hc. unfold crop, array_get.
  destruct (pixel_number sw sh i j Hi Hj) as (HK & Hm & Hd).
  set (K := j * sw + i) in *.
  destruct (Z.ltb_spec (K * 4 + c) 0); [lia|].
  rewrite list_lookup_fmap, lookup_seqZ_lt by nia. cbn.
  rewrite Z2Nat.id, Z.add_0_l by lia.
  replace ((K * 4 + c) / 4) with K by (apply (Z.div_unique _ 4 _ c); lia).
  replace ((K * 4 + c) mod 4) with c by (apply (Z.mod_unique _ 4 K); lia).
  now rewrite Hm, Hd.
Qed.

Lemma drawImageRegion_pixel source sx sy sw sh i j c :
  0 <= i < sw -> 0 <= j < sh -> 0 <= c < 4 ->
  pixel_byte (drawImageRegion source sx sy sw sh (createCanvas sw sh)) i j c
    = pixel_byte source (sx + i) (sy + j) c.
Proof.
  intros Hi Hj Hc. unfold pixel_byte at 1. cbn.
  destruct (Z.leb_spec 0 i); [|lia]. destruct (Z.ltb_spec i sw); [|lia].
  destruct (Z.leb_spec 0 j); [|lia]. destruct (Z.ltb_spec j sh); [|lia]. cbn.
  now rewrite crop_pixel by assumption.
Qed.

(** A raster without content leaves [bound] empty.  No bound on the size
    of the raster is needed here: the coordinates are never computed. *)
Lemma find_bounds_no_content w h pixels :
  0 <= w -> 0 <= h -> Z.of_nat (length pixels) = 4 * w * h ->
  (forall x y, ~ content w h pixels x y) ->
  find_bounds w pixels = mkBound None None None None.
Proof.
  intros Hw Hh Hlen Hnone. unfold find_bounds.
  rewrite Hlen, scan_indices_pixels, foldl_fmap by nia.
  apply (loop_invariant _ (fun _ bound => bound = mkBound None None None None));
    [reflexivity|].
  intros k bound Hk ->. apply scan_pixel_cold. intros Hhot.
  assert (Hw' : 0 < w) by nia.
  destruct (number_pixel w h k Hw' Hk) as (Hx & Hy & HK).
  apply (Hnone (k mod w) (k / w)).
  apply scan_hot_content; try lia. now rewrite HK.
Qed.

(** C9.  [trimCanvasToContent] on a raster in which no pixel has non-zero
    alpha returns its argument, the canvas itself, whatever the padding. *)
Theorem trim_without_content_returns_canvas canvas padding :
  0 <= Canvas.width canvas -> 0 <= Canvas.height canvas ->
  Z.of_nat (length (Canvas.bitmap canvas)) = 4 * Canvas.width canvas * Canvas.height canvas ->
  (forall x y,
     ~ content (Canvas.width canvas) (Canvas.height canvas) (Canvas.bitmap canvas) x y) ->
  trimCanvasToContent canvas padding = SameCanvas.
Proof.
  intros Hw Hh Hlen Hnone. unfold trimCanvasToContent.
  destruct (Canvas.context2d canvas); [|reflexivity]. cbn [negb data getImageData].
  now rewrite (find_bounds_no_content _ _ _ Hw Hh Hlen Hnone).
Qed.

(** The general form of the padding step: on a well-formed raster with
    content bounds [l, t, r, b], the result is a new canvas holding the
    pixels of [padded_box], which lies inside the raster. *)
Lemma trim_with_content canvas padding l t r b :
  Canvas.context2d canvas = true ->
  raster_ok (Canvas.width canvas) (Canvas.height canvas) (Canvas.bitmap canvas) ->
  0 <= padding ->
  tight_box (content (Canvas.width canvas) (Canvas.height canvas) (Canvas.bitmap canvas))
    l t r b ->
  exists trimmed,
    trimCanvasToContent canvas padding = NewCanvas trimmed /\
    let '(l', t', trimWidth, trimHeight) :=
      padded_box (Canvas.width canvas) (Canvas.height canvas) l t r b padding in
    Canvas.width trimmed = trimWidth /\ Canvas.height trimmed = trimHeight /\
    0 <= l' /\ 0 <= t' /\ 0 < trimWidth /\ 0 < trimHeight /\
    l' + trimWidth <= Canvas.width canvas /\ t' + trimHeight <= Canvas.height canvas /\
    forall i j c, 0 <= i < trimWidth -> 0 <= j < trimHeight -> 0 <= c < 4 ->
      pixel_byte trimmed i j c = pixel_byte canvas (l' + i) (t' + j) c.
Proof.
  intros Hctx Hok Hpad Htight.
  pose proof (find_bounds_tight _ _ _ _ _ _ _ Hok Htight) as Hfound.
  rewrite (trim_found canvas padding l t r b Hctx Hfound).
  unfold padded_box. eexists. split; [reflexivity|]. cbn [Canvas.width Canvas.height drawImageRegion createCanvas].
  destruct Htight as (Hall & [yl Hl] & [xt Ht] & [yr Hr] & [xb Hb]).
  pose proof (Hall _ _ Hl). pose proof (Hall _ _ Ht).
  destruct Hl as (? & ? & _), Ht as (? & ? & _), Hr as (? & ? & _), Hb as (? & ? & _).
  split_and!; try reflexivity; try lia.
  intros i j c Hi Hj Hc. now apply drawImageRegion_pixel.
Qed.

(** *** The concrete rasters *)

Lemma replicate_get n (b b' : byte) i :
  array_get (replicate n b) i = Some b' -> b' = b.
Proof.
  unfold array_get. destruct (i <? 0); [discriminate|].
  intros H. now apply lookup_replicate in H as [-> _].
Qed.

Lemma blank_canvas_no_content x y :
  ~ content (Canvas.width blank_canvas) (Canvas.height blank_canvas)
      (Canvas.bitmap blank_canvas) x y.
Proof. intros (_ & _ & b & Hb & Hne). apply replicate_get in Hb. contradiction. Qed.

Lemma two_dot_canvas_ok :
  raster_ok (Canvas.width two_dot_canvas) (Canvas.height two_dot_canvas)
    (Canvas.bitmap two_dot_canvas).
Proof.
  unfold raster_ok, two_dot_canvas. cbn [Canvas.width Canvas.height Canvas.bitmap].
  rewrite !array_set_length, length_replicate. split_and!; try lia; reflexivity.
Qed.

Lemma two_dot_canvas_content x y :
  content 100 100 (Canvas.bitmap two_dot_canvas) x y <->
  (x = 10 /\ y = 10) \/ (x = 20 /\ y = 20).
Proof.
  unfold content, two_dot_canvas. cbn [Canvas.bitmap].
  assert (Hlen : Z.of_nat (length (replicate (Z.to_nat 40000) x00)) = 40000)
    by (rewrite length_replicate; lia).
  change ((10 * 100 + 10) * 4 + 3) with 4043. change ((20 * 100 + 20) * 4 + 3) with 8083.
  split.
  - intros (Hx & Hy & b & Hb & Hne).
    destruct (Z.eq_dec ((y * 100 + x) * 4 + 3) 8083) as [E|E]; [lia|].
    rewrite array_get_set_ne in Hb by lia.
    destruct (Z.eq_dec ((y * 100 + x) * 4 + 3) 4043) as [E'|E']; [lia|].
    rewrite array_get_set_ne in Hb by lia.
    apply replicate_get in Hb. contradiction.
  - intros [[-> ->]|[-> ->]]; (split; [lia|]); (split; [lia|]); exists xff.
    + change ((10 * 100 + 10) * 4 + 3) with 4043.
      rewrite array_get_set_ne by lia. rewrite array_get_set_eq by lia.
      split; [reflexivity | discriminate].
    + change ((20 * 100 + 20) * 4 + 3) with 8083.
      rewrite array_get_set_eq by (rewrite array_set_length; lia).
      split; [reflexivity | discriminate].
Qed.

Lemma two_dot_canvas_tight :
  tight_box (content 100 100 (Canvas.bitmap two_dot_canvas)) 10 10 20 20.
Proof.
  unfold tight_box. split_and!.
  - intros x y Hc. apply two_dot_canvas_content in Hc. lia.
  - exists 10. apply two_dot_canvas_content. auto.
  - exists 10. apply two_dot_canvas_content. auto.
  - exists 20. apply two_dot_canvas_content. auto.
  - exists 20. apply two_dot_canvas_content. auto.
Qed.

(** C3, as the specification states it, fails: on the 100 by 100 canvas
    with content bounds 10, 10, 20, 20 and padding 2 the result is not 13 by
    13. *)
Lemma trim_is_not_13_by_13 :
  tight_box (content 100 100 (Canvas.bitmap two_dot_canvas)) 10 10 20 20 /\
  ~ (exists trimmed,
       trimCanvasToContent two_dot_canvas 2 = NewCanvas trimmed /\
       Canvas.width trimmed = 13 /\ Canvas.height trimmed = 13).
Proof.
  split; [exact two_dot_canvas_tight|].
  intros (trimmed & Htrim & Hw & _).
  destruct (trim_with_content two_dot_canvas 2 10 10 20 20 eq_refl two_dot_canvas_ok
              ltac:(lia) two_dot_canvas_tight) as (trimmed' & Htrim' & Hbox).
  rewrite Htrim in Htrim'. injection Htrim' as <-.
  cbn in Hbox. destruct Hbox as (Hw' & _). lia.
Qed.

(** C3, amended.  With padding 2, content bounds 10, 10, 20, 20 in a 100 by
    100 raster give a new 15 by 15 raster anchored at (8, 8): the box grows
    by the padding on all four sides.  In general the box grows by
    [padding] on each side, clamped to the edges of the raster, and the
    result holds exactly the pixels of that box. *)
Theorem trim_expands_by_padding :
  (forall canvas,
     Canvas.context2d canvas = true ->
     Canvas.width canvas = 100 -> Canvas.height canvas = 100 ->
     length (Canvas.bitmap canvas) = Z.to_nat 40000 ->
     tight_box (content 100 100 (Canvas.bitmap canvas)) 10 10 20 20 ->
     exists trimmed,
       trimCanvasToContent canvas 2 = NewCanvas trimmed /\
       Canvas.width trimmed = 15 /\ Canvas.height trimmed = 15 /\
       forall i j c, 0 <= i < 15 -> 0 <= j < 15 -> 0 <= c < 4 ->
         pixel_byte trimmed i j c = pixel_byte canvas (8 + i) (8 + j) c) /\
  (forall canvas padding l t r b,
     Canvas.context2d canvas = true ->
     raster_ok (Canvas.width canvas) (Canvas.height canvas) (Canvas.bitmap canvas) ->
     0 <= padding ->
     tight_box (content (Canvas.width canvas) (Canvas.height canvas) (Canvas.bitmap canvas))
       l t r b ->
     exists trimmed,
       trimCanvasToContent canvas padding = NewCanvas trimmed /\
       let left := Z.max 0 (l - padding) in
       let top := Z.max 0 (t - padding) in
       let right := Z.min (Canvas.width canvas - 1) (r + padding) in
       let bottom := Z.min (Canvas.height canvas - 1) (b + padding) in
       Canvas.width trimmed = right - left + 1 /\
       Canvas.height trimmed = bottom - top + 1 /\
       forall i j c,
         0 <= i < right - left + 1 -> 0 <= j < bottom - top + 1 -> 0 <= c < 4 ->
         pixel_byte trimmed i j c = pixel_byte canvas (left + i) (top + j) c).
Proof.
  split.
  - intros canvas Hctx Hw Hh Hlen Htight.
    destruct (trim_with_content canvas 2 10 10 20 20 Hctx) as (trimmed & Htrim & Hbox);
      try lia.
    { unfold raster_ok. rewrite Hw, Hh, Hlen. split_and!; lia. }
    { now rewrite Hw, Hh. }
    exists trimmed. split; [exact Htrim|].
    rewrite Hw, Hh in Hbox. cbn in Hbox.
    destruct Hbox as (Hw' & Hh' & _ & _ & _ & _ & _ & _ & Hpix). auto.
  - intros canvas padding l t r b Hctx Hok Hpad Htight.
    destruct (trim_with_content canvas padding l t r b Hctx Hok Hpad Htight)
      as (trimmed & Htrim & Hbox).
    exists trimmed. split; [exact Htrim|]. unfold padded_box in Hbox. cbv zeta.
    destruct Hbox as (Hw' & Hh' & _ & _ & _ & _ & _ & _ & Hpix). auto.
Qed.

(** *** [applyMaskToImage] *)

Section ApplyMask.
Variables (mask : ImageData) (image : Canvas.t).

Local Abbreviation iw := (Canvas.width image).
Local Abbreviation ih := (Canvas.height image).
Local Abbreviation written := (apply_written mask image).

Lemma apply_invariant_ext d J y1 x1 y2 x2 d' :
  (written J y1 x1 <-> written J y2 x2) ->
  apply_invariant mask image d J y1 x1 d' -> apply_invariant mask image d J y2 x2 d'.
Proof.
  intros Hext (Hlen & Hw & Hn). split; [exact Hlen|]. split; intros H; [apply Hw | apply Hn]; tauto.
Qed.

Lemma apply_invariant_step d J y x d' :
  0 <= J < Z.of_nat (length d) -> 0 <= y -> 0 <= x < iw ->
  apply_invariant mask image d J y x d' ->
  apply_invariant mask image d J y (x + 1) (apply_pixel mask image y x d').
Proof.
  intros HJ Hy Hx (Hlen & Hw & Hn).
  assert (Hnew : written J y (x + 1) <->
                 written J y x \/
                 (mask_alpha mask image x y = Some x00 /\ J = (y * iw + x) * 4 + 3)).
  { unfold apply_written. split.
    - intros (x0 & y0 & Hx0 & Hy0 & Hbefore & Hcut & HJeq).
      destruct (Z.eq_dec y0 y) as [->|]; [destruct (Z.eq_dec x0 x) as [->|]|].
      + right. auto.
      + left. exists x0, y. split_and!; auto; lia.
      + left. exists x0, y0. split_and!; auto; lia.
    - intros [(x0 & y0 & Hx0 & Hy0 & Hbefore & Hcut & HJeq) | [Hcut HJeq]].
      + exists x0, y0. split_and!; auto; lia.
      + exists x, y. split_and!; auto; lia. }
  unfold apply_pixel.
  destruct (strict_eq_zero (mask_alpha mask image x y)) eqn:Ecut.
  - apply strict_eq_zero_spec in Ecut.
    split; [now rewrite array_set_length|].
    destruct (Z.eq_dec J ((y * iw + x) * 4 + 3)) as [HJeq|HJne].
    + split; intros H.
      * rewrite <- HJeq. apply array_get_set_eq. lia.
      * exfalso. apply H, Hnew. auto.
    + rewrite array_get_set_ne by nia.
      split; intros H; [apply Hw | apply Hn]; rewrite Hnew in H; tauto.
  - assert (Hkeep : mask_alpha mask image x y <> Some x00).
    { intros E. apply strict_eq_zero_spec in E. congruence. }
    split; [exact Hlen|].
    split; intros H; [apply Hw | apply Hn]; rewrite Hnew in H; tauto.
Qed.

(** The invariant holds when both loops have finished. *)
Lemma apply_mask_invariant d J :
  0 <= J < Z.of_nat (length d) ->
  apply_invariant mask image d J (Z.max 0 ih) 0 (apply_mask mask image d).
Proof.
  intros HJ. unfold apply_mask.
  apply (loop_invariant _ (fun y d' => apply_invariant mask image d J y 0 d')).
  - split; [reflexivity|]. split; [|reflexivity].
    intros (x0 & y0 & ? & ? & ? & _). lia.
  - intros y d' Hy Hd'.
    apply (apply_invariant_ext d J y (Z.max 0 iw)).
    { unfold apply_written. split; intros (x0 & y0 & ? & ? & ? & ? & ?);
        exists x0, y0; split_and!; auto; lia. }
    apply (loop_invariant _ (fun x d' => apply_invariant mask image d J y x d'));
      [exact Hd'|].
    intros x d'' Hx. apply apply_invariant_step; lia.
Qed.

Lemma apply_mask_length d : length (apply_mask mask image d) = length d.
Proof.
  unfold apply_mask.
  apply (loop_invariant _ (fun _ d' => length d' = length d)); [reflexivity|].
  intros y d' _ Hd'.
  apply (loop_invariant _ (fun _ d'' => length d'' = length d)); [exact Hd'|].
  intros x d'' _ Hd''. unfold apply_pixel.
  destruct (strict_eq_zero _); [now rewrite array_set_length | exact Hd''].
Qed.

(** Byte [c] of pixel ([x], [y]) after the loops. *)
Lemma apply_mask_byte d x y c :
  Z.of_nat (length d) = 4 * iw * ih ->
  0 <= x < iw -> 0 <= y < ih -> 0 <= c < 4 ->
  array_get (apply_mask mask image d) ((y * iw + x) * 4 + c)
  = if (c =? 3) && strict_eq_zero (mask_alpha mask image x y)
    then Some x00
    else array_get d ((y * iw + x) * 4 + c).
Proof.
  intros Hlen Hx Hy Hc.
  destruct (pixel_number iw ih x y Hx Hy) as (HK & Hm & Hd).
  set (J := (y * iw + x) * 4 + c).
  assert (HJ : 0 <= J < Z.of_nat (length d)) by (subst J; nia).
  destruct (apply_mask_invariant d J HJ) as (_ & Hw & Hn).
  assert (Hiff : written J (Z.max 0 ih) 0 <->
                 c = 3 /\ mask_alpha mask image x y = Some x00).
  { unfold apply_written. split.
    - intros (x0 & y0 & Hx0 & Hy0 & Hbefore & Hcut & HJeq).
      assert (Hy0' : 0 <= y0 < ih) by lia.
      destruct (pixel_number iw ih x0 y0 Hx0 Hy0') as (HK0 & Hm0 & Hd0).
      subst J. assert (c = 3) by lia. subst c.
      assert (Heq : y0 * iw + x0 = y * iw + x) by lia.
      rewrite Heq in Hm0, Hd0. rewrite Hm in Hm0. rewrite Hd in Hd0. subst x0 y0. auto.
    - intros [-> Hcut]. exists x, y. split_and!; auto; lia. }
  destruct (Z.eqb_spec c 3) as [Hc3|Hc3]; cbn [andb].
  - destruct (strict_eq_zero (mask_alpha mask image x y)) eqn:Ecut.
    + apply Hw, Hiff. split; [exact Hc3 | now apply strict_eq_zero_spec].
    + apply Hn. rewrite Hiff. intros [_ E]. apply strict_eq_zero_spec in E. congruence.
  - apply Hn. rewrite Hiff. tauto.
Qed.

End ApplyMask.

Lemma crop_length src sx sy sw sh :
  0 <= sw -> 0 <= sh -> Z.of_nat (length (crop src sx sy sw sh)) = 4 * sw * sh.
Proof. intros. unfold crop. rewrite length_fmap, length_seqZ. nia. Qed.

(** The image data after the loops: byte [c] of the pixel at ([x], [y]). *)
Lemma maskedImageData_byte image mask x y c :
  0 <= x < Canvas.width image -> 0 <= y < Canvas.height image -> 0 <= c < 4 ->
  array_get (data (maskedImageData image mask)) ((y * Canvas.width image + x) * 4 + c)
  = Some (if (c =? 3) && strict_eq_zero (mask_alpha mask image x y)
          then x00
          else pixel_byte image x y c).
Proof.
  intros Hx Hy Hc.
  unfold maskedImageData, getImageData, drawImage, createCanvas.
  cbn [Canvas.width Canvas.height Canvas.bitmap data width height].
  rewrite apply_mask_byte by (try apply crop_length; lia).
  destruct ((c =? 3) && strict_eq_zero (mask_alpha mask image x y)); [reflexivity|].
  rewrite crop_pixel by lia. now rewrite !Z.add_0_l.
Qed.

(** [applyMaskToImage] puts that image data on the canvas and returns the
    canvas, trimmed if the options ask for it. *)
Lemma applyMaskToImage_puts_masked_data image mask options :
  let canvas :=
    putImageData (maskedImageData image mask)
      (drawImage image (createCanvas (Canvas.width image) (Canvas.height image))) in
  applyMaskToImage image mask options
  = if trimToContent options
    then match trimCanvasToContent canvas (padding options) with
         | SameCanvas => canvas
         | NewCanvas trimmed => trimmed
         end
    else canvas.
Proof. reflexivity. Qed.

(** How far the computed mask column is from the exact quotient: with
    [mask.width * image.width <= 2^50] it is [floor(x * mw / iw)], except
    that it can be one less where [iw] divides [x * mw]. *)
Lemma maskX_near_exact mask image x :
  0 <= x < Canvas.width image -> 0 < width mask ->
  width mask * Canvas.width image <= 2 ^ 50 ->
  exists mx, maskX mask image x = Some mx /\
    x * width mask / Canvas.width image - 1 <= mx <= x * width mask / Canvas.width image /\
    ((x * width mask) mod Canvas.width image <> 0 ->
     mx = x * width mask / Canvas.width image).
Proof.
  intros Hx Hw Hsmall. unfold maskX, scaleX.
  apply floor_scale_near; assumption.
Qed.

Lemma maskY_near_exact mask image y :
  0 <= y < Canvas.height image -> 0 < height mask ->
  height mask * Canvas.height image <= 2 ^ 50 ->
  exists my, maskY mask image y = Some my /\
    y * height mask / Canvas.height image - 1 <= my <= y * height mask / Canvas.height image /\
    ((y * height mask) mod Canvas.height image <> 0 ->
     my = y * height mask / Canvas.height image).
Proof.
  intros Hy Hh Hsmall. unfold maskY, scaleY.
  apply floor_scale_near; assumption.
Qed.

(** C4, as the specification states it, fails: for the pixel at x = 49 of
    an image 98 wide and a mask 2 wide, [floor(49 * 2 / 98)] is 1 and the
    mask pixel there is opaque, yet the pixel is cut out.  The code computes
    [Math.floor(49 * (2 / 98))]: the quotient rounds to a double just below
    1/49, the product to 0.9999999999999999, and the mask pixel consulted is
    the transparent one at 0. *)
Lemma exact_floor_pixel_not_consulted :
  claimed_alpha two_pixel_mask wide_image 49 0 = Some xff /\
  pixel_byte wide_image 49 0 3 = xff /\
  pixel_byte (applyMaskToImage wide_image two_pixel_mask (mkOptions false 0)) 49 0 3 = x00 /\
  maskX two_pixel_mask wide_image 49 = Some 0 /\
  array_get (data (maskedImageData wide_image two_pixel_mask)) ((0 * 98 + 49) * 4 + 3)
  = Some x00.
Proof. split_and!; vm_compute; reflexivity. Qed.

(** C4, amended.  For every pixel ([x], [y]) of the image, the mask pixel
    consulted is the one at ([mx], [my]) with [mx = Math.floor(x * scaleX)]
    and [my = Math.floor(y * scaleY)], the scale factors
    [mask.width / image.width] and [mask.height / image.height] and the
    products being rounded to doubles.  In the image data that
    [applyMaskToImage] puts back on the canvas (the options play no part in
    it): if the alpha byte of that mask pixel is exactly 0, the alpha byte
    of the pixel is 0; if it is anything else (128, say), the pixel has the
    alpha the image had; its R, G and B bytes are those of the image in
    both cases.
    Where [mask.width * image.width <= 2^50], [mx] is
    [floor(x * mask.width / image.width)], or one less than it at an [x]
    for which [image.width] divides [x * mask.width]; likewise [my]. *)
Theorem mask_cuts_out_exact_zero image mask x y mx my :
  0 <= x < Canvas.width image -> 0 <= y < Canvas.height image ->
  maskX mask image x = Some mx -> maskY mask image y = Some my ->
  let imageData := maskedImageData image mask in
  let imageIdx := (y * Canvas.width image + x) * 4 in
  let alpha := array_get (data mask) ((my * width mask + mx) * 4 + 3) in
  (forall c, 0 <= c < 3 ->
     array_get (data imageData) (imageIdx + c) = Some (pixel_byte image x y c)) /\
  (alpha = Some x00 -> array_get (data imageData) (imageIdx + 3) = Some x00) /\
  (alpha <> Some x00 ->
   array_get (data imageData) (imageIdx + 3) = Some (pixel_byte image x y 3)) /\
  (0 < width mask -> width mask * Canvas.width image <= 2 ^ 50 ->
   x * width mask / Canvas.width image - 1 <= mx <= x * width mask / Canvas.width image /\
   ((x * width mask) mod Canvas.width image <> 0 ->
    mx = x * width mask / Canvas.width image)) /\
  (0 < height mask -> height mask * Canvas.height image <= 2 ^ 50 ->
   y * height mask / Canvas.height image - 1 <= my <= y * height mask / Canvas.height image /\
   ((y * height mask) mod Canvas.height image <> 0 ->
    my = y * height mask / Canvas.height image)).
Proof.
  intros Hx Hy Hmx Hmy imageData imageIdx alpha.
  assert (Halpha : mask_alpha mask image x y = alpha).
  { unfold mask_alpha, maskIdx. rewrite Hmx, Hmy. reflexivity. }
  subst imageData imageIdx. split_and!.
  - intros c Hc. rewrite maskedImageData_byte by lia.
    destruct (Z.eqb_spec c 3); [lia | reflexivity].
  - intros Hzero. rewrite maskedImageData_byte by lia.
    rewrite Halpha, Hzero. reflexivity.
  - intros Hnonzero. rewrite maskedImageData_byte by lia.
    rewrite Halpha. destruct (strict_eq_zero alpha) eqn:E; [|reflexivity].
    apply strict_eq_zero_spec in E. contradiction.
  - intros Hw Hsmall.
    destruct (maskX_near_exact mask image x Hx Hw Hsmall) as (mx' & Hmx' & Hnear).
    rewrite Hmx in Hmx'. injection Hmx' as <-. exact Hnear.
  - intros Hh Hsmall.
    destruct (maskY_near_exact mask image y Hy Hh Hsmall) as (my' & Hmy' & Hnear).
    rewrite Hmy in Hmy'. injection Hmy' as <-. exact Hnear.
Qed.

Lemma mask_cuts_out_exact_zero_witness :
  (forall c, 0 <= c < 3 ->
     array_get (data (maskedImageData wide_image two_pixel_mask)) ((0 * 98 + 49) * 4 + c)
     = Some (pixel_byte wide_image 49 0 c)) /\
  array_get (data (maskedImageData wide_image two_pixel_mask)) ((0 * 98 + 49) * 4 + 3)
  = Some x00.
Proof.
  destruct (mask_cuts_out_exact_zero wide_image two_pixel_mask 49 0 0 0)
    as (Hrgb & Hzero & _).
  - cbn. lia.
  - cbn. lia.
  - vm_compute. reflexivity.
  - vm_compute. reflexivity.
  - split; [exact Hrgb|]. apply Hzero. reflexivity.
Defined.

(** C10.  The mask's data is never read out of bounds: for an image and a
    mask with at least one pixel each, whose dimensions are integers a
    double multiplies exactly (all dimensions of rasters are 32-bit), and a
    mask with [data.length = width * height * 4], every pixel ([x], [y])
    of the image is mapped to a mask pixel inside the mask and
    [maskIdx + 3] is an index of [mask.data]. *)
Theorem mask_index_within_data image mask x y :
  1 <= Canvas.width image <= 2 ^ 52 -> 1 <= Canvas.height image <= 2 ^ 52 ->
  1 <= width mask < 2 ^ 53 -> 1 <= height mask < 2 ^ 53 ->
  Z.of_nat (length (data mask)) = width mask * height mask * 4 ->
  0 <= x < Canvas.width image -> 0 <= y < Canvas.height image ->
  exists mx my i,
    maskX mask image x = Some mx /\ 0 <= mx <= width mask - 1 /\
    maskY mask image y = Some my /\ 0 <= my <= height mask - 1 /\
    maskIdx mask image x y = Some i /\ i = (my * width mask + mx) * 4 /\
    0 <= i /\ i + 3 < Z.of_nat (length (data mask)) /\
    exists b, mask_alpha mask image x y = Some b.
Proof.
  intros Hiw Hih Hmw Hmh Hlen Hx Hy.
  destruct (floor_scale_lt x (width mask) (Canvas.width image)) as (mx & Hmx & Bx); try lia.
  destruct (floor_scale_lt y (height mask) (Canvas.height image)) as (my & Hmy & By); try lia.
  exists mx, my, ((my * width mask + mx) * 4).
  assert (Hi : 0 <= (my * width mask + mx) * 4 /\
               (my * width mask + mx) * 4 + 3 < Z.of_nat (length (data mask))).
  { rewrite Hlen. split; nia. }
  assert (Hidx : maskIdx mask image x y = Some ((my * width mask + mx) * 4)).
  { unfold maskIdx, maskX, maskY, scaleX, scaleY. rewrite Hmx, Hmy. reflexivity. }
  split_and!; try lia; try assumption.
  unfold mask_alpha. rewrite Hidx. cbn. apply array_get_Some. lia.
Qed.

Lemma mask_index_within_data_witness :
  exists mx my i,
    maskX two_pixel_mask wide_image 49 = Some mx /\ 0 <= mx <= 1 /\
    maskY two_pixel_mask wide_image 0 = Some my /\ 0 <= my <= 0 /\
    maskIdx two_pixel_mask wide_image 49 0 = Some i /\ i + 3 < 8.
Proof.
  destruct (mask_index_within_data wide_image two_pixel_mask 49 0)
    as (mx & my & i & Hmx & Bx & Hmy & By & Hi & _ & _ & Hlt & _).
  - cbn. lia.
  - cbn. lia.
  - cbn. lia.
  - cbn. lia.
  - reflexivity.
  - cbn. lia.
  - cbn. lia.
  - exists mx, my, i. cbn in Bx, By, Hlt. split_and!; auto; lia.
Defined.

(** C5.  [getMaskBounds] returns [null] exactly when no pixel of the mask
    has non-zero alpha, and otherwise the inclusive tight bounding box of
    those pixels, with [width = right - left + 1] and
    [height = bottom - top + 1].  A transparent 10 by 10 mask gives [null];
    a 10 by 10 mask whose only pixel with non-zero alpha is at (5, 5) gives
    left 5, top 5, right 5, bottom 5, width 1, height 1. *)
Theorem getMaskBounds_tight_box mask :
  (getMaskBounds mask = None <->
   forall x y, ~ content (width mask) (height mask) (data mask) x y) /\
  (forall B, getMaskBounds mask = Some B ->
     tight_box (content (width mask) (height mask) (data mask))
       (Bounds.left B) (Bounds.top B) (Bounds.right B) (Bounds.bottom B) /\
     Bounds.width B = Bounds.right B - Bounds.left B + 1 /\
     Bounds.height B = Bounds.bottom B - Bounds.top B + 1) /\
  (width mask = 10 -> height mask = 10 ->
   (forall x y, content 10 10 (data mask) x y <-> x = 5 /\ y = 5) ->
   getMaskBounds mask = Some (Bounds.mk 5 5 5 5 1 1)) /\
  getMaskBounds transparent_mask = None /\
  getMaskBounds single_pixel_mask = Some (Bounds.mk 5 5 5 5 1 1).
Proof.
  destruct (getMaskBounds_spec mask) as [Hnone Hsome].
  split; [exact Hnone|]. split; [exact Hsome|]. split; [|split; vm_compute; reflexivity].
  intros Hw Hh Honly. rewrite Hw, Hh in Hnone, Hsome.
  destruct (getMaskBounds mask) as [B|] eqn:E.
  - destruct (Hsome B eq_refl) as (Htight & Hwidth & Hheight).
    assert (Hfive : tight_box (content 10 10 (data mask)) 5 5 5 5).
    { unfold tight_box. split_and!.
      - intros x y Hc. apply Honly in Hc. lia.
      - exists 5. now apply Honly.
      - exists 5. now apply Honly.
      - exists 5. now apply Honly.
      - exists 5. now apply Honly. }
    destruct (tight_box_unique _ _ _ _ _ _ _ _ _ Htight Hfive) as (Hl & Ht & Hr & Hb).
    destruct B as [bl bt br bb bw bh]. cbn in *. subst. reflexivity.
  - exfalso. apply (proj1 Hnone eq_refl 5 5). now apply Honly.
Qed.

Lemma trim_without_content_returns_canvas_witness :
  trimCanvasToContent blank_canvas 7 = SameCanvas.
Proof.
  apply trim_without_content_returns_canvas.
  - cbn. lia.
  - cbn. lia.
  - reflexivity.
  - exact blank_canvas_no_content.
Defined.

Lemma trim_expands_by_padding_witness :
  exists trimmed,
    trimCanvasToContent two_dot_canvas 2 = NewCanvas trimmed /\
    Canvas.width trimmed = 15 /\ Canvas.height trimmed = 15 /\
    forall i j c, 0 <= i < 15 -> 0 <= j < 15 -> 0 <= c < 4 ->
      pixel_byte trimmed i j c = pixel_byte two_dot_canvas (8 + i) (8 + j) c.
Proof.
  apply (proj1 trim_expands_by_padding two_dot_canvas).
  - reflexivity.
  - reflexivity.
  - reflexivity.
  - cbn [Canvas.bitmap two_dot_canvas]. rewrite !array_set_length. apply length_replicate.
  - exact two_dot_canvas_tight.
Defined.

End MaskUtilsFacts.

(** ** Further facts about the mask utilities *)
Module MaskUtilsLaws.
Import Float64 Float64Facts MaskUtils MaskUtilsFacts.

(** *** Typed arrays and bitmaps *)

(** Two arrays of the same length that hold the same bytes are equal. *)
Lemma array_ext (a b : list byte) :
  length a = length b ->
  (forall J, 0 <= J < Z.of_nat (length a) -> array_get a J = array_get b J) ->
  a = b.
Proof.
  intros Hlen H. apply list_eq. intros i.
  destruct (decide (i < length a)%nat) as [Hi|Hi].
  - specialize (H (Z.of_nat i) ltac:(lia)). unfold array_get in H.
    destruct (Z.ltb_spec (Z.of_nat i) 0); [lia|]. now rewrite Nat2Z.id in H.
  - rewrite !lookup_ge_None_2 by lia. reflexivity.
Qed.

(** A byte that is not greater than 0 is 0. *)
Lemma gt_zero_false a : gt_zero (Some a) = false -> a = x00.
Proof.
  unfold gt_zero. intros H. apply byte_to_N_zero.
  destruct (Z.ltb_spec 0 (Z.of_N (Byte.to_N a))); [discriminate | lia].
Qed.

(** Every index of a [w] by [h] raster is byte [c] of some pixel. *)
Lemma byte_position w h J :
  0 <= w -> 0 <= h -> 0 <= J < 4 * w * h ->
  exists x y c, 0 <= x < w /\ 0 <= y < h /\ 0 <= c < 4 /\ J = (y * w + x) * 4 + c.
Proof.
  intros Hw Hh HJ. assert (Hw' : 0 < w) by nia.
  exists ((J / 4) mod w), ((J / 4) / w), (J mod 4).
  pose proof (Z.div_mod J 4 ltac:(lia)) as E4.
  pose proof (Z.mod_pos_bound J 4 ltac:(lia)) as B4.
  assert (HK : 0 <= J / 4 < w * h).
  { split; [apply Z.div_pos; lia | apply Z.div_lt_upper_bound; lia]. }
  destruct (number_pixel w h (J / 4) Hw' HK) as (Hx & Hy & E).
  split_and!; lia.
Qed.

Lemma pixel_byte_get canvas x y c :
  Z.of_nat (length (Canvas.bitmap canvas)) = 4 * Canvas.width canvas * Canvas.height canvas ->
  0 <= x < Canvas.width canvas -> 0 <= y < Canvas.height canvas -> 0 <= c < 4 ->
  array_get (Canvas.bitmap canvas) ((y * Canvas.width canvas + x) * 4 + c)
  = Some (pixel_byte canvas x y c).
Proof.
  intros Hlen Hx Hy Hc. unfold pixel_byte.
  destruct (Z.leb_spec 0 x); [|lia]. destruct (Z.ltb_spec x (Canvas.width canvas)); [|lia].
  destruct (Z.leb_spec 0 y); [|lia]. destruct (Z.ltb_spec y (Canvas.height canvas)); [|lia].
  cbn [andb].
  destruct (array_get_Some (Canvas.bitmap canvas)
              ((y * Canvas.width canvas + x) * 4 + c)) as [b0 ->]; [nia | reflexivity].
Qed.

(** Drawing a whole canvas copies its bitmap. *)
Lemma crop_self canvas :
  0 <= Canvas.width canvas -> 0 <= Canvas.height canvas ->
  Z.of_nat (length (Canvas.bitmap canvas)) = 4 * Canvas.width canvas * Canvas.height canvas ->
  crop canvas 0 0 (Canvas.width canvas) (Canvas.height canvas) = Canvas.bitmap canvas.
Proof.
  intros Hw Hh Hlen. apply array_ext.
  - apply Nat2Z.inj. rewrite crop_length by assumption. now rewrite Hlen.
  - intros J HJ. rewrite crop_length in HJ by assumption.
    destruct (byte_position _ _ J Hw Hh HJ) as (x & y & c & Hx & Hy & Hc & ->).
    rewrite crop_pixel, pixel_byte_get by assumption. now rewrite !Z.add_0_l.
Qed.

(** A pixel is visible exactly when its alpha byte, as [pixel_byte] reads
    it, is not zero. *)
Lemma visible_alpha canvas x y :
  visible canvas x y <-> pixel_byte canvas x y 3 <> x00.
Proof.
  unfold visible, content, pixel_byte. split.
  - intros (Hx & Hy & b & Hb & Hne).
    destruct (Z.leb_spec 0 x); [|lia]. destruct (Z.ltb_spec x (Canvas.width canvas)); [|lia].
    destruct (Z.leb_spec 0 y); [|lia]. destruct (Z.ltb_spec y (Canvas.height canvas)); [|lia].
    cbn [andb]. now rewrite Hb.
  - destruct (Z.leb_spec 0 x); [|cbn; congruence].
    destruct (Z.ltb_spec x (Canvas.width canvas)); [|cbn; congruence].
    destruct (Z.leb_spec 0 y); [|cbn; congruence].
    destruct (Z.ltb_spec y (Canvas.height canvas)); [|cbn; congruence].
    cbn [andb].
    destruct (array_get _ _) as [b|] eqn:E; cbn; [|congruence].
    intros Hne. split_and!; try lia. now exists b.
Qed.

(** The pixels of a window are visible where those of the canvas behind
    it are. *)
Lemma window_visible outer inner l t i j :
  window_of outer inner l t ->
  0 <= i < Canvas.width inner -> 0 <= j < Canvas.height inner ->
  visible inner i j <-> visible outer (l + i) (t + j).
Proof.
  intros (_ & _ & _ & _ & _ & _ & Hpix) Hi Hj.
  rewrite !visible_alpha, Hpix by lia. reflexivity.
Qed.

(** *** [putImageData] *)

(** Nothing is kept of a colour written with alpha 0, and a colour written
    with alpha 255 is read as written. *)
Lemma read_back_transparent c : read_back c x00 = x00.
Proof. destruct c; vm_compute; reflexivity. Qed.

Lemma read_back_opaque c : read_back c xff = c.
Proof. destruct c; vm_compute; reflexivity. Qed.

Lemma stored_length d :
  length (stored_byte d <$> seqZ 0 (Z.of_nat (length d))) = length d.
Proof. rewrite length_fmap, length_seqZ. lia. Qed.

Lemma stored_get d k :
  0 <= k < Z.of_nat (length d) ->
  array_get (stored_byte d <$> seqZ 0 (Z.of_nat (length d))) k = Some (stored_byte d k).
Proof.
  intros Hk. unfold array_get. destruct (Z.ltb_spec k 0); [lia|].
  rewrite list_lookup_fmap, lookup_seqZ_lt by lia. cbn.
  rewrite Z2Nat.id, Z.add_0_l by lia. reflexivity.
Qed.

(** The alpha byte of a pixel is read as it was written. *)
Lemma stored_alpha d K :
  stored_byte d (K * 4 + 3) = default x00 (array_get d (K * 4 + 3)).
Proof.
  unfold stored_byte.
  replace ((K * 4 + 3) mod 4) with 3 by (apply (Z.mod_unique _ 4 K); lia).
  reflexivity.
Qed.

(** A colour byte of a pixel is read through [read_back] with the pixel's
    alpha. *)
Lemma stored_colour d K c :
  0 <= c < 3 ->
  stored_byte d (K * 4 + c)
  = read_back (default x00 (array_get d (K * 4 + c)))
      (default x00 (array_get d (K * 4 + 3))).
Proof.
  intros Hc. unfold stored_byte.
  replace ((K * 4 + c) mod 4) with c by (apply (Z.mod_unique _ 4 K); lia).
  replace ((K * 4 + c) / 4) with K by (apply (Z.div_unique _ 4 _ c); lia).
  destruct (Z.eqb_spec c 3); [lia | reflexivity].
Qed.

(** The canvas [maskToCanvas] makes has the content of the mask. *)
Lemma maskToCanvas_visible mask x y :
  Z.of_nat (length (data mask)) = 4 * width mask * height mask ->
  visible (maskToCanvas mask) x y <-> content (width mask) (height mask) (data mask) x y.
Proof.
  intros Hlen. unfold visible, content, maskToCanvas, putImageData, createCanvas.
  cbn [Canvas.width Canvas.height Canvas.bitmap Canvas.context2d].
  split; intros (Hx & Hy & b & Hb & Hne); (split; [exact Hx|]; split; [exact Hy|]).
  - rewrite stored_get, stored_alpha in Hb by nia.
    destruct (array_get (data mask) _) as [v|] eqn:E; cbn in Hb; [|congruence].
    exists v. split; [reflexivity | congruence].
  - exists b. split; [|exact Hne].
    rewrite stored_get, stored_alpha, Hb by nia. reflexivity.
Qed.

(** *** [getMaskBounds] *)

(** [getMaskBounds] depends on a mask only through its size and the pixels
    that are content. *)
Lemma getMaskBounds_ext mask1 mask2 :
  width mask1 = width mask2 -> height mask1 = height mask2 ->
  (forall x y, content (width mask1) (height mask1) (data mask1) x y <->
               content (width mask2) (height mask2) (data mask2) x y) ->
  getMaskBounds mask1 = getMaskBounds mask2.
Proof.
  intros Hw Hh Hcontent.
  destruct (getMaskBounds_spec mask1) as [Hnone1 Hsome1].
  destruct (getMaskBounds_spec mask2) as [Hnone2 Hsome2].
  destruct (getMaskBounds mask1) as [B1|] eqn:E1, (getMaskBounds mask2) as [B2|] eqn:E2.
  - destruct (Hsome1 B1 eq_refl) as (Ht1 & Hw1 & Hh1).
    destruct (Hsome2 B2 eq_refl) as (Ht2 & Hw2 & Hh2).
    assert (Ht1' : tight_box (content (width mask2) (height mask2) (data mask2))
                     (Bounds.left B1) (Bounds.top B1) (Bounds.right B1) (Bounds.bottom B1)).
    { destruct Ht1 as (Hall & [yl Hl] & [xt Ht] & [yr Hr] & [xb Hb]).
      unfold tight_box. split_and!.
      - intros x y Hc. apply Hall, Hcontent, Hc.
      - exists yl. now apply Hcontent.
      - exists xt. now apply Hcontent.
      - exists yr. now apply Hcontent.
      - exists xb. now apply Hcontent. }
    destruct (tight_box_unique _ _ _ _ _ _ _ _ _ Ht1' Ht2) as (El & Et & Er & Eb).
    destruct B1, B2. cbn in *. subst. reflexivity.
  - exfalso. destruct (Hsome1 B1 eq_refl) as ((_ & [y Hy] & _) & _).
    apply (proj1 Hnone2 eq_refl _ _ (proj1 (Hcontent _ _) Hy)).
  - exfalso. destruct (Hsome2 B2 eq_refl) as ((_ & [y Hy] & _) & _).
    apply (proj1 Hnone1 eq_refl _ _ (proj2 (Hcontent _ _) Hy)).
  - reflexivity.
Qed.

(** *** [trimCanvasToContent] *)

(** What [trimCanvasToContent] does to a well-formed canvas: without a
    visible pixel it returns the canvas; otherwise it creates a canvas that
    shows the content bounds widened by the padding and cut at the sides of
    the canvas. *)
Lemma trim_spec canvas padding :
  Canvas.context2d canvas = true -> canvas_ok canvas -> 0 <= padding ->
  (trimCanvasToContent canvas padding = SameCanvas /\
   forall x y, ~ visible canvas x y) \/
  (exists l t r b,
     tight_box (visible canvas) l t r b /\
     let l' := Z.max 0 (l - padding) in
     let t' := Z.max 0 (t - padding) in
     let r' := Z.min (Canvas.width canvas - 1) (r + padding) in
     let b' := Z.min (Canvas.height canvas - 1) (b + padding) in
     let trimmed :=
       Canvas.mk (r' - l' + 1) (b' - t' + 1)
         (crop canvas l' t' (r' - l' + 1) (b' - t' + 1)) true in
     trimCanvasToContent canvas padding = NewCanvas trimmed /\
     window_of canvas trimmed l' t').
Proof.
  intros Hctx Hok Hpad.
  destruct (find_bounds_spec _ _ _ Hok) as [[Hnone Hno] | (t & l & r & b & Hfound & Htight)].
  - left. split; [|exact Hno].
    unfold trimCanvasToContent. rewrite Hctx. cbn [negb data getImageData].
    now rewrite Hnone.
  - right. exists l, t, r, b. split; [exact Htight|]. cbv zeta.
    split.
    + rewrite (trim_found canvas padding l t r b Hctx Hfound). reflexivity.
    + destruct Htight as (Hall & [yl Hl] & [xt Ht] & [yr Hr] & [xb Hb]).
      pose proof (Hall _ _ Hl). pose proof (Hall _ _ Ht).
      destruct Hl as (? & ? & _), Ht as (? & ? & _), Hr as (? & ? & _), Hb as (? & ? & _).
      unfold window_of. cbn [Canvas.width Canvas.height].
      split_and!; try lia.
      intros i j c Hi Hj Hc.
      apply (drawImageRegion_pixel canvas); assumption.
Qed.


(** X1.  Trimming only cuts away transparent pixels.  On a well-formed
    canvas and with a padding that is not negative, [trimCanvasToContent]
    returns the canvas itself only when no pixel is visible; otherwise the
    canvas it creates is a window of the original, lying inside it, and
    every visible pixel of the original lies in that window and is shown
    there with its four bytes unchanged. *)
Theorem trim_keeps_every_visible_pixel canvas padding :
  Canvas.context2d canvas = true -> canvas_ok canvas -> 0 <= padding ->
  match trimCanvasToContent canvas padding with
  | SameCanvas => forall x y, ~ visible canvas x y
  | NewCanvas trimmed =>
      exists l t,
        window_of canvas trimmed l t /\
        forall x y, visible canvas x y ->
          l <= x < l + Canvas.width trimmed /\ t <= y < t + Canvas.height trimmed /\
          forall c, 0 <= c < 4 ->
            pixel_byte trimmed (x - l) (y - t) c = pixel_byte canvas x y c
  end.
Proof.
  intros Hctx Hok Hpad.
  destruct (trim_spec canvas padding Hctx Hok Hpad)
    as [[-> Hno] | (l & t & r & b & Htight & Htrim & Hwin)]; [exact Hno|].
  cbv zeta in Htrim, Hwin. rewrite Htrim.
  eexists _, _. split; [exact Hwin|].
  intros x y Hvis.
  destruct Htight as (Hall & _). destruct (Hall x y Hvis) as [Hx Hy].
  destruct Hvis as (Hxw & Hyh & _).
  cbn [Canvas.width Canvas.height].
  assert (Hin : Z.max 0 (l - padding) <= x
                < Z.max 0 (l - padding)
                  + (Z.min (Canvas.width canvas - 1) (r + padding) - Z.max 0 (l - padding) + 1) /\
                Z.max 0 (t - padding) <= y
                < Z.max 0 (t - padding)
                  + (Z.min (Canvas.height canvas - 1) (b + padding) - Z.max 0 (t - padding) + 1))
    by lia.
  split; [apply Hin|]. split; [apply Hin|].
  intros c Hc. destruct Hwin as (_ & _ & _ & _ & _ & _ & Hpix).
  cbn [Canvas.width Canvas.height] in Hpix.
  rewrite Hpix by lia. f_equal; lia.
Qed.

(** X2.  With padding 0 the trimmed canvas is tight, and trimming it again
    changes nothing: each of its four sides holds a visible pixel, and
    [trimCanvasToContent] applied to it returns a canvas equal to it. *)
Theorem trim_to_content_twice canvas trimmed :
  Canvas.context2d canvas = true -> canvas_ok canvas ->
  trimCanvasToContent canvas 0 = NewCanvas trimmed ->
  tight_box (visible trimmed) 0 0 (Canvas.width trimmed - 1) (Canvas.height trimmed - 1) /\
  trimCanvasToContent trimmed 0 = NewCanvas trimmed.
Proof.
  intros Hctx Hok Htrim.
  destruct (trim_spec canvas 0 Hctx Hok ltac:(lia))
    as [[Hsame _] | (l & t & r & b & Htight & Htrim' & Hwin)]; [congruence|].
  cbv zeta in Htrim', Hwin. rewrite Htrim in Htrim'. injection Htrim' as ->.
  set (trimmed := Canvas.mk _ _ _ _) in *.
  pose proof Htight as (Hall & [yl Hl] & [xt Ht] & [yr Hr] & [xb Hb]).
  pose proof (Hall _ _ Hl) as Bl. pose proof (Hall _ _ Ht) as Bt.
  pose proof (Hall _ _ Hr) as Br. pose proof (Hall _ _ Hb) as Bb.
  assert (Hl0 : 0 <= l) by (destruct Hl; lia).
  assert (Ht0 : 0 <= t) by (destruct Ht as (_ & ? & _); lia).
  assert (Hrw : r < Canvas.width canvas) by (destruct Hr; lia).
  assert (Hbh : b < Canvas.height canvas) by (destruct Hb as (_ & ? & _); lia).
  assert (El : Z.max 0 (l - 0) = l) by lia.
  assert (Et : Z.max 0 (t - 0) = t) by lia.
  assert (Ew : Canvas.width trimmed = r - l + 1) by (subst trimmed; cbn; lia).
  assert (Eh : Canvas.height trimmed = b - t + 1) by (subst trimmed; cbn; lia).
  rewrite El, Et in Hwin.
  assert (Hvis : forall i j, 0 <= i < Canvas.width trimmed -> 0 <= j < Canvas.height trimmed ->
                   (visible trimmed i j <-> visible canvas (l + i) (t + j))).
  { intros i j Hi Hj. now apply window_visible. }
  assert (Htight' : tight_box (visible trimmed) 0 0
                      (Canvas.width trimmed - 1) (Canvas.height trimmed - 1)).
  { unfold tight_box. split_and!.
    - intros x y (Hx & Hy & _). lia.
    - exists (yl - t). apply Hvis; [lia | lia |].
      replace (l + 0) with l by lia. replace (t + (yl - t)) with yl by lia. exact Hl.
    - exists (xt - l). apply Hvis; [lia | lia |].
      replace (t + 0) with t by lia. replace (l + (xt - l)) with xt by lia. exact Ht.
    - exists (yr - t). apply Hvis; [lia | lia |].
      replace (l + (Canvas.width trimmed - 1)) with r by lia.
      replace (t + (yr - t)) with yr by lia. exact Hr.
    - exists (xb - l). apply Hvis; [lia | lia |].
      replace (t + (Canvas.height trimmed - 1)) with b by lia.
      replace (l + (xb - l)) with xb by lia. exact Hb. }
  split; [exact Htight'|].
  assert (Hlen : Z.of_nat (length (Canvas.bitmap trimmed))
                 = 4 * Canvas.width trimmed * Canvas.height trimmed).
  { subst trimmed. cbn [Canvas.bitmap Canvas.width Canvas.height].
    apply crop_length; lia. }
  assert (Hok' : canvas_ok trimmed).
  { destruct Hok as (Hw & Hh & _ & Hsmall).
    unfold canvas_ok, raster_ok. split_and!; try lia; try exact Hlen.
    assert (Canvas.width trimmed * Canvas.height trimmed
            <= Canvas.width canvas * Canvas.height canvas) by nia.
    lia. }
  pose proof (find_bounds_tight _ _ _ _ _ _ _ Hok' Htight') as Hfound.
  rewrite (trim_found trimmed 0 _ _ _ _ eq_refl Hfound).
  unfold padded_box.
  replace (Z.max 0 (0 - 0)) with 0 by lia.
  replace (Z.min (Canvas.width trimmed - 1) (Canvas.width trimmed - 1 + 0) - 0 + 1)
    with (Canvas.width trimmed) by lia.
  replace (Z.min (Canvas.height trimmed - 1) (Canvas.height trimmed - 1 + 0) - 0 + 1)
    with (Canvas.height trimmed) by lia.
  unfold drawImageRegion, createCanvas. cbn [Canvas.width Canvas.height Canvas.context2d].
  rewrite crop_self by (try exact Hlen; lia).
  subst trimmed. reflexivity.
Qed.

(** X3.  [maskToCanvas], [getMaskBounds] and [trimCanvasToContent] agree on
    what the content of a mask is.  For a well-formed mask and a padding
    that is not negative: when [getMaskBounds] returns [null], trimming the
    canvas made of the mask returns that canvas; when it returns bounds, the
    trimmed canvas is the window of the mask from
    ([left - padding], [top - padding]) to ([right + padding],
    [bottom + padding]), cut at the sides of the mask; with padding 0 its
    size is the [width] and [height] of the bounds. *)
Theorem trim_cuts_the_mask_bounds mask padding :
  raster_ok (width mask) (height mask) (data mask) -> 0 <= padding ->
  match getMaskBounds mask with
  | None => trimCanvasToContent (maskToCanvas mask) padding = SameCanvas
  | Some B =>
      exists trimmed,
        trimCanvasToContent (maskToCanvas mask) padding = NewCanvas trimmed /\
        let l := Z.max 0 (Bounds.left B - padding) in
        let t := Z.max 0 (Bounds.top B - padding) in
        let r := Z.min (width mask - 1) (Bounds.right B + padding) in
        let b := Z.min (height mask - 1) (Bounds.bottom B + padding) in
        Canvas.width trimmed = r - l + 1 /\ Canvas.height trimmed = b - t + 1 /\
        window_of (maskToCanvas mask) trimmed l t /\
        (padding = 0 ->
         Canvas.width trimmed = Bounds.width B /\ Canvas.height trimmed = Bounds.height B)
  end.
Proof.
  intros Hok Hpad.
  destruct (getMaskBounds_spec mask) as [Hnone Hsome].
  pose proof Hok as (Hw & Hh & Hlen & Hsmall).
  assert (Hok' : canvas_ok (maskToCanvas mask)).
  { unfold canvas_ok, raster_ok, maskToCanvas, putImageData, createCanvas.
    cbn [Canvas.width Canvas.height Canvas.bitmap Canvas.context2d].
    rewrite stored_length. auto. }
  assert (Hvis : forall x y, visible (maskToCanvas mask) x y <->
                             content (width mask) (height mask) (data mask) x y)
    by (intros; now apply maskToCanvas_visible).
  destruct (trim_spec (maskToCanvas mask) padding eq_refl Hok' Hpad)
    as [[Hsame Hno] | (l & t & r & b & Htight & Htrim & Hwin)].
  - destruct (getMaskBounds mask) as [B|] eqn:E; [|exact Hsame].
    exfalso. destruct (Hsome B eq_refl) as ((_ & [y Hy] & _) & _).
    apply (Hno (Bounds.left B) y). now apply Hvis.
  - assert (Htight' : tight_box (content (width mask) (height mask) (data mask)) l t r b).
    { destruct Htight as (Hall & [yl Hl] & [xt Ht] & [yr Hr] & [xb Hb]).
      unfold tight_box. split_and!.
      - intros x y Hc. apply Hall, Hvis, Hc.
      - exists yl. now apply Hvis.
      - exists xt. now apply Hvis.
      - exists yr. now apply Hvis.
      - exists xb. now apply Hvis. }
    destruct (getMaskBounds mask) as [B|] eqn:E.
    + destruct (Hsome B eq_refl) as (HtightB & HwB & HhB).
      destruct (tight_box_unique _ _ _ _ _ _ _ _ _ Htight' HtightB) as (-> & -> & -> & ->).
      cbv zeta in Htrim, Hwin. eexists. split; [exact Htrim|].
      cbv zeta. cbn [Canvas.width Canvas.height].
      split; [reflexivity|]. split; [reflexivity|]. split; [exact Hwin|].
      intros ->.
      destruct HtightB as (Hall & [yl Hl] & [xt Ht] & [yr Hr] & [xb Hb]).
      destruct Hl as (? & ? & _), Ht as (? & ? & _), Hr as (? & ? & _), Hb as (? & ? & _).
      rewrite HwB, HhB.
      change (Canvas.width (maskToCanvas mask)) with (width mask).
      change (Canvas.height (maskToCanvas mask)) with (height mask). lia.
    + exfalso. destruct Htight' as (_ & [y Hy] & _).
      exact (proj1 Hnone eq_refl _ _ Hy).
Qed.

(** X4.  The bounds [getMaskBounds] returns lie inside the mask, whatever
    the mask's data: [0 <= left <= right < mask.width],
    [0 <= top <= bottom < mask.height], and [width] and [height] are between
    1 and the mask's.  A mask without columns, without rows or without data
    gives [null]. *)
Theorem mask_bounds_inside_mask mask :
  (forall B, getMaskBounds mask = Some B ->
     0 <= Bounds.left B <= Bounds.right B /\ Bounds.right B < width mask /\
     0 <= Bounds.top B <= Bounds.bottom B /\ Bounds.bottom B < height mask /\
     1 <= Bounds.width B <= width mask /\ 1 <= Bounds.height B <= height mask) /\
  (width mask <= 0 \/ height mask <= 0 \/ data mask = [] -> getMaskBounds mask = None).
Proof.
  destruct (getMaskBounds_spec mask) as [Hnone Hsome]. split.
  - intros B HB. destruct (Hsome B HB) as (Htight & -> & ->).
    destruct Htight as (Hall & [yl Hl] & [xt Ht] & [yr Hr] & [xb Hb]).
    pose proof (Hall _ _ Hl). pose proof (Hall _ _ Ht).
    destruct Hl as (? & ? & _), Ht as (? & ? & _), Hr as (? & ? & _), Hb as (? & ? & _).
    lia.
  - intros Hempty. apply Hnone. intros x y (Hx & Hy & b & Hb & _).
    destruct Hempty as [H|[H|H]]; try lia.
    rewrite H in Hb. unfold array_get in Hb.
    destruct (_ <? 0); discriminate.
Qed.

(** *** [applyMaskToImage] *)

(** The canvas before the optional trim: the masked image data, put on the
    canvas. *)
Lemma applyMaskToImage_untrimmed image mask padding :
  applyMaskToImage image mask (mkOptions false padding)
  = Canvas.mk (Canvas.width image) (Canvas.height image)
      (stored_byte (data (maskedImageData image mask))
         <$> seqZ 0 (Z.of_nat (length (data (maskedImageData image mask))))) true.
Proof. reflexivity. Qed.

Lemma applyMaskToImage_trimmed image mask padding :
  applyMaskToImage image mask (mkOptions true padding)
  = match trimCanvasToContent (applyMaskToImage image mask (mkOptions false padding)) padding
    with
    | SameCanvas => applyMaskToImage image mask (mkOptions false padding)
    | NewCanvas trimmed => trimmed
    end.
Proof. reflexivity. Qed.

Lemma maskedImageData_length image mask :
  0 <= Canvas.width image -> 0 <= Canvas.height image ->
  Z.of_nat (length (data (maskedImageData image mask)))
  = 4 * Canvas.width image * Canvas.height image.
Proof.
  intros Hw Hh. unfold maskedImageData, getImageData, drawImage, createCanvas.
  cbn [data Canvas.bitmap Canvas.width Canvas.height].
  rewrite apply_mask_length. now apply crop_length.
Qed.

Lemma masked_length image mask padding :
  0 <= Canvas.width image -> 0 <= Canvas.height image ->
  Z.of_nat (length (Canvas.bitmap (applyMaskToImage image mask (mkOptions false padding))))
  = 4 * Canvas.width image * Canvas.height image.
Proof.
  intros Hw Hh. rewrite applyMaskToImage_untrimmed. cbn [Canvas.bitmap].
  rewrite stored_length. now apply maskedImageData_length.
Qed.

(** A pixel outside the canvas is transparent black. *)
Lemma pixel_byte_outside canvas x y c :
  ~ (0 <= x < Canvas.width canvas /\ 0 <= y < Canvas.height canvas) ->
  pixel_byte canvas x y c = x00.
Proof.
  intros Hout. unfold pixel_byte.
  destruct (Z.leb_spec 0 x), (Z.ltb_spec x (Canvas.width canvas)),
    (Z.leb_spec 0 y), (Z.ltb_spec y (Canvas.height canvas)); cbn [andb];
    try reflexivity.
  lia.
Qed.

(** The alpha byte read for a pixel is at an index [4 * k + 3]. *)
Lemma mask_alpha_index mask image x y v :
  mask_alpha mask image x y = Some v ->
  exists k, array_get (data mask) (4 * k + 3) = Some v.
Proof.
  unfold mask_alpha, maskIdx.
  destruct (maskY mask image y) as [my|]; [|discriminate].
  destruct (maskX mask image x) as [mx|]; [|discriminate]. cbn.
  intros H. exists (my * width mask + mx).
  now replace (4 * (my * width mask + mx) + 3) with ((my * width mask + mx) * 4 + 3) by lia.
Qed.

(** X5.  A mask without a zero alpha byte cuts nothing out.  If no alpha
    byte of the mask's data is 0 (in particular if the data is empty), the
    image data [applyMaskToImage] puts back on the canvas is the image data
    it read from the canvas, unchanged. *)
Theorem mask_without_zero_alpha_cuts_nothing image mask :
  (forall k, array_get (data mask) (4 * k + 3) <> Some x00) ->
  maskedImageData image mask
  = getImageData
      (drawImage image (createCanvas (Canvas.width image) (Canvas.height image))).
Proof.
  intros Hopaque. unfold maskedImageData, getImageData.
  cbn [width height data]. f_equal.
  set (d := Canvas.bitmap _). unfold apply_mask.
  apply (loop_invariant _ (fun _ d' => d' = d)); [reflexivity|].
  intros y d' _ ->.
  apply (loop_invariant _ (fun _ d' => d' = d)); [reflexivity|].
  intros x d' _ ->. unfold apply_pixel.
  destruct (strict_eq_zero (mask_alpha mask image x y)) eqn:E; [|reflexivity].
  apply strict_eq_zero_spec in E. apply mask_alpha_index in E as [k Hk].
  now apply Hopaque in Hk.
Qed.

(** X6.  A fully transparent mask clears the image, and then there is
    nothing to trim to.  For an image and a well-formed mask whose alpha
    bytes are all 0: in the image data put back on the canvas every pixel
    has alpha 0 and the R, G and B bytes of the image; the canvas returned
    reads as transparent black everywhere; and with [trimToContent] the
    result is this same full-size canvas, whatever the padding. *)
Theorem transparent_mask_clears_image image mask padding :
  1 <= Canvas.width image <= 2 ^ 52 -> 1 <= Canvas.height image <= 2 ^ 52 ->
  1 <= width mask < 2 ^ 53 -> 1 <= height mask < 2 ^ 53 ->
  (forall k, 0 <= k < width mask * height mask ->
     array_get (data mask) (4 * k + 3) = Some x00) ->
  let masked := applyMaskToImage image mask (mkOptions false padding) in
  (forall x y, 0 <= x < Canvas.width image -> 0 <= y < Canvas.height image ->
     let imageIdx := (y * Canvas.width image + x) * 4 in
     array_get (data (maskedImageData image mask)) (imageIdx + 3) = Some x00 /\
     forall c, 0 <= c < 3 ->
       array_get (data (maskedImageData image mask)) (imageIdx + c)
       = Some (pixel_byte image x y c)) /\
  (forall x y c, 0 <= c < 4 -> pixel_byte masked x y c = x00) /\
  applyMaskToImage image mask (mkOptions true padding) = masked.
Proof.
  intros Hiw Hih Hmw Hmh Hclear masked.
  assert (Halpha : forall x y, 0 <= x < Canvas.width image -> 0 <= y < Canvas.height image ->
                     mask_alpha mask image x y = Some x00).
  { intros x y Hx Hy.
    destruct (floor_scale_lt x (width mask) (Canvas.width image)) as (mx & Hmx & Bx); try lia.
    destruct (floor_scale_lt y (height mask) (Canvas.height image)) as (my & Hmy & By); try lia.
    unfold mask_alpha, maskIdx, maskX, maskY, scaleX, scaleY. rewrite Hmx, Hmy. cbn.
    replace ((my * width mask + mx) * 4 + 3) with (4 * (my * width mask + mx) + 3) by lia.
    apply Hclear. nia. }
  assert (Hlen : Z.of_nat (length (data (maskedImageData image mask)))
                 = 4 * Canvas.width image * Canvas.height image)
    by (apply maskedImageData_length; lia).
  assert (Hpix : forall x y c, 0 <= c < 4 -> pixel_byte masked x y c = x00).
  { intros x y c Hc.
    destruct (decide (0 <= x < Canvas.width image /\ 0 <= y < Canvas.height image))
      as [[Hx Hy]|Hout]; [|now apply pixel_byte_outside].
    subst masked. rewrite applyMaskToImage_untrimmed. unfold pixel_byte.
    cbn [Canvas.width Canvas.height Canvas.bitmap].
    destruct (Z.leb_spec 0 x); [|lia]. destruct (Z.ltb_spec x (Canvas.width image)); [|lia].
    destruct (Z.leb_spec 0 y); [|lia]. destruct (Z.ltb_spec y (Canvas.height image)); [|lia].
    cbn [andb]. rewrite stored_get by (rewrite Hlen; nia).
    change (stored_byte (data (maskedImageData image mask))
              ((y * Canvas.width image + x) * 4 + c) = x00).
    destruct (Z.eq_dec c 3) as [->|Hc3].
    - rewrite stored_alpha, maskedImageData_byte by lia.
      rewrite Halpha by assumption. reflexivity.
    - rewrite stored_colour by lia.
      rewrite (maskedImageData_byte image mask x y 3) by lia.
      rewrite Halpha by assumption. exact (read_back_transparent _). }
  split; [|split; [exact Hpix|]].
  - intros x y Hx Hy imageIdx. subst imageIdx. split.
    + rewrite maskedImageData_byte by lia. now rewrite Halpha.
    + intros c Hc. rewrite maskedImageData_byte by lia.
      destruct (Z.eqb_spec c 3); [lia | reflexivity].
  - rewrite applyMaskToImage_trimmed. fold masked.
    assert (Hnone : find_bounds (Canvas.width masked) (Canvas.bitmap masked)
                    = mkBound None None None None).
    { apply (find_bounds_no_content _ (Canvas.height masked)).
      - subst masked. cbn. lia.
      - subst masked. cbn. lia.
      - subst masked. rewrite masked_length by lia. reflexivity.
      - intros x y Hvis. apply (visible_alpha masked) in Hvis.
        apply Hvis, Hpix. lia. }
    unfold trimCanvasToContent.
    replace (Canvas.context2d masked) with true by reflexivity.
    cbn [negb data getImageData]. rewrite Hnone. reflexivity.
Qed.

(** X7.  Masking twice is masking once: running the two loops of
    [applyMaskToImage] on image data they have already masked changes
    nothing. *)
Theorem masking_twice_changes_nothing image mask d :
  0 <= Canvas.width image -> 0 <= Canvas.height image ->
  Z.of_nat (length d) = 4 * Canvas.width image * Canvas.height image ->
  apply_mask mask image (apply_mask mask image d) = apply_mask mask image d.
Proof.
  intros Hw Hh Hlen. apply array_ext.
  - now rewrite !apply_mask_length.
  - intros J HJ. rewrite !apply_mask_length, Hlen in HJ.
    destruct (byte_position _ _ J Hw Hh HJ) as (x & y & c & Hx & Hy & Hc & ->).
    rewrite (apply_mask_byte mask image (apply_mask mask image d))
      by (rewrite ?apply_mask_length; assumption).
    rewrite (apply_mask_byte mask image d) by assumption.
    destruct ((c =? 3) && strict_eq_zero (mask_alpha mask image x y)); reflexivity.
Qed.


(** X9.  A mask whose size is a whole multiple of the image's is read at
    exact positions.  If the mask is [qx] times as wide and [qy] times as
    high as the image (1 and 1 for a mask of the image's size), the mask
    pixel consulted for the pixel ([x], [y]) is the one at
    ([x * qx], [y * qy]), and in the image data put back on the canvas the
    pixel's alpha is 0 if the alpha of that mask pixel is 0, and the alpha
    of the image otherwise. *)
Theorem whole_scale_reads_exact_pixels image mask qx qy x y :
  0 < qx -> 0 < qy ->
  width mask = qx * Canvas.width image -> height mask = qy * Canvas.height image ->
  width mask < 2 ^ 53 -> height mask < 2 ^ 53 ->
  0 <= x < Canvas.width image -> 0 <= y < Canvas.height image ->
  maskX mask image x = Some (x * qx) /\ maskY mask image y = Some (y * qy) /\
  let alpha := array_get (data mask) ((y * qy * width mask + x * qx) * 4 + 3) in
  array_get (data (maskedImageData image mask)) ((y * Canvas.width image + x) * 4 + 3)
  = Some (if strict_eq_zero alpha then x00 else pixel_byte image x y 3).
Proof.
  intros Hqx Hqy Ew Eh Hw Hh Hx Hy.
  assert (Hmx : maskX mask image x = Some (x * qx)).
  { unfold maskX, scaleX. rewrite Ew. apply floor_scale_exact; lia. }
  assert (Hmy : maskY mask image y = Some (y * qy)).
  { unfold maskY, scaleY. rewrite Eh. apply floor_scale_exact; lia. }
  split; [exact Hmx|]. split; [exact Hmy|]. cbv zeta.
  rewrite maskedImageData_byte by lia. cbn [Z.eqb Pos.eqb andb].
  unfold mask_alpha, maskIdx. rewrite Hmx, Hmy. reflexivity.
Qed.

(** X21.  What the canvas returned shows.  Without trimming, a pixel whose
    mask pixel has alpha 0 reads as transparent black on the canvas
    [applyMaskToImage] returns: the canvas keeps nothing of its colour.  A
    pixel that is kept and is opaque in the image reads with the four bytes
    it has in the image. *)
Theorem returned_canvas_shows_cutout image mask padding x y :
  0 <= x < Canvas.width image -> 0 <= y < Canvas.height image ->
  let out := applyMaskToImage image mask (mkOptions false padding) in
  Canvas.width out = Canvas.width image /\ Canvas.height out = Canvas.height image /\
  (mask_alpha mask image x y = Some x00 ->
   forall c, 0 <= c < 4 -> pixel_byte out x y c = x00) /\
  (mask_alpha mask image x y <> Some x00 -> pixel_byte image x y 3 = xff ->
   forall c, 0 <= c < 4 -> pixel_byte out x y c = pixel_byte image x y c).
Proof.
  intros Hx Hy out. split; [reflexivity|]. split; [reflexivity|].
  assert (Hlen : Z.of_nat (length (data (maskedImageData image mask)))
                 = 4 * Canvas.width image * Canvas.height image)
    by (apply maskedImageData_length; lia).
  assert (Hout : forall c, 0 <= c < 4 ->
            pixel_byte out x y c
            = stored_byte (data (maskedImageData image mask))
                ((y * Canvas.width image + x) * 4 + c)).
  { intros c Hc. subst out. rewrite applyMaskToImage_untrimmed. unfold pixel_byte.
    cbn [Canvas.width Canvas.height Canvas.bitmap].
    destruct (Z.leb_spec 0 x); [|lia]. destruct (Z.ltb_spec x (Canvas.width image)); [|lia].
    destruct (Z.leb_spec 0 y); [|lia]. destruct (Z.ltb_spec y (Canvas.height image)); [|lia].
    cbn [andb]. rewrite stored_get by (rewrite Hlen; nia). reflexivity. }
  split.
  - intros Hzero c Hc. rewrite Hout by assumption.
    destruct (Z.eq_dec c 3) as [->|Hc3].
    + rewrite stored_alpha, maskedImageData_byte by lia. now rewrite Hzero.
    + rewrite stored_colour by lia.
      rewrite (maskedImageData_byte image mask x y 3) by lia.
      rewrite Hzero. exact (read_back_transparent _).
  - intros Hkept Hopaque c Hc. rewrite Hout by assumption.
    assert (Hcut : strict_eq_zero (mask_alpha mask image x y) = false).
    { destruct (strict_eq_zero _) eqn:E; [|reflexivity].
      apply strict_eq_zero_spec in E. contradiction. }
    destruct (Z.eq_dec c 3) as [->|Hc3].
    + rewrite stored_alpha, maskedImageData_byte by lia. now rewrite Hcut.
    + rewrite stored_colour by lia.
      rewrite (maskedImageData_byte image mask x y 3) by lia.
      rewrite (maskedImageData_byte image mask x y c) by lia.
      rewrite Hcut, Hopaque.
      destruct (Z.eqb_spec c 3); [lia|]. exact (read_back_opaque _).
Qed.

(** *** The properties at concrete rasters *)

Lemma small_mask_ok : raster_ok (width small_mask) (height small_mask) (data small_mask).
Proof. unfold raster_ok. cbn. split_and!; lia. Qed.

Lemma small_canvas_ok : canvas_ok (maskToCanvas small_mask).
Proof.
  unfold canvas_ok, raster_ok.
  split_and!; [cbn; lia | cbn; lia | vm_compute; reflexivity | cbn; lia].
Qed.

Lemma trim_keeps_every_visible_pixel_witness :
  match trimCanvasToContent (maskToCanvas small_mask) 1 with
  | SameCanvas => forall x y, ~ visible (maskToCanvas small_mask) x y
  | NewCanvas trimmed =>
      exists l t,
        window_of (maskToCanvas small_mask) trimmed l t /\
        forall x y, visible (maskToCanvas small_mask) x y ->
          l <= x < l + Canvas.width trimmed /\ t <= y < t + Canvas.height trimmed /\
          forall c, 0 <= c < 4 ->
            pixel_byte trimmed (x - l) (y - t) c = pixel_byte (maskToCanvas small_mask) x y c
  end.
Proof.
  apply (trim_keeps_every_visible_pixel (maskToCanvas small_mask) 1).
  - reflexivity.
  - exact small_canvas_ok.
  - lia.
Defined.

Lemma trim_to_content_twice_witness :
  exists trimmed,
    trimCanvasToContent (maskToCanvas small_mask) 0 = NewCanvas trimmed /\
    Canvas.width trimmed = 2 /\
    trimCanvasToContent trimmed 0 = NewCanvas trimmed.
Proof.
  eexists. split; [vm_compute; reflexivity|]. split; [reflexivity|].
  apply (trim_to_content_twice (maskToCanvas small_mask)).
  - reflexivity.
  - exact small_canvas_ok.
  - vm_compute. reflexivity.
Defined.

Lemma trim_cuts_the_mask_bounds_witness :
  getMaskBounds small_mask = Some (Bounds.mk 1 0 2 1 2 2) /\
  exists trimmed,
    trimCanvasToContent (maskToCanvas small_mask) 0 = NewCanvas trimmed /\
    Canvas.width trimmed = 2 /\ Canvas.height trimmed = 2 /\
    window_of (maskToCanvas small_mask) trimmed 1 0.
Proof.
  split; [vm_compute; reflexivity|].
  pose proof (trim_cuts_the_mask_bounds small_mask 0 small_mask_ok ltac:(lia)) as H.
  replace (getMaskBounds small_mask) with (Some (Bounds.mk 1 0 2 1 2 2)) in H
    by (vm_compute; reflexivity).
  destruct H as (trimmed & Htrim & _ & _ & Hwin & Hsize).
  exists trimmed. split; [exact Htrim|].
  destruct (Hsize eq_refl) as [Hw Hh].
  split; [exact Hw|]. split; [exact Hh | exact Hwin].
Defined.

Lemma mask_without_zero_alpha_cuts_nothing_witness :
  maskedImageData small_image opaque_pixel_mask
  = getImageData (drawImage small_image (createCanvas 3 2)).
Proof.
  apply (mask_without_zero_alpha_cuts_nothing small_image opaque_pixel_mask).
  intros k. unfold array_get. cbn [data opaque_pixel_mask].
  destruct (4 * k + 3 <? 0); [discriminate|].
  destruct (Z.to_nat (4 * k + 3)) as [|[|[|[|n]]]] eqn:E; cbn; discriminate.
Defined.

Lemma transparent_mask_clears_image_witness :
  applyMaskToImage small_image transparent_mask (mkOptions true 3)
  = applyMaskToImage small_image transparent_mask (mkOptions false 3).
Proof.
  apply (transparent_mask_clears_image small_image transparent_mask 3).
  - cbn. lia.
  - cbn. lia.
  - cbn. lia.
  - cbn. lia.
  - intros k Hk. cbn [width height data transparent_mask] in *.
    destruct (array_get_Some (replicate 400 x00) (4 * k + 3)) as [v Hv].
    { rewrite length_replicate. lia. }
    rewrite Hv. f_equal. now apply replicate_get in Hv.
Defined.

Lemma masking_twice_changes_nothing_witness :
  apply_mask small_mask small_image
    (apply_mask small_mask small_image (Canvas.bitmap small_image))
  = apply_mask small_mask small_image (Canvas.bitmap small_image).
Proof.
  apply (masking_twice_changes_nothing small_image small_mask).
  - cbn. lia.
  - cbn. lia.
  - reflexivity.
Defined.


Lemma whole_scale_reads_exact_pixels_witness :
  maskX small_mask small_image 2 = Some 2 /\ maskY small_mask small_image 1 = Some 1 /\
  array_get (data (maskedImageData small_image small_mask)) ((1 * 3 + 2) * 4 + 3)
  = Some xff.
Proof.
  destruct (whole_scale_reads_exact_pixels small_image small_mask 1 1 2 1)
    as (Hmx & Hmy & Halpha); try (cbn; lia); try reflexivity.
  split; [exact Hmx|]. split; [exact Hmy|]. exact Halpha.
Defined.

Lemma returned_canvas_shows_cutout_witness :
  (forall c, 0 <= c < 4 ->
     pixel_byte (applyMaskToImage small_image small_mask (mkOptions false 0)) 0 0 c = x00) /\
  (forall c, 0 <= c < 4 ->
     pixel_byte (applyMaskToImage small_image small_mask (mkOptions false 0)) 1 0 c
     = pixel_byte small_image 1 0 c).
Proof.
  destruct (returned_canvas_shows_cutout small_image small_mask 0 0 0)
    as (_ & _ & Hcut & _); [cbn; lia | cbn; lia |].
  destruct (returned_canvas_shows_cutout small_image small_mask 0 1 0)
    as (_ & _ & _ & Hkept); [cbn; lia | cbn; lia |].
  split.
  - apply Hcut. vm_compute. reflexivity.
  - apply Hkept; vm_compute; [discriminate | reflexivity].
Defined.

End MaskUtilsLaws.
(** ** Facts about the mask colour and the overlay *)
Module SegmenterFacts.
Import Stdlib.Strings.Ascii Float64 MaskUtils MaskUtilsFacts MaskUtilsLaws Segmenter.

(** *** Characters *)

Lemma all_ascii_complete c : c ∈ all_ascii.
Proof.
  unfold all_ascii. apply list_elem_of_fmap. exists (nat_of_ascii c).
  split; [now rewrite ascii_nat_embedding|].
  apply elem_of_seq. pose proof (nat_ascii_bounded c). lia.
Qed.

(** A property checked on every character holds of each. *)
Lemma for_all_ascii (P : ascii -> bool) :
  forallb P all_ascii = true -> forall c, P c = true.
Proof.
  intros H c. rewrite forallb_forall in H. apply H.
  apply list_elem_of_In, all_ascii_complete.
Qed.

Lemma for_all_ascii2 (P : ascii -> ascii -> bool) :
  forallb (fun c1 => forallb (P c1) all_ascii) all_ascii = true ->
  forall c1 c2, P c1 c2 = true.
Proof.
  intros H c1 c2. apply for_all_ascii. exact (for_all_ascii _ H c1).
Qed.

Lemma digit_value_range c : is_hex_digit c = true -> 0 <= digit_value c <= 15.
Proof. unfold is_hex_digit, digit_value. intros H. repeat case_match; lia. Qed.

(** ["#"] is no digit, and a digit is not taken for ["#"]. *)
Lemma strip_hash_digit c s :
  is_hex_digit c = true ->
  match String c s with String "#" rest => rest | _ => String c s end = String c s.
Proof.
  revert s.
  assert (H : forall c, (negb (is_hex_digit c) || negb (Ascii.eqb c "#")) = true).
  { apply for_all_ascii. vm_compute. reflexivity. }
  intros s Hc. specialize (H c). rewrite Hc in H. cbn in H.
  apply negb_true_iff, Ascii.eqb_neq in H.
  destruct c as [[] [] [] [] [] [] [] []]; try reflexivity. congruence.
Qed.

(** [parseInt] of a group the pattern captured: two digits. *)
Lemma parseInt16_two_digits c1 c2 :
  is_hex_digit c1 = true -> is_hex_digit c2 = true ->
  parseInt16 (String c1 (String c2 EmptyString))
  = Some (16 * digit_value c1 + digit_value c2).
Proof.
  assert (H : forall c1 c2,
             (negb (is_hex_digit c1 && is_hex_digit c2) ||
              option_Z_eqb (parseInt16 (String c1 (String c2 EmptyString)))
                (Some (16 * digit_value c1 + digit_value c2))) = true).
  { apply for_all_ascii2. vm_compute. reflexivity. }
  intros H1 H2. specialize (H c1 c2). rewrite H1, H2 in H. cbn [andb negb orb] in H.
  destruct (parseInt16 _) as [n|]; cbn in H; [|discriminate].
  f_equal. lia.
Qed.


(** *** [hexToRgb] *)

(** The pattern on six digits, with and without ["#"]. *)
Lemma hex_pattern_exec_six c1 c2 c3 c4 c5 c6 :
  forallb is_hex_digit [c1; c2; c3; c4; c5; c6] = true ->
  let groups := Some (String c1 (String c2 EmptyString),
                      String c3 (String c4 EmptyString),
                      String c5 (String c6 EmptyString)) in
  hex_pattern_exec (six c1 c2 c3 c4 c5 c6) = groups /\
  hex_pattern_exec (String "#" (six c1 c2 c3 c4 c5 c6)) = groups.
Proof.
  intros Hd groups. pose proof Hd as Hd'. cbn [forallb] in Hd'.
  apply andb_true_iff in Hd' as [H1 _].
  unfold hex_pattern_exec, six. rewrite (strip_hash_digit c1 _ H1).
  cbn [forallb] in Hd |- *. rewrite Hd. split; reflexivity.
Qed.

(** What the pattern accepts: exactly the strings of six digits, with or
    without ["#"] in front. *)
Lemma hex_pattern_exec_spec hex :
  (exists c1 c2 c3 c4 c5 c6,
     forallb is_hex_digit [c1; c2; c3; c4; c5; c6] = true /\
     (hex = six c1 c2 c3 c4 c5 c6 \/ hex = String "#" (six c1 c2 c3 c4 c5 c6)) /\
     hex_pattern_exec hex = Some (String c1 (String c2 EmptyString),
                                  String c3 (String c4 EmptyString),
                                  String c5 (String c6 EmptyString))) \/
  ((forall c1 c2 c3 c4 c5 c6,
      forallb is_hex_digit [c1; c2; c3; c4; c5; c6] = true ->
      hex <> six c1 c2 c3 c4 c5 c6 /\ hex <> String "#" (six c1 c2 c3 c4 c5 c6)) /\
   hex_pattern_exec hex = None).
Proof.
  destruct (hex_pattern_exec hex) as [[[g1 g2] g3]|] eqn:E.
  - left. unfold hex_pattern_exec in E.
    set (body := match hex with String "#" rest => rest | _ => hex end) in *.
    assert (Hbody : hex = body \/ hex = String "#" body).
    { subst body. destruct hex as [|c s]; [now left|].
      destruct c as [[] [] [] [] [] [] [] []]; (now left) || (now right). }
    destruct body as [|c1 [|c2 [|c3 [|c4 [|c5 [|c6 [|c7 s]]]]]]]; try discriminate E.
    destruct (forallb is_hex_digit [c1; c2; c3; c4; c5; c6]) eqn:Hd; [|discriminate E].
    exists c1, c2, c3, c4, c5, c6. split; [exact Hd|]. split; [exact Hbody|].
    symmetry. exact E.
  - right. split; [|reflexivity].
    intros c1 c2 c3 c4 c5 c6 Hd.
    destruct (hex_pattern_exec_six c1 c2 c3 c4 c5 c6 Hd) as [E1 E2].
    split; intros ->; congruence.
Qed.

(** The colour read from six digits. *)
Lemma hexToRgb_six c1 c2 c3 c4 c5 c6 :
  forallb is_hex_digit [c1; c2; c3; c4; c5; c6] = true ->
  let colour := mkRgb (Some (16 * digit_value c1 + digit_value c2))
                  (Some (16 * digit_value c3 + digit_value c4))
                  (Some (16 * digit_value c5 + digit_value c6)) in
  hexToRgb (six c1 c2 c3 c4 c5 c6) = colour /\
  hexToRgb (String "#" (six c1 c2 c3 c4 c5 c6)) = colour.
Proof.
  intros Hd colour. destruct (hex_pattern_exec_six c1 c2 c3 c4 c5 c6 Hd) as [E1 E2].
  cbn [forallb] in Hd. repeat (apply andb_true_iff in Hd as [? Hd]).
  unfold hexToRgb. rewrite E1, E2.
  rewrite !parseInt16_two_digits by assumption. split; reflexivity.
Qed.

(** Every component [hexToRgb] returns is a number from 0 to 255. *)
Lemma hexToRgb_bytes hex :
  exists R G B,
    hexToRgb hex = mkRgb (Some R) (Some G) (Some B) /\
    0 <= R <= 255 /\ 0 <= G <= 255 /\ 0 <= B <= 255.
Proof.
  destruct (hex_pattern_exec_spec hex)
    as [(c1 & c2 & c3 & c4 & c5 & c6 & Hd & Hform & _) | [_ E]].
  - destruct (hexToRgb_six c1 c2 c3 c4 c5 c6 Hd) as [E1 E2].
    cbn [forallb] in Hd. repeat (apply andb_true_iff in Hd as [? Hd]).
    repeat match goal with H : is_hex_digit _ = true |- _ =>
      apply digit_value_range in H end.
    eexists _, _, _. split; [destruct Hform as [-> | ->]; [exact E1 | exact E2]|]. lia.
  - unfold hexToRgb. rewrite E. eexists _, _, _. split; [reflexivity|]. lia.
Qed.

(** A number from 0 to 255 is stored in a clamped array as it is. *)
Lemma to_uint8_clamp_byte n :
  0 <= n <= 255 -> number (to_uint8_clamp (Some n)) = n.
Proof.
  intros Hn. unfold number, to_uint8_clamp.
  replace (Z.min 255 (Z.max 0 n)) with n by lia.
  destruct (Byte.of_N (Z.to_N n)) as [v|] eqn:E; cbn.
  - apply Byte.to_of_N in E. lia.
  - apply Byte.of_N_None_iff in E. lia.
Qed.

(** The digits written for a number below 16. *)
Lemma hex_digit_value upper n :
  0 <= n < 16 ->
  is_hex_digit (hex_digit upper n) = true /\ digit_value (hex_digit upper n) = n.
Proof.
  intros Hn.
  assert (Hall : forallb (fun k => is_hex_digit (hex_digit upper k)
                                   && (digit_value (hex_digit upper k) =? k))
                   (seqZ 0 16) = true)
    by (destruct upper; vm_compute; reflexivity).
  rewrite forallb_forall in Hall.
  assert (Hin : n ∈ seqZ 0 16) by (apply elem_of_seqZ; lia).
  apply list_elem_of_In, Hall, andb_true_iff in Hin as [Hdigit Hvalue].
  split; [exact Hdigit | lia].
Qed.

(** X10.  [hexToRgb] accepts exactly six hexadecimal digits, in either case,
    with or without ["#"] in front, and then returns the three bytes they
    write, digit pairs read in radix 16.  For every other string (the
    three-digit short form, eight digits with alpha, a colour name, the
    empty string) it returns the indigo default [{r: 99, g: 102, b: 241}]. *)
Theorem hexToRgb_accepts_six_digits_only hex :
  (exists c1 c2 c3 c4 c5 c6,
     forallb is_hex_digit [c1; c2; c3; c4; c5; c6] = true /\
     (hex = six c1 c2 c3 c4 c5 c6 \/ hex = String "#" (six c1 c2 c3 c4 c5 c6)) /\
     hexToRgb hex = mkRgb (Some (16 * digit_value c1 + digit_value c2))
                      (Some (16 * digit_value c3 + digit_value c4))
                      (Some (16 * digit_value c5 + digit_value c6))) \/
  ((forall c1 c2 c3 c4 c5 c6,
      forallb is_hex_digit [c1; c2; c3; c4; c5; c6] = true ->
      hex <> six c1 c2 c3 c4 c5 c6 /\ hex <> String "#" (six c1 c2 c3 c4 c5 c6)) /\
   hexToRgb hex = mkRgb (Some 99) (Some 102) (Some 241)).
Proof.
  destruct (hex_pattern_exec_spec hex)
    as [(c1 & c2 & c3 & c4 & c5 & c6 & Hd & Hform & _) | [Hno E]].
  - left. exists c1, c2, c3, c4, c5, c6. split; [exact Hd|]. split; [exact Hform|].
    destruct (hexToRgb_six c1 c2 c3 c4 c5 c6 Hd) as [E1 E2].
    destruct Hform as [-> | ->]; assumption.
  - right. split; [exact Hno|]. unfold hexToRgb. now rewrite E.
Qed.

(** X11.  [hexToRgb] reads back a colour written in hexadecimal: for bytes
    [R], [G], [B] (0 to 255), written with two digits each in lower or in
    upper case, with or without ["#"] in front, it returns
    [{r: R, g: G, b: B}]. *)
Theorem hexToRgb_reads_back R G B upper :
  0 <= R <= 255 -> 0 <= G <= 255 -> 0 <= B <= 255 ->
  hexToRgb (hex_colour upper R G B) = mkRgb (Some R) (Some G) (Some B) /\
  hexToRgb (String "#" (hex_colour upper R G B)) = mkRgb (Some R) (Some G) (Some B).
Proof.
  intros HR HG HB.
  assert (Hdiv : forall n, 0 <= n <= 255 -> 0 <= n / 16 < 16 /\ 0 <= n mod 16 < 16 /\
                                            16 * (n / 16) + n mod 16 = n).
  { intros n Hn. pose proof (Z.div_mod n 16 ltac:(lia)).
    pose proof (Z.mod_pos_bound n 16 ltac:(lia)).
    split; [|lia]. split; [apply Z.div_pos; lia | apply Z.div_lt_upper_bound; lia]. }
  destruct (Hdiv R HR) as (R1 & R2 & ER), (Hdiv G HG) as (G1 & G2 & EG),
    (Hdiv B HB) as (B1 & B2 & EB).
  destruct (hex_digit_value upper _ R1) as [D1 V1], (hex_digit_value upper _ R2) as [D2 V2],
    (hex_digit_value upper _ G1) as [D3 V3], (hex_digit_value upper _ G2) as [D4 V4],
    (hex_digit_value upper _ B1) as [D5 V5], (hex_digit_value upper _ B2) as [D6 V6].
  change (hex_colour upper R G B)
    with (six (hex_digit upper (R / 16)) (hex_digit upper (R mod 16))
              (hex_digit upper (G / 16)) (hex_digit upper (G mod 16))
              (hex_digit upper (B / 16)) (hex_digit upper (B mod 16))).
  assert (Hd : forallb is_hex_digit
                 [hex_digit upper (R / 16); hex_digit upper (R mod 16);
                  hex_digit upper (G / 16); hex_digit upper (G mod 16);
                  hex_digit upper (B / 16); hex_digit upper (B mod 16)] = true).
  { cbn [forallb]. now rewrite D1, D2, D3, D4, D5, D6. }
  destruct (hexToRgb_six _ _ _ _ _ _ Hd) as [E1 E2].
  rewrite E1, E2, V1, V2, V3, V4, V5, V6, ER, EG, EB. split; reflexivity.
Qed.

(** *** The coloured overlay *)

(** Writes of the loop body away from pixel [K] leave its bytes alone, and
    the writes at pixel [K] store the colour and the alpha. *)
Lemma overlay_pixel_spec maskData color d k K c :
  Z.of_nat (length d) = Z.of_nat (length (data maskData)) ->
  0 <= k -> 4 * k + 3 < Z.of_nat (length d) -> 0 <= K -> 0 <= c < 4 ->
  array_get (overlay_pixel maskData color d (4 * k)) (4 * K + c)
  = if (K =? k) && gt_zero (array_get (data maskData) (4 * k + 3))
    then if c =? 0 then Some (to_uint8_clamp (r color))
         else if c =? 1 then Some (to_uint8_clamp (g color))
         else if c =? 2 then Some (to_uint8_clamp (b color))
         else array_get (data maskData) (4 * k + 3)
    else array_get d (4 * K + c).
Proof.
  intros Hlen Hk Hin HK Hc. unfold overlay_pixel.
  destruct (gt_zero (array_get (data maskData) (4 * k + 3))) eqn:Hhot;
    [|now rewrite andb_false_r].
  destruct (array_get (data maskData) (4 * k + 3)) as [a|] eqn:Ea; [|discriminate Hhot].
  rewrite andb_true_r.
  destruct (Z.eqb_spec K k) as [->|Hne].
  - assert (Hcases : c = 0 \/ c = 1 \/ c = 2 \/ c = 3) by lia.
    destruct Hcases as [-> | [-> | [-> | ->]]]; cbn [Z.eqb].
    + rewrite !array_get_set_ne by lia. rewrite Z.add_0_r.
      apply array_get_set_eq. lia.
    + rewrite !array_get_set_ne by lia.
      apply array_get_set_eq. rewrite !array_set_length. lia.
    + rewrite !array_get_set_ne by lia.
      apply array_get_set_eq. rewrite !array_set_length. lia.
    + apply array_get_set_eq. rewrite !array_set_length. lia.
  - rewrite !array_get_set_ne by lia. reflexivity.
Qed.

Lemma overlay_pixel_length maskData color d i :
  length (overlay_pixel maskData color d i) = length d.
Proof.
  unfold overlay_pixel. destruct (gt_zero _); [|reflexivity].
  destruct (array_get _ _); now rewrite !array_set_length.
Qed.

(** The bytes of the overlay: byte [c] of pixel number [K]. *)
Lemma colored_overlay_byte maskData maskColor K c :
  0 <= width maskData -> 0 <= height maskData ->
  Z.of_nat (length (data maskData)) = 4 * width maskData * height maskData ->
  0 <= K < width maskData * height maskData -> 0 <= c < 4 ->
  array_get (data (colored_overlay maskData maskColor)) (4 * K + c)
  = if gt_zero (array_get (data maskData) (4 * K + 3))
    then if c =? 0 then Some (to_uint8_clamp (r (hexToRgb maskColor)))
         else if c =? 1 then Some (to_uint8_clamp (g (hexToRgb maskColor)))
         else if c =? 2 then Some (to_uint8_clamp (b (hexToRgb maskColor)))
         else array_get (data maskData) (4 * K + 3)
    else Some x00.
Proof.
  intros Hw Hh Hlen HK Hc.
  unfold colored_overlay, createImageData. cbn [data width height].
  rewrite Hlen. rewrite scan_indices_pixels, foldl_fmap by nia.
  set (d0 := replicate (Z.to_nat (4 * width maskData * height maskData)) x00).
  set (N := width maskData * height maskData) in *.
  assert (Hd0 : Z.of_nat (length d0) = 4 * N)
    by (subst d0 N; rewrite length_replicate; nia).
  pose proof (loop_invariant
    (fun d k => overlay_pixel maskData (hexToRgb maskColor) d (4 * k))
    (fun k d =>
       length d = length d0 /\
       array_get d (4 * K + c)
       = if (K <? k) && gt_zero (array_get (data maskData) (4 * K + 3))
         then if c =? 0 then Some (to_uint8_clamp (r (hexToRgb maskColor)))
              else if c =? 1 then Some (to_uint8_clamp (g (hexToRgb maskColor)))
              else if c =? 2 then Some (to_uint8_clamp (b (hexToRgb maskColor)))
              else array_get (data maskData) (4 * K + 3)
         else Some x00)
    N d0) as Hloop.
  destruct Hloop as [_ Hbyte].
  - split; [reflexivity|].
    destruct (Z.ltb_spec K 0); [lia|]. cbn [andb].
    destruct (array_get_Some d0 (4 * K + c)) as [v Hv]; [lia|].
    rewrite Hv. f_equal. subst d0. now apply replicate_get in Hv.
  - intros k d Hk [Hdlen Hd]. split; [now rewrite overlay_pixel_length|].
    rewrite overlay_pixel_spec by lia.
    destruct (Z.eqb_spec K k) as [->|Hne]; cbn [andb].
    + destruct (Z.ltb_spec k (k + 1)); [|lia]. cbn [andb].
      destruct (gt_zero (array_get (data maskData) (4 * k + 3))); [reflexivity|].
      rewrite Hd. destruct (Z.ltb_spec k k); [lia|]. reflexivity.
    + rewrite Hd. destruct (Z.ltb_spec K k), (Z.ltb_spec K (k + 1)); try lia; reflexivity.
  - rewrite Hbyte. destruct (Z.ltb_spec K (Z.max 0 N)); [|lia]. reflexivity.
Qed.

Lemma overlay_loop_length maskData color l : forall d,
  length (foldl (overlay_pixel maskData color) d l) = length d.
Proof.
  induction l as [|i l IH]; intros d; [reflexivity|].
  cbn [foldl]. rewrite IH. apply overlay_pixel_length.
Qed.

Lemma colored_overlay_length maskData maskColor :
  length (data (colored_overlay maskData maskColor))
  = Z.to_nat (4 * width maskData * height maskData).
Proof.
  unfold colored_overlay, createImageData. cbn [data width height].
  rewrite overlay_loop_length. apply length_replicate.
Qed.


(** X12.  The overlay drawn after a segmentation paints the mask in the
    mask colour.  For a well-formed mask, the overlay has the mask's size;
    a pixel whose mask alpha is not 0 gets the bytes [R], [G], [B] that
    [hexToRgb] returns for the colour, none of them clamped or lost, and the
    mask's alpha; a pixel whose mask alpha is 0 stays transparent black. *)
Theorem overlay_paints_the_mask maskData maskColor :
  0 <= width maskData -> 0 <= height maskData ->
  Z.of_nat (length (data maskData)) = 4 * width maskData * height maskData ->
  let overlay := colored_overlay maskData maskColor in
  exists R G B,
    hexToRgb maskColor = mkRgb (Some R) (Some G) (Some B) /\
    width overlay = width maskData /\ height overlay = height maskData /\
    Z.of_nat (length (data overlay)) = 4 * width maskData * height maskData /\
    forall x y, 0 <= x < width maskData -> 0 <= y < height maskData ->
      let i := (y * width maskData + x) * 4 in
      exists a,
        array_get (data maskData) (i + 3) = Some a /\
        array_get (data overlay) (i + 3) = Some a /\
        (a <> x00 ->
         number <$> array_get (data overlay) i = Some R /\
         number <$> array_get (data overlay) (i + 1) = Some G /\
         number <$> array_get (data overlay) (i + 2) = Some B) /\
        (a = x00 ->
         forall c, 0 <= c < 3 -> array_get (data overlay) (i + c) = Some x00).
Proof.
  intros Hw Hh Hlen overlay.
  destruct (hexToRgb_bytes maskColor) as (R & G & B & Ecolour & HR & HG & HB).
  exists R, G, B. split; [exact Ecolour|]. split; [reflexivity|]. split; [reflexivity|].
  split; [subst overlay; rewrite colored_overlay_length; nia|].
  intros x y Hx Hy i.
  destruct (pixel_number _ _ x y Hx Hy) as (HK & _ & _).
  set (K := y * width maskData + x) in *.
  assert (Ei : forall c, i + c = 4 * K + c) by (intros; subst i; lia).
  assert (Ei0 : i = 4 * K + 0) by (subst i; lia).
  destruct (array_get_Some (data maskData) (i + 3)) as [a Ha]; [rewrite Ei; lia|].
  assert (Hbyte : forall c, 0 <= c < 4 ->
            array_get (data overlay) (4 * K + c)
            = if gt_zero (Some a)
              then if c =? 0 then Some (to_uint8_clamp (Some R))
                   else if c =? 1 then Some (to_uint8_clamp (Some G))
                   else if c =? 2 then Some (to_uint8_clamp (Some B))
                   else Some a
              else Some x00).
  { intros c Hc. subst overlay.
    rewrite colored_overlay_byte by assumption.
    rewrite <- Ei, Ha, Ecolour. reflexivity. }
  exists a. split; [exact Ha|].
  destruct (gt_zero (Some a)) eqn:Hhot.
  - apply gt_zero_spec in Hhot as (a' & [= <-] & Hne).
    split; [rewrite Ei, Hbyte by lia; reflexivity|].
    split; [|congruence].
    intros _. rewrite Ei0 at 1. rewrite !Ei, !Hbyte by lia.
    cbn [Z.eqb Pos.eqb fmap option_fmap option_map].
    rewrite !to_uint8_clamp_byte by assumption. auto.
  - apply gt_zero_false in Hhot. subst a. split; [rewrite Ei, Hbyte by lia; reflexivity|].
    split; [congruence|].
    intros _ c Hc. rewrite Ei, Hbyte by lia. reflexivity.
Qed.

(** X13.  The overlay has the content of the mask: [getMaskBounds] of the
    coloured overlay is [getMaskBounds] of the mask, whatever the colour. *)
Theorem overlay_keeps_the_mask_bounds maskData maskColor :
  0 <= width maskData -> 0 <= height maskData ->
  Z.of_nat (length (data maskData)) = 4 * width maskData * height maskData ->
  getMaskBounds (colored_overlay maskData maskColor) = getMaskBounds maskData.
Proof.
  intros Hw Hh Hlen. apply getMaskBounds_ext; [reflexivity | reflexivity |].
  intros x y. change (width (colored_overlay maskData maskColor)) with (width maskData).
  change (height (colored_overlay maskData maskColor)) with (height maskData).
  unfold content.
  assert (Halpha : 0 <= x < width maskData -> 0 <= y < height maskData ->
            array_get (data (colored_overlay maskData maskColor))
              ((y * width maskData + x) * 4 + 3)
            = array_get (data maskData) ((y * width maskData + x) * 4 + 3)).
  { intros Hx Hy. destruct (pixel_number _ _ x y Hx Hy) as (HK & _ & _).
    replace ((y * width maskData + x) * 4 + 3) with (4 * (y * width maskData + x) + 3) by lia.
    rewrite colored_overlay_byte by (assumption || lia). cbn [Z.eqb].
    destruct (gt_zero _) eqn:Hhot; [reflexivity|].
    destruct (array_get_Some (data maskData) (4 * (y * width maskData + x) + 3))
      as [a Ha]; [lia|].
    rewrite Ha in Hhot |- *. apply gt_zero_false in Hhot. now subst a. }
  split; intros (Hx & Hy & Hb); (split; [exact Hx|]; split; [exact Hy|]).
  - now rewrite <- Halpha.
  - now rewrite Halpha.
Qed.

Lemma hexToRgb_reads_back_witness :
  hexToRgb "#10b981" = mkRgb (Some 16) (Some 185) (Some 129) /\
  hexToRgb "EF4444" = mkRgb (Some 239) (Some 68) (Some 68).
Proof.
  split.
  - apply (hexToRgb_reads_back 16 185 129 false); lia.
  - apply (hexToRgb_reads_back 239 68 68 true); lia.
Defined.

Lemma overlay_paints_the_mask_witness :
  exists R G B,
    hexToRgb "#6366f1" = mkRgb (Some R) (Some G) (Some B) /\
    width (colored_overlay small_mask "#6366f1") = 3 /\
    height (colored_overlay small_mask "#6366f1") = 2 /\
    Z.of_nat (length (data (colored_overlay small_mask "#6366f1"))) = 24.
Proof.
  destruct (overlay_paints_the_mask small_mask "#6366f1")
    as (R & G & B & Hcolour & Hw & Hh & Hlen & _).
  - cbn. lia.
  - cbn. lia.
  - reflexivity.
  - exists R, G, B. split; [exact Hcolour|]. split; [exact Hw|]. split; [exact Hh | exact Hlen].
Defined.

Lemma overlay_keeps_the_mask_bounds_witness :
  getMaskBounds (colored_overlay small_mask "#6366f1") = getMaskBounds small_mask.
Proof.
  apply (overlay_keeps_the_mask_bounds small_mask "#6366f1").
  - cbn. lia.
  - cbn. lia.
  - reflexivity.
Defined.

End SegmenterFacts.

(** ** Facts about the hook [useMiniSam] *)
Module UseMiniSamFacts.
Import Float64 MaskUtils UseMiniSam.


End UseMiniSamFacts.
(** ** Facts about the async operation queue *)
Module AsyncQueueFacts.
Import AsyncQueue.

Section QueueFacts.
Context {value : Type}.
Variable Error : string -> value.

Abbreviation state := (state value).
Abbreviation event := (event value).
Abbreviation QueueItem := (QueueItem value).

Implicit Types (st : state) (ev : event) (item : QueueItem) (p : nat).

(** The shapes a state with the invariant can have: idle, or busy with
    one suspended activation and at most one queued item. *)
Lemma invariant_shape st :
  invariant st ->
  (isProcessing st = false /\ suspended st = [] /\ queue st = []) \/
  (isProcessing st = true /\ (exists f, suspended st = [f]) /\
   (queue st = [] \/ exists item, queue st = [item])).
Proof.
  intros (Hq & Hidle & Hbusy & _).
  destruct (isProcessing st) eqn:E.
  - right. split; [reflexivity|]. specialize (Hbusy eq_refl). split.
    + destruct (suspended st) as [|f [|]]; try discriminate. now exists f.
    + destruct (queue st) as [|item [|]]; cbn in Hq; try lia; eauto.
  - left. destruct (Hidle eq_refl). auto.
Qed.

Lemma invariant_initially : invariant (@createAsyncOperationQueue value).
Proof.
  unfold invariant, createAsyncOperationQueue, held; cbn. split_and!; try discriminate; try lia.
  - auto.
  - constructor.
  - intros p Hp. set_solver.
Qed.

(** Opening up a state that satisfies the invariant: its fields become
    variables, its shape one of the three of [invariant_shape], and the
    facts the invariant gives about the promises involved are added. *)
Ltac open_state st Hinv :=
  let Hshape := fresh "Hshape" in
  pose proof (invariant_shape st Hinv) as Hshape;
  destruct Hinv as (_ & _ & _ & Hnd & Hheld & Hdom & Hov);
  destruct st as [q ip fs ps al ov]; cbn in *; subst ov;
  assert (Hal : ps !! al = None)
    by (destruct (ps !! al) eqn:E; [apply Hdom in E; lia | reflexivity]);
  unfold held in *;
  destruct Hshape as [(-> & -> & ->) | (-> & [[it aw] ->] & [-> | [item' ->]])];
  cbn in *;
  try (assert ((promise it < al)%nat /\ ps !! promise it = None) as [Hit1 Hit2]
         by (apply Hheld; set_unfold; auto));
  try (assert ((promise item' < al)%nat /\ ps !! promise item' = None) as [Hitem1 Hitem2]
         by (apply Hheld; set_unfold; auto));
  try (assert (Hne : promise item' <> promise it)
         by (apply NoDup_cons in Hnd; set_unfold; tauto)).

(** Running the operations of the queue on an opened state. *)
Ltac exec_step :=
  first
    [ progress unfold enqueue, clear, reject_pending, processQueue, resume, reject, resolve
    | progress cbn
    | progress cbv [note_call set_queue set_isProcessing set_suspended set_promises
                    set_allocated set_overlapped settle queue isProcessing suspended
                    promises allocated overlapped]
    | rewrite bool_decide_eq_true_2 by reflexivity
    | rewrite lookup_insert_ne by congruence
    | match goal with
      | E : ?m !! ?x = None |- context [?m !! ?x] => rewrite E
      | E : throws ?o = _ |- context [throws ?o] => rewrite E
      end ].
Ltac exec := repeat exec_step.

(** Closing the parts of [invariant] on an explicit state. *)
Ltac close_invariant :=
  unfold invariant, held; cbn; split_and!;
  try (cbn; lia);
  try (intros; discriminate);
  try (intros; split; reflexivity);
  try (intros; reflexivity);
  try apply NoDup_nil_2;
  try apply NoDup_singleton;
  try assumption;
  try (apply NoDup_cons; split; [rewrite list_elem_of_singleton; lia | apply NoDup_singleton]);
  try (intros ? Hp; set_unfold in Hp;
       intuition (subst; try lia;
                  rewrite ?lookup_insert_ne by (try lia; congruence); try assumption));
  try (intros ? ? Hp;
       repeat (rewrite lookup_insert in Hp; case_decide; simplify_eq);
       try lia;
       match goal with Hdom : forall p s, _ !! p = Some s -> _ |- _ => apply Hdom in Hp end;
       lia).

(** Every step keeps the invariant.  The proof runs the step on each of
    the three shapes of [invariant_shape]. *)
Lemma invariant_step st ev st' :
  invariant st -> step Error st ev = Some st' -> invariant st'.
Proof.
  intros Hinv Hstep. open_state st Hinv.
  all: destruct ev as [op | | p s | p]; revert Hstep.
  all: try (destruct (throws op) as [e0|] eqn:Eop).
  all: try (destruct (throws (operation item')) as [e1|] eqn:Eitem).
  all: exec.
  all: repeat (case_bool_decide; simplify_eq; cbn).
  all: repeat (case_match; simplify_eq; cbn).
  all: exec.
  all: try (intros [=]; subst st').
  all: try discriminate.
  all: close_invariant.
Qed.

Lemma invariant_run evs : forall st st',
  invariant st -> run Error st evs = Some st' -> invariant st'.
Proof.
  induction evs as [|ev evs IH]; intros st st' Hinv Hrun; cbn in Hrun.
  - now simplify_eq.
  - destruct (step Error st ev) as [st1|] eqn:E; [|discriminate].
    eapply IH; [|exact Hrun]. eapply invariant_step; eauto.
Qed.

Lemma reachable_invariant st : reachable Error st -> invariant st.
Proof. intros [evs Hrun]. eapply invariant_run; [apply invariant_initially | exact Hrun]. Qed.

(** On an idle queue [enqueue] starts the operation inside the call: when
    [enqueue] returns, the operation is in flight and its promise pending. *)
Lemma idle_enqueue_starts_operation st op :
  reachable Error st -> isProcessing st = false -> throws op = None ->
  suspended (fst (enqueue Error op st)) = [(mkItem op (allocated st), Pending)] /\
  queue (fst (enqueue Error op st)) = [] /\
  snd (enqueue Error op st) = allocated st /\
  promises (fst (enqueue Error op st)) !! allocated st = None.
Proof.
  intros Hreach Hidle Hop. pose proof (reachable_invariant st Hreach) as Hinv.
  open_state st Hinv; try discriminate.
  exec. auto.
Qed.

(** A later [enqueue] leaves the operation in flight alone: its activation
    stays suspended and its promise pending. *)
Lemma enqueue_spares_in_flight st op f :
  reachable Error st -> f ∈ suspended st ->
  f ∈ suspended (fst (enqueue Error op st)) /\
  promises (fst (enqueue Error op st)) !! promise (fst f) = None.
Proof.
  intros Hreach Hin. pose proof (reachable_invariant st Hreach) as Hinv.
  open_state st Hinv; set_unfold in Hin; try contradiction.
  all: destruct Hin as [->|[]]; exec; split; [set_unfold; auto | reflexivity].
Qed.

(** C8.  The pending queue never holds more than one entry: in every state
    the queue can reach by calls of [enqueue] and [clear], settlements of
    operations and resumptions of [processQueue], [queueLength] is at most
    1. *)
Theorem pending_queue_at_most_one st :
  reachable Error st -> queueLength st <= 1.
Proof.
  intros Hreach. destruct (reachable_invariant st Hreach) as (Hq & _).
  unfold queueLength. lia.
Qed.

(** C2.  At most one operation is in flight: in every reachable state at
    most one started operation has a promise that is still pending, and no
    operation was ever called while the promise of an earlier one was
    pending. *)
Theorem single_flight st :
  reachable Error st -> (active st <= 1)%nat /\ overlapped st = false.
Proof.
  intros Hreach. pose proof (reachable_invariant st Hreach) as Hinv.
  pose proof (invariant_shape st Hinv) as Hshape.
  destruct Hinv as (_ & _ & _ & _ & _ & _ & Hov). split; [|exact Hov].
  unfold active.
  destruct Hshape as [(_ & -> & _) | (_ & [f ->] & _)]; cbn; [lia|].
  destruct (is_pending f); cbn; lia.
Qed.

(** C6.  A failure of an operation reaches its own caller, unchanged, and
    nobody else; none is swallowed.
    - The promise returned by the running operation of [item] rejects with
      [e]: nothing is delivered at that moment, and when [processQueue]
      resumes, the promise [enqueue] returned for [item] is rejected with
      [e] itself.
    - The operation throws [e] when it is called: on an idle queue that is
      inside [enqueue], and the promise [enqueue] returns is rejected with
      [e]; for a queued operation it is when [processQueue] goes on after
      the operation before it, whatever that one's outcome [s], and the
      promise of the queued operation is rejected with what it threw.
    In each case every other promise is left as it was; a queued operation
    that returns a promise when it is called is started and its promise
    stays pending. *)
Theorem rejection_reaches_own_caller st :
  reachable Error st ->
  (forall item e, (item, Pending) ∈ suspended st ->
     exists st1,
       step Error st (ThunkSettles (promise item) (Rejected e)) = Some st1 /\
       (item, Settled (Rejected e)) ∈ suspended st1 /\
       promises st1 = promises st) /\
  (forall item s, (item, Settled s) ∈ suspended st ->
     exists st',
       step Error st (Resume (promise item)) = Some st' /\
       promises st' !! promise item = Some s /\
       (forall other e', other ∈ queue st -> throws (operation other) = Some e' ->
          promises st' !! promise other = Some (Rejected e')) /\
       (forall other, other ∈ queue st -> throws (operation other) = None ->
          promises st' !! promise other = None /\ (other, Pending) ∈ suspended st') /\
       (forall p, p <> promise item -> p ∉ (promise <$> queue st) ->
          promises st' !! p = promises st !! p)) /\
  (forall op e, isProcessing st = false -> throws op = Some e ->
     snd (enqueue Error op st) = allocated st /\
     promises (fst (enqueue Error op st)) !! allocated st = Some (Rejected e) /\
     (forall p, p <> allocated st ->
        promises (fst (enqueue Error op st)) !! p = promises st !! p)).
Proof.
  intros Hreach. pose proof (reachable_invariant st Hreach) as Hinv.
  open_state st Hinv.
  all: split; [intros item e Hin; set_unfold in Hin; try contradiction|].
  all: try (destruct Hin as [Hin|[]]; simplify_eq;
            eexists; split; [exec; reflexivity|];
            cbn; split; [set_unfold; auto | reflexivity]).
  all: split; [intros item s Hin; set_unfold in Hin; try contradiction|].
  all: try (destruct Hin as [Hin|[]]; simplify_eq).
  - intros op e _ Hthrow. split; [reflexivity|].
    split; [exec; apply lookup_insert_eq|].
    intros p Hp. exec. reflexivity.
  - destruct s as [result|error].
    all: eexists; split; [exec; reflexivity|].
    all: cbn; split; [apply lookup_insert_eq|].
    all: split; [intros other e' Hother; set_unfold in Hother; contradiction|].
    all: split; [intros other Hother; set_unfold in Hother; contradiction|].
    all: intros p Hp _; apply lookup_insert_ne; congruence.
  - intros op e Hidle. discriminate.
  - destruct (throws (operation item')) as [e1|] eqn:Ethrow; destruct s as [result|error].
    all: eexists; split; [exec; reflexivity|].
    all: cbn; split;
      [rewrite ?lookup_insert_ne by congruence; apply lookup_insert_eq|].
    all: split; [intros other e' Hother Hthrow; set_unfold in Hother;
                 destruct Hother as [->|[]]; simplify_eq;
                 try apply lookup_insert_eq|].
    all: split; [intros other Hother Hthrow; set_unfold in Hother;
                 destruct Hother as [->|[]]; simplify_eq;
                 try (split; [rewrite lookup_insert_ne by congruence; assumption
                             | set_unfold; auto])|].
    all: intros p Hp Hq; set_unfold in Hq;
      rewrite !lookup_insert_ne by (try congruence; intros <-; apply Hq; eauto);
      reflexivity.
  - intros op e Hidle. discriminate.
Qed.

(** C7.  [clear()] rejects the promise of every queued operation with
    [Error("Queue cleared")] and empties the queue, so [queueLength] is 0
    afterwards.  It touches nothing else: the suspended activation and
    [isProcessing] stay, no other promise changes, and the operation in
    flight goes on to settle its caller's promise with its own outcome. *)
Theorem clear_rejects_pending st :
  reachable Error st ->
  let st' := clear Error st in
  step Error st Clear = Some st' /\
  queueLength st' = 0 /\
  (forall item, item ∈ queue st ->
     promises st' !! promise item = Some (Rejected (Error "Queue cleared"))) /\
  suspended st' = suspended st /\
  isProcessing st' = isProcessing st /\
  (forall p, p ∉ (promise <$> queue st) -> promises st' !! p = promises st !! p) /\
  (forall item s, (item, Pending) ∈ suspended st ->
     exists st'',
       run Error st' [ThunkSettles (promise item) s; Resume (promise item)] = Some st'' /\
       promises st'' !! promise item = Some s).
Proof.
  intros Hreach. pose proof (reachable_invariant st Hreach) as Hinv.
  open_state st Hinv; cbv zeta.
  all: split; [reflexivity|].
  all: split; [reflexivity|].
  all: split; [intros item Hitem; set_unfold in Hitem; try contradiction|].
  all: try (destruct Hitem as [->|[]]; exec; apply lookup_insert_eq).
  all: split; [exec; reflexivity|].
  all: split; [exec; reflexivity|].
  all: split; [intros p Hp; set_unfold in Hp; exec; try reflexivity|].
  all: try (apply lookup_insert_ne; intros <-; apply Hp; auto).
  all: intros item s Hin; set_unfold in Hin; try contradiction.
  all: destruct Hin as [Hin|[]]; simplify_eq.
  all: destruct s as [result|error].
  all: eexists; split; [exec; reflexivity|].
  all: exec; apply lookup_insert_eq.
Qed.

(** *** Further facts: what callers can rely on *)

Lemma run_app evs1 : forall evs2 st,
  run Error st (evs1 ++ evs2)
  = match run Error st evs1 with Some st1 => run Error st1 evs2 | None => None end.
Proof.
  induction evs1 as [|ev evs1 IH]; intros evs2 st; cbn; [reflexivity|].
  destruct (step Error st ev); [apply IH | reflexivity].
Qed.

(** A property of the initial state that every step keeps, given the
    invariant, holds in every reachable state. *)
Lemma reachable_ind (P : state -> Prop) :
  P (@createAsyncOperationQueue value) ->
  (forall st ev st', invariant st -> P st -> step Error st ev = Some st' -> P st') ->
  forall st, reachable Error st -> P st.
Proof.
  intros Hinit Hstep st [evs Hrun].
  assert (H : forall evs st0 st1,
             invariant st0 -> P st0 -> run Error st0 evs = Some st1 -> P st1).
  { clear evs Hrun. induction evs as [|ev evs IH]; intros st0 st1 Hinv HP Hrun; cbn in Hrun.
    - now simplify_eq.
    - destruct (step Error st0 ev) as [st2|] eqn:E; [|discriminate].
      apply (IH st2 st1); [eapply invariant_step; eauto | eapply Hstep; eauto | exact Hrun]. }
  exact (H evs _ st invariant_initially Hinit Hrun).
Qed.

(** X15.  [isProcessing] tells whether an operation is in flight.  In every
    reachable state the getter is [true] exactly when one activation of
    [processQueue] stands at its [await] (an operation was started and the
    loop has not gone on past it); when it is [false], nothing is in flight
    and the queue is empty. *)
Theorem isProcessing_tells_in_flight st :
  reachable Error st ->
  (isProcessing st = true <-> exists item a, suspended st = [(item, a)]) /\
  (isProcessing st = false -> queueLength st = 0 /\ suspended st = []).
Proof.
  intros Hreach. pose proof (reachable_invariant st Hreach) as Hinv.
  destruct (invariant_shape st Hinv) as [(Hidle & Hs & Hq) | (Hbusy & [[item a] Hs] & _)].
  - rewrite Hidle, Hs. split.
    + split; [discriminate | intros (item & a & [=])].
    + intros _. unfold queueLength. rewrite Hq. auto.
  - rewrite Hbusy, Hs. split.
    + split; eauto.
    + discriminate.
Qed.

(** X16.  Calls that are awaited one at a time all run.  On an idle queue,
    [enqueue] of an operation that returns a promise starts it inside the
    call; when that promise settles and [processQueue] resumes, the promise
    [enqueue] returned settles with the same outcome, no other promise
    changes, and the queue is idle again. *)
Theorem awaited_call_runs st op s :
  reachable Error st -> isProcessing st = false -> throws op = None ->
  let p := allocated st in
  snd (enqueue Error op st) = p /\
  suspended (fst (enqueue Error op st)) = [(mkItem op p, Pending)] /\
  exists st',
    run Error st [Enqueue op; ThunkSettles p s; Resume p] = Some st' /\
    promises st' = <[p := s]> (promises st) /\
    isProcessing st' = false /\ queueLength st' = 0 /\ suspended st' = [].
Proof.
  intros Hreach Hidle Hop. pose proof (reachable_invariant st Hreach) as Hinv.
  open_state st Hinv; try discriminate.
  cbv zeta. split; [reflexivity|]. split; [exec; reflexivity|].
  destruct s as [result|error].
  all: eexists; split; [exec; reflexivity|].
  all: exec; auto.
Qed.

(** X17.  While an operation is in flight, [enqueue] starts nothing: the
    new operation waits in the queue, alone, with its promise pending; the
    operation that waited there before is rejected with
    [Error("Operation cancelled by newer request")] without having been
    called; the operation in flight and every other promise are left as
    they were. *)
Theorem enqueue_while_busy_waits st op :
  reachable Error st -> isProcessing st = true ->
  let st' := fst (enqueue Error op st) in
  let p := allocated st in
  snd (enqueue Error op st) = p /\
  suspended st' = suspended st /\ isProcessing st' = true /\
  queue st' = [mkItem op p] /\ promises st' !! p = None /\
  (forall item, item ∈ queue st ->
     promises st' !! promise item
     = Some (Rejected (Error "Operation cancelled by newer request"))) /\
  (forall q, q ∉ (promise <$> queue st) -> promises st' !! q = promises st !! q).
Proof.
  intros Hreach Hbusy. pose proof (reachable_invariant st Hreach) as Hinv.
  open_state st Hinv; try discriminate; cbv zeta.
  all: split; [reflexivity|].
  all: split; [exec; reflexivity|].
  all: split; [exec; reflexivity|].
  all: split; [exec; reflexivity|].
  all: split; [exec; try reflexivity|].
  all: try (rewrite lookup_insert_ne by lia; assumption).
  all: split; [intros item Hitem; set_unfold in Hitem; try contradiction|].
  all: try (destruct Hitem as [->|[]]; exec; apply lookup_insert_eq).
  all: intros q Hq; set_unfold in Hq; exec; try reflexivity.
  all: apply lookup_insert_ne; intros <-; apply Hq; auto.
Qed.


(** The state after a burst of calls: the first operation in flight, the
    last one queued, the promises of those in between rejected. *)
Lemma burst_state first middle : forall last,
  throws first = None ->
  exists ps,
    run Error createAsyncOperationQueue (Enqueue <$> (first :: middle ++ [last]))
    = Some (mkState [mkItem last (S (length middle))] true
              [(mkItem first 0, Pending)] ps (S (S (length middle))) false) /\
    forall p,
      ps !! p = if decide (1 <= p <= length middle)%nat
                then Some (Rejected (Error "Operation cancelled by newer request"))
                else None.
Proof.
  induction middle as [|x middle IH] using rev_ind; intros last Hfirst.
  - exists ∅. split.
    + unfold createAsyncOperationQueue.
      generalize (∅ : gmap nat (settlement value)). intros ps0.
      cbn [fmap list_fmap app run step].
      assert (E1 : fst (enqueue Error first (mkState [] false [] ps0 0 false))
                   = mkState [] true [(mkItem first 0, Pending)] ps0 1 false)
        by (exec; reflexivity).
      rewrite E1. exec. reflexivity.
    + intros p. rewrite lookup_empty. case_decide; [cbn in *; lia | reflexivity].
  - destruct (IH x Hfirst) as (ps & Hrun & Hps).
    exists (<[S (length middle) := Rejected (Error "Operation cancelled by newer request")]> ps).
    assert (Hfree : ps !! S (length middle) = None).
    { rewrite Hps. case_decide; [lia | reflexivity]. }
    split.
    + replace (Enqueue <$> first :: (middle ++ [x]) ++ [last])
        with ((Enqueue <$> first :: middle ++ [x]) ++ [Enqueue last])
        by (rewrite !fmap_cons, !fmap_app; cbn; now rewrite <- !app_assoc).
      rewrite run_app, Hrun. rewrite length_app. cbn [length].
      replace (length middle + 1)%nat with (S (length middle)) by lia.
      exec. reflexivity.
    + intros p. rewrite length_app. cbn [length].
      rewrite lookup_insert. case_decide as Hp.
      * subst p. case_decide; [reflexivity | lia].
      * rewrite Hps. repeat case_decide; try reflexivity; lia.
Qed.

(** X19.  A burst of calls runs its first and its last operation.  When
    [enqueue] is called two or more times in a row on a new queue, with
    operations that return promises, the first operation is started inside
    the first call and is in flight afterwards, the last one waits in the
    queue, and the promises of all calls in between are rejected with
    [Error("Operation cancelled by newer request")], their operations never
    called.  When the first operation settles and [processQueue] resumes,
    its promise settles with its outcome and the last operation is started;
    when that one settles, its promise settles with its outcome and the
    queue is idle. *)
Theorem burst_runs_first_and_last first middle last (s1 s2 : settlement value) :
  throws first = None -> throws last = None ->
  let n := length middle in
  exists st st',
    run Error createAsyncOperationQueue (Enqueue <$> (first :: middle ++ [last])) = Some st /\
    suspended st = [(mkItem first 0, Pending)] /\
    queue st = [mkItem last (S n)] /\
    (forall p, (1 <= p <= n)%nat ->
       promises st !! p = Some (Rejected (Error "Operation cancelled by newer request"))) /\
    promises st !! 0%nat = None /\ promises st !! S n = None /\
    run Error st [ThunkSettles 0 s1; Resume 0; ThunkSettles (S n) s2; Resume (S n)]
    = Some st' /\
    promises st' !! 0%nat = Some s1 /\ promises st' !! S n = Some s2 /\
    (forall p, (1 <= p <= n)%nat -> promises st' !! p = promises st !! p) /\
    isProcessing st' = false /\ queueLength st' = 0.
Proof.
  intros Hfirst Hlast n.
  destruct (burst_state first middle last Hfirst) as (ps & Hrun & Hps).
  fold n in Hrun, Hps.
  assert (H0 : ps !! 0%nat = None) by (rewrite Hps; case_decide; [lia | reflexivity]).
  assert (Hn : ps !! S n = None) by (rewrite Hps; case_decide; [lia | reflexivity]).
  eexists _, _. split; [exact Hrun|]. cbn [suspended queue promises].
  split; [reflexivity|]. split; [reflexivity|].
  split; [intros p Hp; rewrite Hps; case_decide; [reflexivity | lia]|].
  split; [exact H0|]. split; [exact Hn|].
  destruct s1 as [v1|e1], s2 as [v2|e2].
  all: split; [exec; reflexivity|].
  all: cbn [promises isProcessing queue].
  all: split; [rewrite lookup_insert_ne by lia; apply lookup_insert_eq|].
  all: split; [apply lookup_insert_eq|].
  all: split; [intros p Hp; rewrite !lookup_insert_ne by lia; reflexivity|].
  all: auto.
Qed.

(** Every promise that was handed out and has not settled is held by an
    item: a step keeps this. *)
Lemma owned_step st ev st' :
  invariant st -> owned st -> step Error st ev = Some st' -> owned st'.
Proof.
  intros Hinv Hacc Hstep. open_state st Hinv.
  all: unfold owned, held in Hacc; cbn in Hacc.
  all: destruct ev as [op | | p0 s | p0]; revert Hstep.
  all: try (destruct (throws op) as [e0|] eqn:Eop).
  all: try (destruct (throws (operation item')) as [e1|] eqn:Eitem).
  all: exec.
  all: repeat (case_bool_decide; simplify_eq; cbn).
  all: repeat (case_match; simplify_eq; cbn).
  all: exec.
  all: try (intros [=]; subst st').
  all: try discriminate.
  all: unfold owned, held; cbn; intros p Hp Hnone.
  all: repeat (rewrite lookup_insert in Hnone; case_decide; simplify_eq).
  all: try (destruct (decide (p = al)) as [->|Hnew]; [set_unfold; auto|]).
  all: try lia.
  all: try (specialize (Hacc p ltac:(lia) Hnone)).
  all: set_unfold; intuition (subst; try congruence; auto).
Qed.

(** X20.  No promise is lost.  In every reachable state, each promise
    [enqueue] has returned is either settled or held by exactly one item,
    which is queued or in flight. *)
Theorem no_promise_is_lost st p :
  reachable Error st -> (p < allocated st)%nat ->
  (promises st !! p = None <-> p ∈ held st) /\ NoDup (held st).
Proof.
  intros Hreach Hp. pose proof (reachable_invariant st Hreach) as Hinv.
  assert (Hacc : owned st).
  { revert Hreach. clear. revert st. apply reachable_ind.
    - intros q Hq. cbn in Hq. lia.
    - exact owned_step. }
  destruct Hinv as (_ & _ & _ & Hnd & Hheld & _).
  split; [|exact Hnd]. split; [apply Hacc; exact Hp|].
  intros Hin. apply Hheld, Hin.
Qed.

End QueueFacts.

(** C1.  The calls of [test-async-queue.js], run: after the four calls of
    [enqueue], operation 1 is in flight (it was started inside the first
    call), operations 2 and 3 are rejected as cancelled and operation 4
    waits in the queue; once the operations in flight settle, the promises
    of calls 1 and 4 are both fulfilled.  The first call is neither
    cancelled nor kept from running. *)
Theorem test_calls_run_first_and_last :
  exists st4 st8,
    run JsError createAsyncOperationQueue test_calls = Some st4 /\
    suspended st4 = [(mkItem (test_operation 1) 0, Pending)] /\
    queue st4 = [mkItem (test_operation 4) 3] /\
    promises st4 !! 0%nat = None /\
    promises st4 !! 1%nat = Some (Rejected (JsError "Operation cancelled by newer request")) /\
    promises st4 !! 2%nat = Some (Rejected (JsError "Operation cancelled by newer request")) /\
    promises st4 !! 3%nat = None /\
    run JsError st4 test_settlements = Some st8 /\
    promises st8 !! 0%nat = Some (Fulfilled (JsString "Result 1")) /\
    promises st8 !! 3%nat = Some (Fulfilled (JsString "Result 4")).
Proof.
  eexists _, _. split; [vm_compute; reflexivity|].
  split_and!; vm_compute; reflexivity.
Qed.

Lemma fresh_queue_reachable : reachable JsError (@createAsyncOperationQueue js_value).
Proof. exists []. reflexivity. Qed.

Lemma busy_state_reachable : reachable JsError busy_state.
Proof.
  exists [Enqueue (test_operation 1); Enqueue (test_operation 2)].
  vm_compute. reflexivity.
Qed.

Lemma failed_state_reachable : reachable JsError failed_state.
Proof.
  exists [Enqueue (test_operation 1); Enqueue (test_operation 2);
          ThunkSettles 0 (Rejected (JsString "session lost"))].
  vm_compute. reflexivity.
Qed.

Lemma pending_queue_at_most_one_witness :
  reachable JsError busy_state /\ queueLength busy_state <= 1.
Proof.
  split; [exact busy_state_reachable|].
  apply (pending_queue_at_most_one JsError). exact busy_state_reachable.
Defined.

Lemma single_flight_witness :
  reachable JsError busy_state /\
  (active busy_state <= 1)%nat /\ overlapped busy_state = false.
Proof.
  split; [exact busy_state_reachable|].
  apply (single_flight JsError). exact busy_state_reachable.
Defined.

Lemma rejection_reaches_own_caller_witness :
  (exists st1,
     step JsError busy_state (ThunkSettles 0 (Rejected (JsString "session lost")))
       = Some st1 /\
     (mkItem (test_operation 1) 0, Settled (Rejected (JsString "session lost")))
       ∈ suspended st1 /\
     promises st1 = promises busy_state) /\
  (exists st',
     step JsError failed_state (Resume 0) = Some st' /\
     promises st' !! 0%nat = Some (Rejected (JsString "session lost")) /\
     promises st' !! 1%nat = None) /\
  promises (fst (enqueue JsError (mkThunk 1 (Some (JsError "no session")))
                   createAsyncOperationQueue)) !! 0%nat
  = Some (Rejected (JsError "no session")).
Proof.
  split; [|split].
  - apply (proj1 (rejection_reaches_own_caller JsError busy_state busy_state_reachable)
             (mkItem (test_operation 1) 0) (JsString "session lost")).
    cbn. set_solver.
  - destruct (proj1 (proj2 (rejection_reaches_own_caller JsError failed_state
                              failed_state_reachable))
                (mkItem (test_operation 1) 0) (Rejected (JsString "session lost")))
      as (st' & Hstep & Hown & _ & Hstart & _).
    { cbn. set_solver. }
    exists st'. split; [exact Hstep|]. split; [exact Hown|].
    destruct (Hstart (mkItem (test_operation 2) 1)) as [Hpending _].
    + cbn. apply list_elem_of_singleton. reflexivity.
    + reflexivity.
    + exact Hpending.
  - apply (proj2 (proj2 (rejection_reaches_own_caller JsError createAsyncOperationQueue
                           fresh_queue_reachable))
             (mkThunk 1 (Some (JsError "no session"))) (JsError "no session"));
      reflexivity.
Defined.

Lemma clear_rejects_pending_witness :
  reachable JsError busy_state /\
  queueLength (clear JsError busy_state) = 0 /\
  promises (clear JsError busy_state) !! 1%nat = Some (Rejected (JsError "Queue cleared")) /\
  suspended (clear JsError busy_state) = suspended busy_state /\
  exists st'',
    run JsError (clear JsError busy_state)
      [ThunkSettles 0 (Fulfilled (JsString "Result 1")); Resume 0] = Some st'' /\
    promises st'' !! 0%nat = Some (Fulfilled (JsString "Result 1")).
Proof.
  split; [exact busy_state_reachable|].
  destruct (clear_rejects_pending JsError busy_state busy_state_reachable)
    as (_ & Hlen & Hrej & Hsusp & _ & _ & Hown).
  split; [exact Hlen|]. split.
  - apply (Hrej (mkItem (test_operation 2) 1)). cbn. set_solver.
  - split; [exact Hsusp|].
    apply (Hown (mkItem (test_operation 1) 0) (Fulfilled (JsString "Result 1"))).
    cbn. set_solver.
Defined.

Lemma isProcessing_tells_in_flight_witness :
  reachable JsError busy_state /\
  (isProcessing busy_state = true <-> exists item a, suspended busy_state = [(item, a)]).
Proof.
  split; [exact busy_state_reachable|].
  apply (isProcessing_tells_in_flight JsError busy_state). exact busy_state_reachable.
Defined.

Lemma awaited_call_runs_witness :
  exists st',
    run JsError createAsyncOperationQueue
      [Enqueue (test_operation 1); ThunkSettles 0 (Fulfilled (JsString "Result 1")); Resume 0]
    = Some st' /\
    promises st' = <[0%nat := Fulfilled (JsString "Result 1")]> ∅ /\
    isProcessing st' = false /\ queueLength st' = 0 /\ suspended st' = [].
Proof.
  apply (awaited_call_runs JsError createAsyncOperationQueue (test_operation 1)
           (Fulfilled (JsString "Result 1"))).
  - exact fresh_queue_reachable.
  - reflexivity.
  - reflexivity.
Defined.

Lemma enqueue_while_busy_waits_witness :
  suspended (fst (enqueue JsError (test_operation 3) busy_state)) = suspended busy_state /\
  queue (fst (enqueue JsError (test_operation 3) busy_state))
  = [mkItem (test_operation 3) 2] /\
  promises (fst (enqueue JsError (test_operation 3) busy_state)) !! 1%nat
  = Some (Rejected (JsError "Operation cancelled by newer request")).
Proof.
  destruct (enqueue_while_busy_waits JsError busy_state (test_operation 3))
    as (_ & Hsusp & _ & Hqueue & _ & Hcancel & _).
  - exact busy_state_reachable.
  - reflexivity.
  - split; [exact Hsusp|]. split; [exact Hqueue|].
    apply (Hcancel (mkItem (test_operation 2) 1)). cbn. set_solver.
Defined.


Lemma burst_runs_first_and_last_witness :
  exists st st',
    run JsError createAsyncOperationQueue test_calls = Some st /\
    suspended st = [(mkItem (test_operation 1) 0, Pending)] /\
    queue st = [mkItem (test_operation 4) 3] /\
    run JsError st test_settlements = Some st' /\
    promises st' !! 0%nat = Some (Fulfilled (JsString "Result 1")) /\
    promises st' !! 3%nat = Some (Fulfilled (JsString "Result 4")) /\
    isProcessing st' = false.
Proof.
  destruct (burst_runs_first_and_last JsError (test_operation 1)
              [test_operation 2; test_operation 3] (test_operation 4)
              (Fulfilled (JsString "Result 1")) (Fulfilled (JsString "Result 4"))
              eq_refl eq_refl)
    as (st & st' & Hrun & Hsusp & Hqueue & _ & _ & _ & Hrun' & H0 & H3 & _ & Hidle & _).
  exists st, st'. split; [exact Hrun|]. split; [exact Hsusp|]. split; [exact Hqueue|].
  split; [exact Hrun'|]. split; [exact H0|]. split; [exact H3 | exact Hidle].
Defined.

Lemma no_promise_is_lost_witness :
  reachable JsError busy_state /\
  (promises busy_state !! 1%nat = None <-> 1%nat ∈ held busy_state).
Proof.
  split; [exact busy_state_reachable|].
  apply (no_promise_is_lost JsError busy_state 1 busy_state_reachable). cbn. lia.
Defined.

End AsyncQueueFacts.
